(** * PERT / CPM scheduling engine: a shallow embedding of
      [pert/pert_calculator.py], of the parts of [pert/models.py] it uses,
      of the properties of [Projet] and of the validation of a duration in
      [pert/models.py] and [pert/forms.py].

    The Django objects are modelled as records, the database as a table of
    rows plus the many-to-many link table behind [Tache.dependances], the
    Python dictionaries as [gmap]s, the sets of the cycle detector as
    [gset]s, and exceptions/state as a small state-and-exception monad. *)

From Stdlib Require Import Ascii.
From stdpp Require Import gmap strings list fin_maps relations sorting.

Local Open Scope Z_scope.

(* [set_solver] clears hypotheses that may already be gone. *)
Set Warnings "-clear-no-such-hyp".

(** ** Data model ([pert/models.py]) *)

(** A row of [Tache].  The presentation fields ([nom], [description]) play
    no role in the computation and are left out.  The foreign key [projet],
    which no method of the calculator reads or assigns, is not a field of the
    record: it is the column [projet_id] that [taches_du_projet] takes.  The
    six nullable [IntegerField]s are [option Z]. *)
Record Tache := mkTache {
  pk : nat;
  code : string;
  duree : Z;
  date_debut_tot : option Z;
  date_fin_tot : option Z;
  date_debut_tard : option Z;
  date_fin_tard : option Z;
  marge_totale : option Z;
  marge_libre : option Z
}.

Global Instance Tache_eq_dec : EqDecision Tache.
Proof. solve_decision. Defined.

(** Attribute assignments [tache.champ = v]. *)
Definition avec_code (c : string) (t : Tache) : Tache :=
  mkTache (pk t) c (duree t) (date_debut_tot t) (date_fin_tot t)
          (date_debut_tard t) (date_fin_tard t) (marge_totale t) (marge_libre t).
Definition avec_date_debut_tot (v : option Z) (t : Tache) : Tache :=
  mkTache (pk t) (code t) (duree t) v (date_fin_tot t)
          (date_debut_tard t) (date_fin_tard t) (marge_totale t) (marge_libre t).
Definition avec_date_fin_tot (v : option Z) (t : Tache) : Tache :=
  mkTache (pk t) (code t) (duree t) (date_debut_tot t) v
          (date_debut_tard t) (date_fin_tard t) (marge_totale t) (marge_libre t).
Definition avec_date_debut_tard (v : option Z) (t : Tache) : Tache :=
  mkTache (pk t) (code t) (duree t) (date_debut_tot t) (date_fin_tot t)
          v (date_fin_tard t) (marge_totale t) (marge_libre t).
Definition avec_date_fin_tard (v : option Z) (t : Tache) : Tache :=
  mkTache (pk t) (code t) (duree t) (date_debut_tot t) (date_fin_tot t)
          (date_debut_tard t) v (marge_totale t) (marge_libre t).
Definition avec_marge_totale (v : option Z) (t : Tache) : Tache :=
  mkTache (pk t) (code t) (duree t) (date_debut_tot t) (date_fin_tot t)
          (date_debut_tard t) (date_fin_tard t) v (marge_libre t).
Definition avec_marge_libre (v : option Z) (t : Tache) : Tache :=
  mkTache (pk t) (code t) (duree t) (date_debut_tot t) (date_fin_tot t)
          (date_debut_tard t) (date_fin_tard t) (marge_totale t) v.

(** The database: the table of tasks and the link table of the
    [ManyToManyField('self', symmetrical=False, related_name='successeurs')].
    A link [(a, b)] says that the task of key [a] has the task of key [b]
    among its [dependances]. *)
Record Base := mkBase {
  table : list Tache;
  liens : list (nat * nat)
}.

(** [tache.dependances.all()] and [tache.successeurs.all()]: the rows linked
    to [tache], in the order the table lists them.  The order of a queryset
    ([Meta.ordering = ['code']]) is not modelled: the statements below depend
    on these lists through their elements only. *)
Definition dependances (b : Base) (t : Tache) : list Tache :=
  filter (λ r, (pk t, pk r) ∈ liens b) (table b).
Definition successeurs (b : Base) (t : Tache) : list Tache :=
  filter (λ r, (pk r, pk t) ∈ liens b) (table b).

(** [str.upper] on the ASCII letters: it is [str.upper] on a string in
    ASCII ([est_ascii]).  A statement that names the code it gives assumes
    such a string. *)
Definition upper_ascii (a : ascii) : ascii :=
  let n := nat_of_ascii a in
  if (Nat.leb 97 n && Nat.leb n 122)%bool then ascii_of_nat (n - 32) else a.
Fixpoint upper (s : string) : string :=
  match s with
  | EmptyString => EmptyString
  | String a s' => String (upper_ascii a) (upper s')
  end.

(** ** Exceptions and the state monad *)

Inductive exn :=
  | ValueError (msg : string)
  | KeyError (cle : string)
  | TypeError
  | ValidationError (msg : string).

(** Outcome of a computation over a state [St]: a value, a raised exception
    (both with the state reached), or [Div] when the bound on a loop or on
    the recursion depth is exhausted. *)
Inductive res (St A : Type) :=
  | Val (a : A) (s : St)
  | Exc (e : exn) (s : St)
  | Div.
Arguments Val {St A} a s.
Arguments Exc {St A} e s.
Arguments Div {St A}.

Definition M (St A : Type) : Type := St → res St A.

Definition ret {St A} (a : A) : M St A := λ s, Val a s.
Definition bind {St A B} (m : M St A) (f : A → M St B) : M St B :=
  λ s, match m s with
       | Val a s' => f a s'
       | Exc e s' => Exc e s'
       | Div => Div
       end.
Definition raise {St A} (e : exn) : M St A := λ s, Exc e s.
Definition get {St} : M St St := λ s, Val s s.
Definition modify {St} (f : St → St) : M St unit := λ s, Val tt (f s).

Declare Scope monade_scope.
Delimit Scope monade_scope with monade.
Notation "x <- m ;; f" := (bind m (λ x, f))
  (at level 100, m at next level, right associativity) : monade_scope.
Notation "m ;;; f" := (bind m (λ _, f))
  (at level 100, right associativity) : monade_scope.
Local Open Scope monade_scope.

(** [for x in l: corps(x)] *)
Fixpoint for_ {St X} (l : list X) (corps : X → M St unit) : M St unit :=
  match l with
  | [] => ret tt
  | x :: l' => corps x ;;; for_ l' corps
  end.

(** [while cond: corps], at most [fuel] iterations. *)
Fixpoint while_ {St} (fuel : nat) (cond : St → bool) (corps : M St unit)
  : M St unit :=
  λ s, if cond s then
         match fuel with
         | O => Div
         | S fuel' => (corps ;;; while_ fuel' cond corps) s
         end
       else Val tt s.

(** [d[k]] on a [dict]: [KeyError] when the key is missing. *)
Definition lire {St V} (d : gmap string V) (k : string) : M St V :=
  match d !! k with
  | Some v => ret v
  | None => raise (KeyError k)
  end.

(** [max(...)] and [min(...)] of a sequence of integers: [ValueError] on an
    empty sequence. *)
Definition py_max {St} (l : list Z) : M St Z :=
  match l with
  | [] => raise (ValueError "max() arg is an empty sequence")
  | x :: l' => ret (foldl Z.max x l')
  end.
Definition py_min {St} (l : list Z) : M St Z :=
  match l with
  | [] => raise (ValueError "min() arg is an empty sequence")
  | x :: l' => ret (foldl Z.min x l')
  end.

(** [[d[x] for x in l]], evaluated left to right. *)
Fixpoint lire_tous {St} (d : gmap string Z) (l : list string) : M St (list Z) :=
  match l with
  | [] => ret []
  | k :: l' => v <- lire d k ;; vs <- lire_tous d l' ;; ret (v :: vs)
  end.

(** ** The calculator ([pert/pert_calculator.py]) *)

(** The attributes set by [PertCalculator.__init__]. *)
Record PertCalculator := mkPert {
  taches : list Tache;
  taches_dict : gmap string Tache;
  dates_debut_tot : gmap string Z;
  dates_fin_tot : gmap string Z;
  dates_debut_tard : gmap string Z;
  dates_fin_tard : gmap string Z
}.

(** [{t.code: t for t in self.taches}]: a later task replaces an earlier one
    of the same code.  The entries are only read for [duree] and for the
    relation managers, which no method assigns, so the dictionary holds the
    rows by value. *)
Definition __init__ (ts : list Tache) : PertCalculator :=
  mkPert ts (foldl (λ d t, <[code t := t]> d) ∅ ts) ∅ ∅ ∅ ∅.

(** The state the methods run in: the calculator object and the database
    that the relation managers read and [save] writes. *)
Record Etat := mkEtat {
  self : PertCalculator;
  base : Base
}.

Definition sur_self (f : PertCalculator → PertCalculator) (e : Etat) : Etat :=
  mkEtat (f (self e)) (base e).
Definition sur_base (f : Base → Base) (e : Etat) : Etat :=
  mkEtat (self e) (f (base e)).

Definition sur_taches (f : list Tache → list Tache) (p : PertCalculator) :=
  mkPert (f (taches p)) (taches_dict p) (dates_debut_tot p) (dates_fin_tot p)
         (dates_debut_tard p) (dates_fin_tard p).
Definition sur_debut_tot (f : gmap string Z → gmap string Z) (p : PertCalculator) :=
  mkPert (taches p) (taches_dict p) (f (dates_debut_tot p)) (dates_fin_tot p)
         (dates_debut_tard p) (dates_fin_tard p).
Definition sur_fin_tot (f : gmap string Z → gmap string Z) (p : PertCalculator) :=
  mkPert (taches p) (taches_dict p) (dates_debut_tot p) (f (dates_fin_tot p))
         (dates_debut_tard p) (dates_fin_tard p).
Definition sur_debut_tard (f : gmap string Z → gmap string Z) (p : PertCalculator) :=
  mkPert (taches p) (taches_dict p) (dates_debut_tot p) (dates_fin_tot p)
         (f (dates_debut_tard p)) (dates_fin_tard p).
Definition sur_fin_tard (f : gmap string Z → gmap string Z) (p : PertCalculator) :=
  mkPert (taches p) (taches_dict p) (dates_debut_tot p) (dates_fin_tot p)
         (dates_debut_tard p) (f (dates_fin_tard p)).

(** [self.dates_xxx[k] = v] and [self.taches[i].champ = v]. *)
Definition pose_debut_tot (k : string) (v : Z) : M Etat unit :=
  modify (sur_self (sur_debut_tot (insert k v))).
Definition pose_fin_tot (k : string) (v : Z) : M Etat unit :=
  modify (sur_self (sur_fin_tot (insert k v))).
Definition pose_debut_tard (k : string) (v : Z) : M Etat unit :=
  modify (sur_self (sur_debut_tard (insert k v))).
Definition pose_fin_tard (k : string) (v : Z) : M Etat unit :=
  modify (sur_self (sur_fin_tard (insert k v))).
Definition modifier_tache (i : nat) (f : Tache → Tache) : M Etat unit :=
  modify (sur_self (sur_taches (alter f i))).

(** [for tache in self.taches: corps]: the loop variable is the [i]-th
    object of the list; [corps] reads it again whenever the source reads an
    attribute after assigning one. *)
Definition pour_chaque_tache (corps : nat → Tache → M Etat unit) : M Etat unit :=
  e0 <- get ;;
  for_ (seq 0 (length (taches (self e0))))
       (λ i, e <- get ;;
             match taches (self e) !! i with
             | Some t => corps i t
             | None => ret tt
             end).

(** *** [_has_circular_dependency] *)

(** The inner loop [for dep in tache.dependances.all()] of [dfs], with its
    two early [return True]; [appel] is the recursive call.  The state is the
    pair [(visited, rec_stack)] of the enclosing method. *)
Fixpoint dfs_boucle (appel : string → M (gset string * gset string) bool)
    (deps : list Tache) : M (gset string * gset string) bool :=
  match deps with
  | [] => ret false
  | dep :: deps' =>
      vr <- get ;;
      if decide (code dep ∉ vr.1) then
        b <- appel (code dep) ;;
        if b : bool then ret true else dfs_boucle appel deps'
      else if decide (code dep ∈ vr.2) then ret true
      else dfs_boucle appel deps'
  end.

(** [dfs(tache_code)]; [fuel] bounds the depth of the recursion. *)
Fixpoint dfs (e : Etat) (fuel : nat) (tache_code : string)
  : M (gset string * gset string) bool :=
  match fuel with
  | O => λ _, Div
  | S fuel' =>
      modify (λ vr, ({[tache_code]} ∪ vr.1, vr.2)) ;;;
      modify (λ vr, (vr.1, {[tache_code]} ∪ vr.2)) ;;;
      trouve <- match taches_dict (self e) !! tache_code with
                | Some tache =>
                    dfs_boucle (dfs e fuel') (dependances (base e) tache)
                | None => ret false
                end ;;
      if trouve : bool then ret true
      else
        vr <- get ;;
        if decide (tache_code ∈ vr.2) then
          modify (λ vr, (vr.1, vr.2 ∖ {[tache_code]})) ;;; ret false
        else raise (KeyError tache_code)
  end.

(** The outer loop [for tache in self.taches]. *)
Fixpoint circ_boucle (e : Etat) (fuel : nat) (ts : list Tache)
  : M (gset string * gset string) bool :=
  match ts with
  | [] => ret false
  | tache :: ts' =>
      vr <- get ;;
      if decide (code tache ∉ vr.1) then
        b <- dfs e fuel (code tache) ;;
        if b : bool then ret true else circ_boucle e fuel ts'
      else circ_boucle e fuel ts'
  end.

(** Run a computation on local variables [s0] and give back its result,
    leaving the state of the caller as it is. *)
Definition localement {St L A} (s0 : L) (m : M L A) : M St A :=
  λ s, match m s0 with
       | Val a _ => Val a s
       | Exc x _ => Exc x s
       | Div => Div
       end.

Definition _has_circular_dependency : M Etat bool :=
  e <- get ;;
  localement (∅, ∅) (circ_boucle e (S (length (taches (self e)))) (taches (self e))).

(** *** [_tri_topologique] *)

(** The local variables of [_tri_topologique]. *)
Record Kahn := mkKahn {
  in_degree : gmap string Z;
  queue : list string;
  ordre : list string
}.

(** Reading [in_degree[k]] on the [defaultdict(int)].  Every read of the
    source follows a write of the same key or concerns a key written by the
    first loop, so no read creates an entry. *)
Definition degre (d : gmap string Z) (k : string) : Z := default 0 (d !! k).

Definition sur_in_degree (f : gmap string Z → gmap string Z) (k : Kahn) : Kahn :=
  mkKahn (f (in_degree k)) (queue k) (ordre k).
Definition sur_queue (f : list string → list string) (k : Kahn) : Kahn :=
  mkKahn (in_degree k) (f (queue k)) (ordre k).
Definition sur_ordre (f : list string → list string) (k : Kahn) : Kahn :=
  mkKahn (in_degree k) (queue k) (f (ordre k)).

(** [in_degree[k] += n] *)
Definition ajoute (k : string) (n : Z) : M Kahn unit :=
  modify (sur_in_degree (λ d, <[k := degre d k + n]> d)).

Definition tri_compte (e : Etat) : M Kahn unit :=
  for_ (taches (self e)) (λ tache,
    s <- get ;;
    (if decide (code tache ∉ dom (in_degree s))
     then modify (sur_in_degree (insert (code tache) 0)) else ret tt) ;;;
    for_ (dependances (base e) tache) (λ _, ajoute (code tache) 1)).

Definition tri_file (e : Etat) : M Kahn unit :=
  s <- get ;;
  modify (sur_queue (λ _,
    code <$> filter (λ t, degre (in_degree s) (code t) = 0) (taches (self e)))).

Definition tri_etape (e : Etat) : M Kahn unit :=
  s <- get ;;
  match queue s with
  | [] => ret tt
  | tache_code :: reste =>
      modify (sur_queue (λ _, reste)) ;;;
      modify (sur_ordre (λ o, o ++ [tache_code])) ;;;
      tache <- lire (taches_dict (self e)) tache_code ;;
      for_ (successeurs (base e) tache) (λ successeur,
        ajoute (code successeur) (-1) ;;;
        s' <- get ;;
        if decide (degre (in_degree s') (code successeur) = 0)
        then modify (sur_queue (λ q, q ++ [code successeur]))
        else ret tt)
  end.

(** The [while queue] loop pops one code per iteration.  A code enters the
    queue at the start or when its counter reaches 0, and a counter only
    decreases, so [length taches + length table] iterations are the most
    there can be. *)
Definition _tri_topologique : M Etat (list string) :=
  e <- get ;;
  localement (mkKahn ∅ [] [])
    (tri_compte e ;;;
     tri_file e ;;;
     while_ (length (taches (self e)) + length (table (base e)))
            (λ s, bool_decide (queue s ≠ [])) (tri_etape e) ;;;
     s <- get ;; ret (ordre s)).

(** *** [_calculer_dates_tot] *)

Definition tot_etape (tache_code : string) : M Etat unit :=
  e <- get ;;
  tache <- lire (taches_dict (self e)) tache_code ;;
  let deps := dependances (base e) tache in
  (match deps with
   | [] => pose_debut_tot tache_code 0
   | _ :: _ =>
       fins <- lire_tous (dates_fin_tot (self e)) (code <$> deps) ;;
       m <- py_max fins ;;
       pose_debut_tot tache_code m
   end) ;;;
  e' <- get ;;
  debut <- lire (dates_debut_tot (self e')) tache_code ;;
  pose_fin_tot tache_code (debut + duree tache).

Definition _calculer_dates_tot : M Etat unit :=
  e0 <- get ;;
  for_ (taches (self e0)) (λ t,
    pose_debut_tot (code t) 0 ;;; pose_fin_tot (code t) 0) ;;;
  ordre <- _tri_topologique ;;
  for_ ordre tot_etape.

(** *** [_calculer_dates_tard] *)

(** [if not tache.successeurs.exists()] for the final tasks. *)
Definition tard_finale (tache : Tache) : M Etat unit :=
  e <- get ;;
  match successeurs (base e) tache with
  | [] =>
      fin <- lire (dates_fin_tot (self e)) (code tache) ;;
      pose_fin_tard (code tache) fin ;;;
      e' <- get ;;
      fin_tard <- lire (dates_fin_tard (self e')) (code tache) ;;
      pose_debut_tard (code tache) (fin_tard - duree tache)
  | _ :: _ => ret tt
  end.

Definition tard_etape (tache_code : string) : M Etat unit :=
  e <- get ;;
  tache <- lire (taches_dict (self e)) tache_code ;;
  let succs := successeurs (base e) tache in
  (match succs with
   | [] => ret tt
   | _ :: _ =>
       debuts <- lire_tous (dates_debut_tard (self e)) (code <$> succs) ;;
       m <- py_min debuts ;;
       pose_fin_tard tache_code m
   end) ;;;
  e' <- get ;;
  fin_tard <- lire (dates_fin_tard (self e')) tache_code ;;
  pose_debut_tard tache_code (fin_tard - duree tache).

(** [max(self.dates_fin_tot.values())] does not depend on the order in which
    the values are listed. *)
Definition _calculer_dates_tard : M Etat unit :=
  e0 <- get ;;
  date_fin_projet <- py_max (map_to_list (dates_fin_tot (self e0))).*2 ;;
  for_ (taches (self e0)) (λ t,
    pose_fin_tard (code t) date_fin_projet ;;;
    pose_debut_tard (code t) date_fin_projet) ;;;
  for_ (taches (self e0)) tard_finale ;;;
  ordre <- _tri_topologique ;;
  for_ (reverse ordre) tard_etape.

(** *** [_calculer_marges] *)

Definition marges_etape (i : nat) (tache : Tache) : M Etat unit :=
  e <- get ;;
  debut_tard <- lire (dates_debut_tard (self e)) (code tache) ;;
  debut_tot <- lire (dates_debut_tot (self e)) (code tache) ;;
  modifier_tache i (avec_marge_totale (Some (debut_tard - debut_tot))) ;;;
  let succs := successeurs (base e) tache in
  match succs with
  | _ :: _ =>
      debuts <- lire_tous (dates_debut_tot (self e)) (code <$> succs) ;;
      min_debut_successeurs <- py_min debuts ;;
      fin_tot <- lire (dates_fin_tot (self e)) (code tache) ;;
      modifier_tache i (avec_marge_libre (Some (min_debut_successeurs - fin_tot)))
  | [] =>
      e' <- get ;;
      match taches (self e') !! i with
      | Some tache' => modifier_tache i (avec_marge_libre (marge_totale tache'))
      | None => ret tt
      end
  end.

Definition _calculer_marges : M Etat unit := pour_chaque_tache marges_etape.

(** *** [Tache.save] and [_sauvegarder_resultats] *)

(** [super().save()]: the row of the same key is replaced, or the object is
    inserted when no row has its key.  The errors a write can raise in the
    database (integrity constraints, range of the integers) are not part of
    the model, in which [save] never raises: the statements on what
    [calculer] leaves take its success as a hypothesis, and the statements
    on what precedes the saving are about [avant_sauvegarde]. *)
Definition ecrire_ligne (t : Tache) (b : Base) : Base :=
  if decide (pk t ∈ pk <$> table b)
  then mkBase ((λ r, if decide (pk r = pk t) then t else r) <$> table b) (liens b)
  else mkBase (table b ++ [t]) (liens b).

Definition save (i : nat) : M Etat unit :=
  modifier_tache i (λ t, avec_code (upper (code t)) t) ;;;
  e <- get ;;
  match taches (self e) !! i with
  | Some t => modify (sur_base (ecrire_ligne t))
  | None => ret tt
  end.

Definition sauvegarder_etape (i : nat) (tache : Tache) : M Etat unit :=
  e <- get ;;
  v1 <- lire (dates_debut_tot (self e)) (code tache) ;;
  modifier_tache i (avec_date_debut_tot (Some v1)) ;;;
  v2 <- lire (dates_fin_tot (self e)) (code tache) ;;
  modifier_tache i (avec_date_fin_tot (Some v2)) ;;;
  v3 <- lire (dates_debut_tard (self e)) (code tache) ;;
  modifier_tache i (avec_date_debut_tard (Some v3)) ;;;
  v4 <- lire (dates_fin_tard (self e)) (code tache) ;;
  modifier_tache i (avec_date_fin_tard (Some v4)) ;;;
  save i.

Definition _sauvegarder_resultats : M Etat unit :=
  pour_chaque_tache sauvegarder_etape.

(** *** [calculer] *)

(** [try: ... except Exception as e: print(...); return False].  The message
    printed on the console is not modelled. *)
Definition essayer {St} (m : M St bool) : M St bool :=
  λ s, match m s with
       | Val b s' => Val b s'
       | Exc _ s' => Val false s'
       | Div => Div
       end.

Definition calculer : M Etat bool :=
  e <- get ;;
  match taches (self e) with
  | [] => ret true
  | _ :: _ =>
      essayer
        (circulaire <- _has_circular_dependency ;;
         (if circulaire : bool
          then raise (ValueError "Dependances circulaires detectees dans le projet !")
          else ret tt) ;;;
         _calculer_dates_tot ;;;
         _calculer_dates_tard ;;;
         _calculer_marges ;;;
         _sauvegarder_resultats ;;;
         ret true)
  end.

(** *** [get_chemin_critique] and [Tache.est_critique] *)

Definition est_critique (t : Tache) : bool :=
  match marge_totale t with
  | Some m => bool_decide (m = 0)
  | None => false
  end.

(** [sorted(l, key=cle)] on integer keys: a stable sort. *)
Fixpoint inserer (cle : Tache → Z) (x : Tache) (l : list Tache) : list Tache :=
  match l with
  | [] => [x]
  | y :: l' => if decide (cle x ≤ cle y) then x :: y :: l'
               else y :: inserer cle x l'
  end.
Fixpoint tri_stable (cle : Tache → Z) (l : list Tache) : list Tache :=
  match l with
  | [] => []
  | x :: l' => inserer cle x (tri_stable cle l')
  end.

(** With two elements or more every key is compared with another one, and
    comparing [None] raises [TypeError]. *)
Definition sorted_date_debut_tot {St} (l : list Tache) : M St (list Tache) :=
  match l with
  | [] | [_] => ret l
  | _ =>
      if decide (Forall (λ t, is_Some (date_debut_tot t)) l)
      then ret (tri_stable (λ t, default 0 (date_debut_tot t)) l)
      else raise TypeError
  end.

Definition get_chemin_critique : M Etat (list Tache) :=
  e <- get ;;
  let taches_critiques :=
    filter (λ t, marge_totale t = Some 0) (taches (self e)) in
  sorted_date_debut_tot taches_critiques.

(** *** [Tache.clean] *)

Definition clean : M Tache unit :=
  t <- get ;;
  (if decide (code t ≠ "") then modify (avec_code (upper (code t))) else ret tt) ;;;
  if decide (duree t ≠ 0 ∧ duree t ≤ 0)
  then raise (ValidationError "La duree doit etre superieure a 0")
  else ret tt.

(** ** Examples from the specification *)

Definition tache (p : nat) (c : string) (d : Z) : Tache :=
  mkTache p c d None None None None None None.

(** [PertCalculator(taches).calculer()] on the database [b]. *)
Definition lancer (b : Base) (ts : list Tache) : res Etat bool :=
  calculer (mkEtat (__init__ ts) b).

(** The dates and margins of a task, for display. *)
Definition dates (t : Tache) :=
  (code t, date_debut_tot t, date_fin_tot t, date_debut_tard t,
   date_fin_tard t, marge_totale t, marge_libre t).

(** The linear chain [A], [B], [C] of durations 3, 2 and 4. *)
Definition chaine : Base :=
  mkBase [tache 1 "A" 3; tache 2 "B" 2; tache 3 "C" 4] [(2, 1); (3, 2)]%nat.
(** [A] and [B] are independent and both feed [D]. *)
Definition parallele : Base :=
  mkBase [tache 1 "A" 5; tache 2 "B" 3; tache 3 "D" 2] [(3, 1); (3, 2)]%nat.
(** [A] depends on [B] and [B] on [A]. *)
Definition cycle2 : Base :=
  mkBase [tache 1 "A" 5; tache 2 "B" 3] [(1, 2); (2, 1)]%nat.
(** [A] depends on [X], a row that is not handed to the calculator. *)
Definition externe : Base :=
  mkBase [tache 1 "A" 3; tache 2 "X" 1] [(1, 2)]%nat.
(** The chain [A], [B] and an independent task [C] that finishes earlier. *)
Definition puits : Base :=
  mkBase [tache 1 "A" 5; tache 2 "B" 3; tache 3 "C" 1] [(2, 1)]%nat.

(** ** The dependency graph *)

(** [depend b ts x y]: both tasks are in the collection and [y] is one of
    the [dependances] of [x]. *)
Definition depend (b : Base) (ts : list Tache) (x y : Tache) : Prop :=
  x ∈ ts ∧ y ∈ ts ∧ y ∈ dependances b x.

Definition cyclique (b : Base) (ts : list Tache) : Prop :=
  ∃ t, tc (depend b ts) t t.
Definition acyclique (b : Base) (ts : list Tache) : Prop :=
  ∀ t, ¬ tc (depend b ts) t t.

(** A collection is well formed on a database when keys identify rows, the
    tasks are rows of the table, codes identify the tasks of the collection,
    and the collection holds every dependency and every successor of its
    tasks. *)
Record bien_forme (b : Base) (ts : list Tache) : Prop := {
  bf_pk : NoDup (pk <$> table b);
  bf_table : ∀ t, t ∈ ts → t ∈ table b;
  bf_code : NoDup (code <$> ts);
  bf_deps : ∀ t d, t ∈ ts → d ∈ dependances b t → d ∈ ts;
  bf_succs : ∀ t s, t ∈ ts → s ∈ successeurs b t → s ∈ ts
}.

(** The graph the cycle detector walks: from a code to the codes of the
    dependencies of the task the dictionary holds for it. *)
Definition arc (e : Etat) (c d : string) : Prop :=
  ∃ t, taches_dict (self e) !! c = Some t ∧ d ∈ code <$> dependances (base e) t.

(** A state of the calculator built from the collection [ts] over the
    database [b]: the attributes [__init__] sets are those of [ts], whatever
    the dictionaries of dates hold. *)
Definition coherent (b : Base) (ts : list Tache) (e : Etat) : Prop :=
  taches (self e) = ts ∧
  taches_dict (self e) = taches_dict (__init__ ts) ∧
  base e = b.

(** Number of dependencies of [t] whose code is not yet in [o]. *)
Definition reste (b : Base) (o : list string) (t : Tache) : nat :=
  length (filter (λ d, code d ∉ o) (dependances b t)).

(** [o] lists codes in an order compatible with the dependencies: the codes
    of the dependencies of a listed task all come before its own. *)
Definition topo (b : Base) (ts : list Tache) (o : list string) : Prop :=
  ∀ pre c post t d, o = pre ++ c :: post → t ∈ ts → code t = c →
    d ∈ dependances b t → code d ∈ pre.

(** The invariant of the [while queue] loop of [_tri_topologique]. *)
Record kahn_inv (b : Base) (ts : list Tache) (s : Kahn) : Prop := {
  ki_nodup : NoDup (ordre s ++ queue s);
  ki_codes : ∀ c, c ∈ ordre s ++ queue s → c ∈ code <$> ts;
  ki_degre : ∀ t, t ∈ ts →
    in_degree s !! code t = Some (Z.of_nat (reste b (ordre s) t));
  ki_file : ∀ t, t ∈ ts →
    (code t ∈ ordre s ++ queue s ↔ reste b (ordre s) t = 0%nat);
  ki_topo : topo b ts (ordre s)
}.

(** The equations of the forward pass, on the dictionaries: [es] is 0 for a
    task without dependencies and otherwise the greatest of the earliest
    finishes [ef] of its dependencies. *)
Definition eq_tot (b : Base) (ef : gmap string Z) (t : Tache) (es : Z) : Prop :=
  match dependances b t with
  | [] => es = 0
  | _ :: _ =>
      (∀ d, d ∈ dependances b t → ∃ v, ef !! code d = Some v ∧ v ≤ es) ∧
      (∃ d, d ∈ dependances b t ∧ ef !! code d = Some es)
  end.

Definition tot_ok (b : Base) (es ef : gmap string Z) (t : Tache) : Prop :=
  ∃ v, es !! code t = Some v ∧ ef !! code t = Some (v + duree t) ∧
       eq_tot b ef t v.

(** The equations of the backward pass: [lf] is the earliest finish of a
    task without successors and otherwise the least of the latest starts
    [ls] of its successors. *)
Definition eq_tard (b : Base) (ef ls : gmap string Z) (t : Tache) (lf : Z)
  : Prop :=
  match successeurs b t with
  | [] => ef !! code t = Some lf
  | _ :: _ =>
      (∀ s, s ∈ successeurs b t → ∃ v, ls !! code s = Some v ∧ lf ≤ v) ∧
      (∃ s, s ∈ successeurs b t ∧ ls !! code s = Some lf)
  end.

Definition tard_ok (b : Base) (ef ls lf : gmap string Z) (t : Tache) : Prop :=
  ∃ v, lf !! code t = Some v ∧ ls !! code t = Some (v - duree t) ∧
       eq_tard b ef ls t v.

(** The equation of the free slack [ml] of a task of total slack [mt], on
    the dictionaries of the forward pass. *)
Definition eq_libre (b : Base) (es ef : gmap string Z) (t : Tache) (mt ml : Z)
  : Prop :=
  match successeurs b t with
  | [] => ml = mt
  | _ :: _ =>
      ∃ fin m, ef !! code t = Some fin ∧ ml = m - fin ∧
        (∀ s, s ∈ successeurs b t → ∃ v, es !! code s = Some v ∧ m ≤ v) ∧
        (∃ s, s ∈ successeurs b t ∧ es !! code s = Some m)
  end.

(** The object a task has become once the margins are assigned and the
    results saved. *)
Definition resultat_tache (es ef ls lf ml : Z) (t : Tache) : Tache :=
  mkTache (pk t) (upper (code t)) (duree t) (Some es) (Some ef) (Some ls)
          (Some lf) (Some (ls - es)) (Some ml).

(** The direct dependencies and the direct successors of [t] among the
    tasks [ts]: those the link table relates to [t]. *)
Definition dependances_dans (b : Base) (ts : list Tache) (t : Tache)
  : list Tache :=
  filter (λ d, (pk t, pk d) ∈ liens b) ts.
Definition successeurs_dans (b : Base) (ts : list Tache) (t : Tache)
  : list Tache :=
  filter (λ s, (pk s, pk t) ∈ liens b) ts.

(** ** The properties of a schedule

    They are stated on the tasks [ts'] a run leaves in the calculator, with
    the direct dependencies and successors taken among these tasks. *)

(** Forward pass: the earliest start of [t] is 0 without dependency, and
    otherwise the greatest earliest finish of its direct dependencies; its
    earliest finish is its earliest start plus its duration. *)
Definition passe_avant_ok (b : Base) (ts' : list Tache) (t : Tache) : Prop :=
  ∃ es, date_debut_tot t = Some es ∧ date_fin_tot t = Some (es + duree t) ∧
    match dependances_dans b ts' t with
    | [] => es = 0
    | _ :: _ =>
        (∀ d, d ∈ dependances_dans b ts' t →
           ∃ v, date_fin_tot d = Some v ∧ v ≤ es) ∧
        (∃ d, d ∈ dependances_dans b ts' t ∧ date_fin_tot d = Some es)
    end.

(** Backward pass: the latest finish of [t] is its own earliest finish
    without successor, and otherwise the least latest start of its direct
    successors; its latest start is its latest finish minus its duration. *)
Definition passe_arriere_ok (b : Base) (ts' : list Tache) (t : Tache) : Prop :=
  ∃ lf, date_fin_tard t = Some lf ∧ date_debut_tard t = Some (lf - duree t) ∧
    match successeurs_dans b ts' t with
    | [] => date_fin_tot t = Some lf
    | _ :: _ =>
        (∀ s, s ∈ successeurs_dans b ts' t →
           ∃ v, date_debut_tard s = Some v ∧ lf ≤ v) ∧
        (∃ s, s ∈ successeurs_dans b ts' t ∧ date_debut_tard s = Some lf)
    end.

(** Total slack: latest start minus earliest start, and not negative. *)
Definition marge_totale_ok (t : Tache) : Prop :=
  ∃ es ls, date_debut_tot t = Some es ∧ date_debut_tard t = Some ls ∧
           marge_totale t = Some (ls - es) ∧ 0 ≤ ls - es.


(** [t1] starts no later than [t2], at the earliest. *)
Definition debut_avant (t1 t2 : Tache) : Prop :=
  ∃ v1 v2, date_debut_tot t1 = Some v1 ∧ date_debut_tot t2 = Some v2 ∧ v1 ≤ v2.

(** [bien_forme] as a check that can be run on a concrete database. *)
Definition bien_forme_b (b : Base) (ts : list Tache) : bool :=
  bool_decide (NoDup (pk <$> table b)) &&
  bool_decide (Forall (λ t, t ∈ table b) ts) &&
  bool_decide (NoDup (code <$> ts)) &&
  bool_decide (Forall (λ t, Forall (λ d, d ∈ ts) (dependances b t)) ts) &&
  bool_decide (Forall (λ t, Forall (λ s, s ∈ ts) (successeurs b t)) ts).

(** The state a run ends in. *)
Definition etat_final (r : res Etat bool) (e0 : Etat) : Etat :=
  match r with
  | Val _ e => e
  | Exc _ e => e
  | Div => e0
  end.

(** The state the run on [parallele] ends in, and the three tasks it leaves:
    [A] and [D] are critical, [B] has a slack of 2. *)
Definition final_parallele : Etat :=
  etat_final (lancer parallele (table parallele)) (mkEtat (__init__ []) parallele).
Definition resultat_A : Tache :=
  mkTache 1 "A" 5 (Some 0) (Some 5) (Some 0) (Some 5) (Some 0) (Some 0).
Definition resultat_B : Tache :=
  mkTache 2 "B" 3 (Some 0) (Some 3) (Some 2) (Some 5) (Some 2) (Some 2).
Definition resultat_D : Tache :=
  mkTache 3 "D" 2 (Some 5) (Some 7) (Some 5) (Some 7) (Some 0) (Some 0).

(** A task of negative duration, alone in its database. *)
Definition tache_negative : Tache := tache 1 "A" (-3).
Definition base_negative : Base := mkBase [tache_negative] [].

(** What a call [dfs(c)] started with the sets [V] (visited) and [S]
    (recursion stack) establishes: [True] only in the presence of a cycle;
    [False] puts the stack back, only adds to [V], and leaves every code of
    [V] outside the stack free of infinite descending chains. *)
Definition dfs_post (e : Etat) (c : string) (V S : gset string)
    (r : res (gset string * gset string) bool) : Prop :=
  match r with
  | Val true _ => ∃ x, tc (arc e) x x
  | Val false vr =>
      vr.2 = S ∧ V ⊆ vr.1 ∧ c ∈ vr.1 ∧
      ∀ f, f ∈ vr.1 → f ∉ vr.2 → Acc (flip (arc e)) f
  | Exc _ _ => False
  | Div => False
  end.

(** Evaluation of a closed goal, and of a decidable one. *)
Ltac par_calcul := vm_compute; reflexivity.
Ltac appartient := apply (bool_decide_unpack _); vm_compute; exact I.

(** ** Partial correctness

    [triplet P m Q X]: started in a state of [P], the computation [m], when
    it ends, ends with a result and a state of [Q], or raises in a state of
    [X]. *)
Definition triplet {St A} (P : St → Prop) (m : M St A)
    (Q : A → St → Prop) (X : St → Prop) : Prop :=
  ∀ s, P s → match m s with
             | Val a s' => Q a s'
             | Exc _ s' => X s'
             | Div => True
             end.

(** A computation that leaves the state as it is, also when it raises. *)
Definition pur {St A} (m : M St A) : Prop :=
  ∀ s, match m s with
       | Val _ s' => s' = s
       | Exc _ s' => s' = s
       | Div => True
       end.

(** A property of the state kept by the six assignments of the methods that
    come before [_sauvegarder_resultats]: to an entry of one of the four
    dictionaries of dates and to one of the two margins of a task. *)
Record clos (J : Etat → Prop) : Prop := {
  clos_debut_tot : ∀ k v s, J s → J (sur_self (sur_debut_tot (insert k v)) s);
  clos_fin_tot : ∀ k v s, J s → J (sur_self (sur_fin_tot (insert k v)) s);
  clos_debut_tard : ∀ k v s, J s → J (sur_self (sur_debut_tard (insert k v)) s);
  clos_fin_tard : ∀ k v s, J s → J (sur_self (sur_fin_tard (insert k v)) s);
  clos_marge_totale : ∀ i v s,
    J s → J (sur_self (sur_taches (alter (avec_marge_totale v) i)) s);
  clos_marge_libre : ∀ i v s,
    J s → J (sur_self (sur_taches (alter (avec_marge_libre v) i)) s)
}.

(** [t'] is [t] up to the two margins. *)
Definition memes_dates (t t' : Tache) : Prop :=
  pk t' = pk t ∧ code t' = code t ∧ duree t' = duree t ∧
  date_debut_tot t' = date_debut_tot t ∧ date_fin_tot t' = date_fin_tot t ∧
  date_debut_tard t' = date_debut_tard t ∧ date_fin_tard t' = date_fin_tard t.

(** The state [s] has the database and the dictionary of tasks of [e], and
    the tasks of [e] up to their margins. *)
Definition fige (e s : Etat) : Prop :=
  base s = base e ∧ taches_dict (self s) = taches_dict (self e) ∧
  Forall2 memes_dates (taches (self e)) (taches (self s)).

(** The dictionaries of earliest, and of latest, dates have the codes [cs]. *)
Definition couvre_tot (cs : list string) (s : Etat) : Prop :=
  ∀ c, c ∈ cs → is_Some (dates_debut_tot (self s) !! c) ∧
                is_Some (dates_fin_tot (self s) !! c).
Definition couvre_tard (cs : list string) (s : Etat) : Prop :=
  ∀ c, c ∈ cs → is_Some (dates_debut_tard (self s) !! c) ∧
                is_Some (dates_fin_tard (self s) !! c).

(** ** The project ([pert/models.py])

    The properties of [Projet] are functions of [self.taches.all()], the
    rows of the project; the order of these rows plays no part in them. *)

(** [Projet.taches_critiques]: [self.taches.filter(marge_totale=0)]. *)
Definition taches_critiques (taches : list Tache) : list Tache :=
  filter (λ t, marge_totale t = Some 0) taches.

(** [Projet.duree_totale] *)
Definition duree_totale (taches : list Tache) : Z :=
  match taches with
  | [] => 0
  | _ :: _ =>
      let dates_fin := omap date_fin_tot taches in
      match dates_fin with
      | [] => 0
      | x :: l => foldl Z.max x l
      end
  end.

(** [Projet.marge_max] *)
Definition marge_max (taches : list Tache) : Z :=
  match taches with
  | [] => 0
  | _ :: _ =>
      let marges := omap marge_totale taches in
      match marges with
      | [] => 0
      | x :: l => foldl Z.max x l
      end
  end.

(** ** The form ([pert/forms.py]) *)

(** [TacheForm.clean_duree], on the value [cleaned_data.get('duree')]. *)
Definition clean_duree (duree : option Z) : exn + option Z :=
  match duree with
  | Some d =>
      if decide (d ≠ 0 ∧ d ≤ 0)
      then inl (ValidationError "La duree doit etre superieure a 0")
      else inr duree
  | None => inr duree
  end.

(** ** Termination

    [sur m]: the computation [m] never exhausts the bound of a loop or of a
    recursion, whatever the state it starts in. *)
Definition sur {St A} (m : M St A) : Prop := ∀ s, m s ≠ Div.

(** The counters of [_tri_topologique] that are still positive, and the
    quantity that every iteration of its [while] loop decreases: the length
    of the queue plus the number of positive counters. *)
Definition positifs (d : gmap string Z) : gmap string Z :=
  filter (λ kv, 0 < kv.2) d.
Definition mesure (s : Kahn) : nat :=
  (length (queue s) + size (positifs (in_degree s)))%nat.

(** ** Collections that are not well formed *)

(** [A] depends on [X], a row outside the collection [[A; B]], and [B]
    depends on [A]. *)
Definition externe_chaine : Base :=
  mkBase [tache 1 "A" 3; tache 2 "B" 2; tache 3 "X" 1] [(1, 3); (2, 1)]%nat.

(** ** The body of [calculer] before the results are saved

    The statements of the [try] block of [calculer] that come before
    [self._sauvegarder_resultats()]: the cycle check and the three methods
    that compute. *)
Definition avant_sauvegarde : M Etat unit :=
  circulaire <- _has_circular_dependency ;;
  (if circulaire : bool
   then raise (ValueError "Dependances circulaires detectees dans le projet !")
   else ret tt) ;;;
  _calculer_dates_tot ;;;
  _calculer_dates_tard ;;;
  _calculer_marges.

(** ** The rows of a project

    The foreign key [Tache.projet] as the column it is in the database: the
    key of the project of a row, by the key of the row.  No method of the
    calculator assigns it.  [taches_du_projet projet_id p b] is
    [self.taches.all()] for the project of key [p], up to the order of the
    rows. *)
Definition taches_du_projet (projet_id : gmap nat nat) (p : nat) (b : Base)
  : list Tache :=
  filter (λ r, projet_id !! pk r = Some p) (table b).

(** The tasks of [parallele] are project 1; the row [Z] is project 2. *)
Definition deux_projets : Base :=
  mkBase [tache 1 "A" 5; tache 2 "B" 3; tache 3 "D" 2; tache 4 "Z" 7]
         [(3, 1); (3, 2)]%nat.
Definition colonne_projet : gmap nat nat :=
  {[ 1%nat := 1%nat; 2%nat := 1%nat; 3%nat := 1%nat; 4%nat := 2%nat ]}.

(** ** Codes in ASCII

    On a string whose bytes are all below 128, [upper] is [str.upper]. *)
Fixpoint est_ascii (s : string) : bool :=
  match s with
  | EmptyString => true
  | String a s' => Nat.ltb (nat_of_ascii a) 128 && est_ascii s'
  end.

(** The state after [calculer] on the rows of project 1 of
    [deux_projets]. *)
Definition final_deux_projets : Etat :=
  etat_final (lancer deux_projets (taches_du_projet colonne_projet 1 deux_projets))
             (mkEtat (__init__ []) deux_projets).

(** ** Reasoning rules for the monad *)

Lemma for_inv {St X} (I : list X → St → Prop) (l : list X)
    (corps : X → M St unit) (s0 : St) :
  I [] s0 →
  (∀ pre x post s, l = pre ++ x :: post → I pre s →
     ∃ s', corps x s = Val tt s' ∧ I (pre ++ [x]) s') →
  ∃ s', for_ l corps s0 = Val tt s' ∧ I l s'.
Proof.
  intros H0 Hstep.
  assert (G : ∀ post pre s, l = pre ++ post → I pre s →
            ∃ s', for_ post corps s = Val tt s' ∧ I l s').
  { induction post as [|x post IH]; intros pre s Hl HI.
    - exists s. rewrite app_nil_r in Hl. subst. done.
    - destruct (Hstep pre x post s Hl HI) as (s1 & Hc & HI1).
      destruct (IH (pre ++ [x]) s1) as (s2 & Hf & HI2); [|done|].
      { by rewrite <- app_assoc. }
      exists s2. split; [|done]. simpl. unfold bind. by rewrite Hc. }
  by apply (G l [] s0).
Qed.

Lemma while_inv {St} (I : St → Prop) (mes : St → nat) (fuel : nat)
    (cond : St → bool) (corps : M St unit) (s0 : St) :
  I s0 → (mes s0 ≤ fuel)%nat →
  (∀ s, I s → cond s = true →
     ∃ s', corps s = Val tt s' ∧ I s' ∧ (mes s' < mes s)%nat) →
  ∃ s', while_ fuel cond corps s0 = Val tt s' ∧ I s' ∧ cond s' = false.
Proof.
  intros H0 Hm Hstep. revert s0 H0 Hm.
  induction fuel as [|fuel IH]; intros s H0 Hm; simpl.
  - destruct (cond s) eqn:Hc.
    + destruct (Hstep s H0 Hc) as (s' & _ & _ & Hlt). lia.
    + by exists s.
  - destruct (cond s) eqn:Hc; [|by exists s].
    destruct (Hstep s H0 Hc) as (s' & Hb & HI & Hlt).
    destruct (IH s' HI) as (s2 & Hw & HI2 & Hc2); [lia|].
    exists s2. unfold bind. by rewrite Hb.
Qed.

(** ** The dictionary of tasks *)

Lemma dict_fold_lookup (ts : list Tache) (d0 : gmap string Tache) c t :
  foldl (λ d t, <[code t := t]> d) d0 ts !! c = Some t →
  (t ∈ ts ∧ code t = c) ∨ d0 !! c = Some t.
Proof.
  revert d0. induction ts as [|x ts IH]; intros d0 H; simpl in *; [by right|].
  destruct (IH _ H) as [[Hin Hc]|Hd].
  - left. split; [by right|done].
  - destruct (decide (code x = c)) as [<-|Hne].
    + rewrite lookup_insert_eq in Hd. injection Hd as <-. left. split; [left|done].
    + rewrite lookup_insert_ne in Hd by done. by right.
Qed.

Lemma dict_lookup_Some ts c t :
  taches_dict (__init__ ts) !! c = Some t → t ∈ ts ∧ code t = c.
Proof.
  intros H. apply dict_fold_lookup in H as [H|H]; [done|].
  by rewrite lookup_empty in H.
Qed.

Lemma dict_fold_NoDup (ts : list Tache) (d0 : gmap string Tache) t :
  NoDup (code <$> ts) → t ∈ ts →
  foldl (λ d t, <[code t := t]> d) d0 ts !! code t = Some t.
Proof.
  revert d0. induction ts as [|x ts IH]; intros d0 Hnd Hin; [by inversion Hin|].
  simpl in *. apply NoDup_cons in Hnd as [Hx Hnd].
  apply elem_of_cons in Hin as [->|Hin]; [|by apply IH].
  clear IH. revert d0. induction ts as [|y ts IH]; intros d0; simpl.
  - by rewrite lookup_insert_eq.
  - apply NoDup_cons in Hnd as [_ Hnd].
    simpl in Hx. apply not_elem_of_cons in Hx as [Hxy Hx].
    rewrite (insert_insert_ne d0) by done. by apply IH.
Qed.

Lemma dict_lookup_NoDup ts t :
  NoDup (code <$> ts) → t ∈ ts → taches_dict (__init__ ts) !! code t = Some t.
Proof. apply dict_fold_NoDup. Qed.

Lemma dict_lookup_None ts c :
  c ∉ code <$> ts → taches_dict (__init__ ts) !! c = None.
Proof.
  intros Hc. destruct (taches_dict (__init__ ts) !! c) as [t|] eqn:H; [|done].
  apply dict_lookup_Some in H as [Hin <-]. destruct Hc.
  by apply list_elem_of_fmap_2.
Qed.

(** ** The cycle detector *)

Lemma dfs_boucle_spec e appel c (S1 V0 : gset string) deps :
  (∀ s, s ∈ S1 → rtc (arc e) s c) →
  (∀ d V2, V0 ⊆ V2 → d ∉ V2 → S1 ⊆ V2 →
     (∀ f, f ∈ V2 → f ∉ S1 → Acc (flip (arc e)) f) →
     (∀ s, s ∈ S1 → rtc (arc e) s d) →
     dfs_post e d V2 S1 (appel d (V2, S1))) →
  ∀ V1, (∀ d, d ∈ deps → arc e c (code d)) → S1 ⊆ V1 → V0 ⊆ V1 →
    (∀ f, f ∈ V1 → f ∉ S1 → Acc (flip (arc e)) f) →
    match dfs_boucle appel deps (V1, S1) with
    | Val true _ => ∃ x, tc (arc e) x x
    | Val false vr =>
        vr.2 = S1 ∧ V1 ⊆ vr.1 ∧
        (∀ f, f ∈ vr.1 → f ∉ S1 → Acc (flip (arc e)) f) ∧
        ∀ d, d ∈ deps → code d ∈ vr.1 ∧ code d ∉ S1
    | Exc _ _ => False
    | Div => False
    end.
Proof.
  intros Hpath Happel.
  induction deps as [|d deps IH]; intros V1 Harc HS HV Hinv; simpl.
  - split_and!; try done. intros d Hd. by inversion Hd.
  - unfold bind, get; simpl.
    assert (Hd : arc e c (code d)) by (apply Harc; left).
    assert (Hrest : ∀ d', d' ∈ deps → arc e c (code d'))
      by (intros d' Hd'; apply Harc; by right).
    destruct (decide (code d ∉ V1)) as [Hnew|Hold].
    + assert (Hp : ∀ s, s ∈ S1 → rtc (arc e) s (code d)).
      { intros s Hs. eapply rtc_r; [by apply Hpath|done]. }
      specialize (Happel (code d) V1 HV Hnew HS Hinv Hp).
      destruct (appel (code d) (V1, S1)) as [[|] [V2 S2]| |];
        cbn [dfs_post fst snd] in *; [exact Happel| |exact Happel..].
      destruct Happel as (-> & HV12 & HdV2 & Hinv2).
      assert (HS2 : S1 ⊆ V2) by (clear -HS HV12; set_solver).
      assert (HV2 : V0 ⊆ V2) by (clear -HV HV12; set_solver).
      specialize (IH V2 Hrest HS2 HV2 Hinv2).
      destruct (dfs_boucle appel deps (V2, S1)) as [[|] [V3 S3]| |];
        cbn [fst snd] in *; [exact IH| |exact IH..].
      destruct IH as (-> & HV23 & Hinv3 & Hall).
      split_and!; [done|clear -HV12 HV23; set_solver|done|].
      intros d' Hd'. apply elem_of_cons in Hd' as [->|Hd']; [|by apply Hall].
      split; [clear -HdV2 HV23; set_solver|clear -Hnew HS; set_solver].
    + apply dec_stable in Hold.
      destruct (decide (code d ∈ S1)) as [Hst|Hst]; simpl.
      * exists (code d). eapply tc_rtc_l; [by apply Hpath|]. by apply tc_once.
      * specialize (IH V1 Hrest HS HV Hinv).
        destruct (dfs_boucle appel deps (V1, S1)) as [[|] [V3 S3]| |];
          cbn [fst snd] in *; [exact IH| |exact IH..].
        destruct IH as (-> & HV23 & Hinv3 & Hall).
        split_and!; try done.
        intros d' Hd'. apply elem_of_cons in Hd' as [->|Hd']; [|by apply Hall].
        split; [clear -Hold HV23; set_solver|done].
Qed.
Lemma dfs_spec e fuel : ∀ c (V S : gset string),
  c ∉ V → S ⊆ V →
  (size (dom (taches_dict (self e)) ∖ V) < fuel)%nat →
  (∀ f, f ∈ V → f ∉ S → Acc (flip (arc e)) f) →
  (∀ s, s ∈ S → rtc (arc e) s c) →
  dfs_post e c V S (dfs e fuel c (V, S)).
Proof.
  induction fuel as [|fuel IH]; intros c V S HcV HSV Hsize Hinv Hpath; [lia|].
  assert (HcS : c ∉ S) by (clear -HcV HSV; set_solver).
  cbn [dfs]. unfold bind, modify. cbn [fst snd].
  destruct (taches_dict (self e) !! c) as [tache|] eqn:Hdict.
  - pose proof (dfs_boucle_spec e (dfs e fuel) c ({[c]} ∪ S) ({[c]} ∪ V)
                  (dependances (base e) tache)) as Hb.
    assert (Hp1 : ∀ s, s ∈ ({[c]} ∪ S : gset string) → rtc (arc e) s c).
    { intros s Hs. apply elem_of_union in Hs as [Hs|Hs]; [|by apply Hpath].
      apply elem_of_singleton in Hs as ->. apply rtc_refl. }
    specialize (Hb Hp1).
    assert (Hmes : ∀ V2 : gset string, {[c]} ∪ V ⊆ V2 →
              (size (dom (taches_dict (self e)) ∖ V2) < fuel)%nat).
    { intros V2 HV2.
      assert (dom (taches_dict (self e)) ∖ V2 ⊂ dom (taches_dict (self e)) ∖ V).
      { split; [clear -HV2; set_solver|].
        intros Hsub. assert (Hc : c ∈ dom (taches_dict (self e)) ∖ V).
        { apply elem_of_difference. split; [|done]. apply elem_of_dom. by eexists. }
        apply Hsub in Hc. clear -Hc HV2. set_solver. }
      apply subset_size in H. lia. }
    assert (Happel : ∀ d (V2 : gset string), {[c]} ∪ V ⊆ V2 → d ∉ V2 →
              {[c]} ∪ S ⊆ V2 →
              (∀ f, f ∈ V2 → f ∉ ({[c]} ∪ S : gset string) → Acc (flip (arc e)) f) →
              (∀ s, s ∈ ({[c]} ∪ S : gset string) → rtc (arc e) s d) →
              dfs_post e d V2 ({[c]} ∪ S) (dfs e fuel d (V2, {[c]} ∪ S))).
    { intros d V2 HV2 Hd HS2 Hinv2 Hp2. apply IH; auto. }
    specialize (Hb Happel ({[c]} ∪ V)).
    assert (Harc : ∀ d, d ∈ dependances (base e) tache → arc e c (code d)).
    { intros d Hd. exists tache. split; [done|]. by apply list_elem_of_fmap_2. }
    assert (Hinv1 : ∀ f, f ∈ ({[c]} ∪ V : gset string) →
              f ∉ ({[c]} ∪ S : gset string) → Acc (flip (arc e)) f).
    { intros f Hf Hf'. apply Hinv; clear -Hf Hf'; set_solver. }
    specialize (Hb Harc).
    assert (HS1 : ({[c]} ∪ S : gset string) ⊆ {[c]} ∪ V) by (clear -HSV; set_solver).
    specialize (Hb HS1 (reflexivity _) Hinv1).
    destruct (dfs_boucle (dfs e fuel) (dependances (base e) tache)
                ({[c]} ∪ V, {[c]} ∪ S)) as [[|] [V' S']| |];
      cbn [dfs_post fst snd] in *; [exact Hb| |exact Hb..].
    destruct Hb as (-> & HV' & Hinv' & Hall).
    unfold get. cbn [fst snd].
    destruct (decide (c ∈ ({[c]} ∪ S : gset string))) as [_|Hn];
      [|clear -Hn; set_solver].
    cbn [dfs_post fst snd].
    split_and!.
    + clear -HcS. set_solver.
    + clear -HV'. set_solver.
    + clear -HV'. set_solver.
    + intros f Hf Hf'. destruct (decide (f = c)) as [->|Hne].
      * constructor. intros y (t' & Ht' & Hy). rewrite Hdict in Ht'.
        injection Ht' as <-. apply list_elem_of_fmap in Hy as (d & -> & Hd).
        destruct (Hall d Hd) as [Hd1 Hd2]. by apply Hinv'.
      * apply Hinv'; [done|]. clear -Hf' Hne. set_solver.
  - unfold ret, get. cbn [fst snd].
    destruct (decide (c ∈ ({[c]} ∪ S : gset string))) as [_|Hn];
      [|clear -Hn; set_solver].
    cbn [dfs_post fst snd].
    split_and!.
    + clear -HcS. set_solver.
    + clear. set_solver.
    + clear. set_solver.
    + intros f Hf Hf'. destruct (decide (f = c)) as [->|Hne].
      * constructor. intros y (t' & Ht' & _). by rewrite Hdict in Ht'.
      * apply Hinv; clear -Hf Hf' Hne; set_solver.
Qed.
Lemma circ_boucle_spec e fuel ts : ∀ V : gset string,
  (size (dom (taches_dict (self e))) < fuel)%nat →
  (∀ f, f ∈ V → Acc (flip (arc e)) f) →
  match circ_boucle e fuel ts (V, ∅) with
  | Val true _ => ∃ x, tc (arc e) x x
  | Val false vr =>
      vr.2 = ∅ ∧ V ⊆ vr.1 ∧ (∀ f, f ∈ vr.1 → Acc (flip (arc e)) f) ∧
      ∀ t, t ∈ ts → code t ∈ vr.1
  | Exc _ _ => False
  | Div => False
  end.
Proof.
  induction ts as [|t ts IH]; intros V Hsize Hinv; cbn [circ_boucle].
  - unfold ret. cbn [fst snd]. split_and!; try done.
    intros t Ht. by inversion Ht.
  - unfold bind, get. cbn [fst snd].
    destruct (decide (code t ∉ V)) as [Hnew|Hold].
    + pose proof (dfs_spec e fuel (code t) V ∅ Hnew) as Hd.
      assert (H1 : (∅ : gset string) ⊆ V) by (clear; set_solver).
      assert (H2 : (size (dom (taches_dict (self e)) ∖ V) < fuel)%nat).
      { eapply Nat.le_lt_trans; [|exact Hsize].
        apply subseteq_size. clear. set_solver. }
      assert (H3 : ∀ f, f ∈ V → f ∉ (∅ : gset string) → Acc (flip (arc e)) f)
        by (intros f Hf _; by apply Hinv).
      assert (H4 : ∀ s, s ∈ (∅ : gset string) → rtc (arc e) s (code t))
        by (intros s Hs; clear -Hs; set_solver).
      specialize (Hd H1 H2 H3 H4).
      destruct (dfs e fuel (code t) (V, ∅)) as [[|] [V' S']| |];
        cbn [dfs_post fst snd] in *; [exact Hd| |exact Hd..].
      destruct Hd as (-> & HV' & Ht' & Hinv').
      assert (Hinv2 : ∀ f, f ∈ V' → Acc (flip (arc e)) f).
      { intros f Hf. apply Hinv'; [done|]. clear. set_solver. }
      specialize (IH V' Hsize Hinv2).
      destruct (circ_boucle e fuel ts (V', ∅)) as [[|] [V2 S2]| |];
        cbn [fst snd] in *; [exact IH| |exact IH..].
      destruct IH as (-> & HV2 & Hinv3 & Hall).
      split_and!; [done|clear -HV' HV2; set_solver|done|].
      intros t' Ht2. apply elem_of_cons in Ht2 as [->|Ht2]; [|by apply Hall].
      clear -Ht' HV2. set_solver.
    + apply dec_stable in Hold.
      specialize (IH V Hsize Hinv).
      destruct (circ_boucle e fuel ts (V, ∅)) as [[|] [V2 S2]| |];
        cbn [fst snd] in *; [exact IH| |exact IH..].
      destruct IH as (-> & HV2 & Hinv3 & Hall).
      split_and!; try done.
      intros t' Ht2. apply elem_of_cons in Ht2 as [->|Ht2]; [|by apply Hall].
      clear -Hold HV2. set_solver.
Qed.

Lemma Acc_sans_cycle {A} (R : relation A) x : Acc (flip R) x → ¬ tc R x x.
Proof.
  induction 1 as [x _ IH]. intros Hc.
  inversion Hc as [? ? Hxx|? y ? Hxy Hyx]; subst.
  - apply (IH x Hxx). by apply tc_once.
  - apply (IH y Hxy). eapply tc_rtc_l; [by apply tc_rtc|by apply tc_once].
Qed.

Lemma dict_dom_taille ts :
  (size (dom (taches_dict (__init__ ts))) ≤ length ts)%nat.
Proof.
  cbn [taches_dict __init__].
  assert (G : ∀ d0 : gmap string Tache,
            (size (dom (foldl (λ d t, <[code t := t]> d) d0 ts))
             ≤ size (dom d0) + length ts)%nat).
  { induction ts as [|t ts IH]; intros d0; simpl; [lia|].
    etrans; [apply IH|]. rewrite dom_insert_L.
    rewrite size_union_alt, size_singleton.
    assert (size (dom d0 ∖ {[code t]}) ≤ size (dom d0))%nat
      by (apply subseteq_size; set_solver).
    lia. }
  specialize (G ∅). rewrite dom_empty_L, size_empty in G. lia.
Qed.

(** On a state built by [__init__], the detector answers, and answers
    [True] exactly when the graph of codes has a cycle. *)
Lemma has_circular_spec b ts e :
  coherent b ts e →
  ∃ r, _has_circular_dependency e = Val r e ∧
       (r = true ↔ ∃ x, tc (arc e) x x).
Proof.
  intros (Hts & Hd & Hb).
  unfold _has_circular_dependency, bind, get, localement.
  pose proof (circ_boucle_spec e (S (length (taches (self e))))
                (taches (self e)) ∅) as Hs.
  assert (H1 : (size (dom (taches_dict (self e))) < S (length (taches (self e))))%nat).
  { rewrite Hd, Hts. pose proof (dict_dom_taille ts). lia. }
  assert (H2 : ∀ f, f ∈ (∅ : gset string) → Acc (flip (arc e)) f)
    by (intros f Hf; clear -Hf; set_solver).
  specialize (Hs H1 H2).
  destruct (circ_boucle e (S (length (taches (self e)))) (taches (self e)) (∅, ∅))
    as [[|] [V' S']| |]; cbn [fst snd] in *; try contradiction.
  - exists true. split; [done|]. by split.
  - exists false. split; [done|]. split; [done|].
    intros (x & Hx). exfalso.
    destruct Hs as (_ & _ & Hinv & Hall).
    assert (Hx' : ∃ y, arc e x y).
    { inversion Hx; subst; eauto. }
    destruct Hx' as (y & t & Ht & _).
    rewrite Hd in Ht. apply dict_lookup_Some in Ht as [Hin <-].
    rewrite <- Hts in Hin.
    by apply (Acc_sans_cycle (arc e) (code t) (Hinv _ (Hall _ Hin))).
Qed.
(** ** Tasks, codes and links of a well-formed collection *)

Lemma code_inj ts x y :
  NoDup (code <$> ts) → x ∈ ts → y ∈ ts → code x = code y → x = y.
Proof.
  induction ts as [|z ts IH]; intros Hnd Hx Hy Hc; [by inversion Hx|].
  simpl in Hnd. apply NoDup_cons in Hnd as [Hz Hnd].
  apply elem_of_cons in Hx as [->|Hx]; apply elem_of_cons in Hy as [->|Hy].
  - done.
  - destruct Hz. rewrite Hc. by apply list_elem_of_fmap_2.
  - destruct Hz. rewrite <- Hc. by apply list_elem_of_fmap_2.
  - by apply IH.
Qed.

Lemma elem_of_dependances b t d :
  d ∈ dependances b t ↔ (pk t, pk d) ∈ liens b ∧ d ∈ table b.
Proof. unfold dependances. by rewrite list_elem_of_filter. Qed.

Lemma elem_of_successeurs b t s :
  s ∈ successeurs b t ↔ (pk s, pk t) ∈ liens b ∧ s ∈ table b.
Proof. unfold successeurs. by rewrite list_elem_of_filter. Qed.

Section BienForme.
Context (b : Base) (ts : list Tache) (Hbf : bien_forme b ts).

Lemma bf_table_NoDup : NoDup (table b).
Proof. eapply NoDup_fmap_1, bf_pk, Hbf. Qed.

Lemma successeur_dependance t s :
  t ∈ ts → s ∈ ts → (s ∈ successeurs b t ↔ t ∈ dependances b s).
Proof.
  intros Ht Hs. rewrite elem_of_successeurs, elem_of_dependances.
  pose proof (bf_table _ _ Hbf t Ht). pose proof (bf_table _ _ Hbf s Hs).
  tauto.
Qed.

Lemma codes_listes_NoDup (l : list Tache) :
  NoDup l → (∀ x, x ∈ l → x ∈ ts) → NoDup (code <$> l).
Proof.
  intros Hnd Hin. apply NoDup_fmap_2_strong; [|done].
  intros x y Hx Hy. apply (code_inj ts); auto. apply Hbf.
Qed.

Lemma dependances_codes_NoDup t :
  t ∈ ts → NoDup (code <$> dependances b t).
Proof.
  intros Ht. apply codes_listes_NoDup.
  - apply NoDup_filter, bf_table_NoDup.
  - intros d. by apply (bf_deps _ _ Hbf).
Qed.

Lemma successeurs_codes_NoDup t :
  t ∈ ts → NoDup (code <$> successeurs b t).
Proof.
  intros Ht. apply codes_listes_NoDup.
  - apply NoDup_filter, bf_table_NoDup.
  - intros d. by apply (bf_succs _ _ Hbf).
Qed.

Lemma dict_bf e t :
  coherent b ts e → t ∈ ts → taches_dict (self e) !! code t = Some t.
Proof.
  intros (_ & -> & _) Ht. apply dict_lookup_NoDup; [apply Hbf|done].
Qed.

Lemma dict_bf_inv e c t :
  coherent b ts e → taches_dict (self e) !! c = Some t → t ∈ ts ∧ code t = c.
Proof. intros (_ & -> & _). apply dict_lookup_Some. Qed.
End BienForme.
(** ** Counting the dependencies still to come *)

Lemma filtre_ajout_absent (l : list Tache) (o : list string) c :
  c ∉ code <$> l →
  filter (λ d, code d ∉ o ++ [c]) l = filter (λ d, code d ∉ o) l.
Proof.
  induction l as [|x l IH]; intros Hc; [done|].
  simpl in Hc. apply not_elem_of_cons in Hc as [Hx Hc].
  rewrite !filter_cons, IH by done.
  destruct (decide (code x ∉ o ++ [c])) as [H1|H1];
    destruct (decide (code x ∉ o)) as [H2|H2]; try done.
  - destruct H1. apply dec_stable in H2. apply elem_of_app. by left.
  - destruct H1. intros H. apply elem_of_app in H as [H|H]; [done|].
    apply list_elem_of_singleton in H. by destruct Hx.
Qed.

Lemma filtre_ajout_present (l : list Tache) (o : list string) c :
  NoDup (code <$> l) → c ∈ code <$> l → c ∉ o →
  length (filter (λ d, code d ∉ o) l)
  = S (length (filter (λ d, code d ∉ o ++ [c]) l)).
Proof.
  induction l as [|x l IH]; intros Hnd Hc Ho; [by inversion Hc|].
  simpl in Hnd, Hc. apply NoDup_cons in Hnd as [Hx Hnd].
  rewrite !filter_cons.
  destruct (decide (code x = c)) as [<-|Hne].
  - rewrite (filtre_ajout_absent l o (code x)) by done.
    destruct (decide (code x ∉ o)) as [_|H2]; [|done].
    destruct (decide (code x ∉ o ++ [code x])) as [H1|_]; [|done].
    destruct H1. apply elem_of_app. right. by apply list_elem_of_singleton.
  - apply elem_of_cons in Hc as [Hc|Hc]; [by destruct Hne|].
    specialize (IH Hnd Hc Ho).
    destruct (decide (code x ∉ o ++ [c])) as [H1|H1];
      destruct (decide (code x ∉ o)) as [H2|H2]; simpl; try lia.
    + destruct H2. intros H. apply H1. apply elem_of_app. by left.
    + destruct H1. intros H. apply elem_of_app in H as [H|H]; [done|].
      apply list_elem_of_singleton in H. done.
Qed.

Lemma filter_vide {A} (P : A → Prop) `{∀ x, Decision (P x)} (l : list A) :
  (∀ x, x ∈ l → ¬ P x) → filter P l = [].
Proof.
  induction l as [|x l IH]; intros Hl; [done|].
  rewrite filter_cons_False by (apply Hl; left).
  apply IH. intros y Hy. apply Hl. by right.
Qed.

Lemma filter_tout {A} (P : A → Prop) `{∀ x, Decision (P x)} (l : list A) :
  (∀ x, x ∈ l → P x) → filter P l = l.
Proof.
  induction l as [|x l IH]; intros Hl; [done|].
  rewrite filter_cons_True by (apply Hl; left).
  f_equal. apply IH. intros y Hy. apply Hl. by right.
Qed.

Lemma reste_zero b o t :
  reste b o t = 0%nat ↔ ∀ d, d ∈ dependances b t → code d ∈ o.
Proof.
  unfold reste. rewrite length_zero_iff_nil. split.
  - intros H d Hd. destruct (decide (code d ∈ o)) as [|Hn]; [done|].
    assert (Hin : d ∈ filter (λ d, code d ∉ o) (dependances b t))
      by (by apply list_elem_of_filter).
    rewrite H in Hin. by inversion Hin.
  - intros H. apply filter_vide. intros d Hd Hn. apply Hn, H, Hd.
Qed.

Lemma reste_nil b t :
  reste b [] t = length (dependances b t).
Proof.
  unfold reste. f_equal. apply filter_tout. intros d _ H. by inversion H.
Qed.
(** ** The topological sort *)

Lemma for_ajoute (k : string) {X} (l : list X) (s : Kahn) v :
  in_degree s !! k = Some v →
  for_ l (λ _, ajoute k 1) s
  = Val tt (sur_in_degree (insert k (v + Z.of_nat (length l))) s).
Proof.
  revert s v. induction l as [|x l IH]; intros s v Hv.
  - cbn [for_ length]. unfold ret. f_equal. destruct s as [D Q O].
    unfold sur_in_degree. cbn [in_degree queue ordre] in *. f_equal.
    rewrite Z.add_0_r. symmetry. by apply insert_id.
  - cbn [for_]. unfold bind, ajoute at 1, modify.
    rewrite (IH _ (v + 1)).
    + f_equal. destruct s as [D Q O]. unfold sur_in_degree.
      cbn [in_degree queue ordre] in *. f_equal.
      rewrite insert_insert_eq. f_equal. cbn [length]. lia.
    + unfold sur_in_degree. cbn [in_degree]. rewrite lookup_insert_eq.
      unfold degre. by rewrite Hv.
Qed.

Section Tri.
Context (b : Base) (ts : list Tache) (Hbf : bien_forme b ts).
Context (e : Etat) (Hcoh : coherent b ts e).

Lemma tri_compte_spec :
  ∃ D, tri_compte e (mkKahn ∅ [] []) = Val tt (mkKahn D [] []) ∧
       ∀ t, t ∈ ts →
         D !! code t = Some (Z.of_nat (length (dependances b t))).
Proof.
  destruct Hcoh as (Hts & Hdict & Hb).
  unfold tri_compte. rewrite Hts, Hb.
  pose (I := λ (pre : list Tache) (s : Kahn),
    queue s = [] ∧ ordre s = [] ∧
    (∀ t, t ∈ pre →
       in_degree s !! code t = Some (Z.of_nat (length (dependances b t)))) ∧
    (∀ c, c ∉ code <$> pre → in_degree s !! c = None)).
  destruct (for_inv I ts
    (λ tache, s <- get ;;
       (if decide (code tache ∉ dom (in_degree s))
        then modify (sur_in_degree (insert (code tache) 0)) else ret tt) ;;;
       for_ (dependances b tache) (λ _, ajoute (code tache) 1))
    (mkKahn ∅ [] [])) as (s' & Hrun & HI).
  - unfold I. cbn [queue ordre in_degree]. split_and!; try done.
    intros t Ht. by inversion Ht.
  - intros pre x post s Hl (HQ & HO & Hpre & Hautres).
    assert (Hx : code x ∉ code <$> pre).
    { pose proof (bf_code _ _ Hbf) as Hnd. rewrite Hl, fmap_app in Hnd.
      apply NoDup_app in Hnd as (_ & Hd & _). intros Hin.
      apply (Hd _ Hin). rewrite fmap_cons. left. }
    unfold bind, get.
    destruct (decide (code x ∉ dom (in_degree s))) as [_|Hn].
    2:{ destruct Hn. apply not_elem_of_dom. by apply Hautres. }
    unfold modify.
    erewrite for_ajoute
      by (unfold sur_in_degree; cbn [in_degree]; apply lookup_insert_eq).
    eexists. split; [done|].
    unfold I, sur_in_degree. cbn [queue ordre in_degree].
    split_and!; try done.
    + intros t Ht. apply elem_of_app in Ht as [Ht|Ht].
      * assert (code x ≠ code t).
        { intros Heq. apply Hx. rewrite Heq. by apply list_elem_of_fmap_2. }
        rewrite !lookup_insert_ne by done. by apply Hpre.
      * apply list_elem_of_singleton in Ht as ->.
        rewrite lookup_insert_eq. f_equal.
    + intros c Hc. rewrite fmap_app in Hc.
      apply not_elem_of_app in Hc as [Hc1 Hc2].
      assert (code x ≠ c).
      { intros <-. apply Hc2. rewrite fmap_cons. left. }
      rewrite !lookup_insert_ne by done. by apply Hautres.
  - destruct HI as (HQ & HO & Hpre & _).
    exists (in_degree s'). split; [|done].
    rewrite Hrun. destruct s'; cbn in *; by subst.
Qed.

Lemma kahn_inv_init D :
  (∀ t, t ∈ ts →
     D !! code t = Some (Z.of_nat (length (dependances b t)))) →
  kahn_inv b ts
    (mkKahn D (code <$> filter (λ t, degre D (code t) = 0) ts) []).
Proof.
  intros HD.
  assert (Hdeg : ∀ t, t ∈ ts →
            degre D (code t) = 0 ↔ reste b [] t = 0%nat).
  { intros t Ht. unfold degre. rewrite (HD t Ht), reste_nil. simpl. lia. }
  constructor; cbn [ordre queue in_degree app].
  - apply (codes_listes_NoDup b ts Hbf).
    + apply NoDup_filter. eapply NoDup_fmap_1, bf_code, Hbf.
    + intros x Hx. by apply list_elem_of_filter in Hx as [_ Hx].
  - intros c Hc. apply list_elem_of_fmap in Hc as (t & -> & Ht).
    apply list_elem_of_filter in Ht as [_ Ht]. by apply list_elem_of_fmap_2.
  - intros t Ht. rewrite (HD t Ht), reste_nil. done.
  - intros t Ht. split.
    + intros Hc. apply list_elem_of_fmap in Hc as (t' & Hcode & Ht').
      apply list_elem_of_filter in Ht' as [Hz Ht'].
      assert (t = t') as <- by (eapply code_inj; eauto; apply Hbf).
      by apply Hdeg.
    + intros Hz. apply list_elem_of_fmap_2, list_elem_of_filter.
      split; [by apply Hdeg|done].
  - intros pre c post t d Ho. by destruct pre.
Qed.
End Tri.
Lemma bf_code_inj b ts x y :
  bien_forme b ts → x ∈ ts → y ∈ ts → code x = code y → x = y.
Proof. intros Hbf. apply code_inj, Hbf. Qed.

Section TriEtape.
Context (b : Base) (ts : list Tache) (Hbf : bien_forme b ts).
Context (e : Etat) (Hcoh : coherent b ts e).

Lemma reste_successeur o t x :
  t ∈ ts → x ∈ ts → code t ∉ o → x ∈ successeurs b t →
  reste b o x = S (reste b (o ++ [code t]) x).
Proof.
  intros Ht Hx Ho Hs. unfold reste.
  apply filtre_ajout_present; [|by apply list_elem_of_fmap_2,
    (successeur_dependance b ts Hbf t x)|done].
  by apply (dependances_codes_NoDup b ts Hbf).
Qed.

Lemma reste_autre o t x :
  t ∈ ts → x ∈ ts → x ∉ successeurs b t →
  reste b (o ++ [code t]) x = reste b o x.
Proof.
  intros Ht Hx Hs. unfold reste. f_equal.
  apply filtre_ajout_absent. intros Hin.
  apply list_elem_of_fmap in Hin as (d & Hcd & Hd).
  assert (d ∈ ts) by (by apply (bf_deps _ _ Hbf x)).
  assert (t = d) as <- by (by apply (bf_code_inj b ts)).
  by apply Hs, (successeur_dependance b ts Hbf t x).
Qed.

Lemma tri_etape_spec s c q :
  kahn_inv b ts s → queue s = c :: q →
  ∃ s', tri_etape e s = Val tt s' ∧ kahn_inv b ts s' ∧
        ordre s' = ordre s ++ [c].
Proof.
  intros Hinv Hq.
  destruct Hinv as [Hnd Hcodes Hdeg Hfile Htopo].
  destruct s as [D Q O]. cbn [queue ordre in_degree] in *. subst Q.
  assert (Hc : c ∈ code <$> ts).
  { apply Hcodes, elem_of_app. right. left. }
  apply list_elem_of_fmap in Hc as (t & -> & Ht).
  assert (HcO : code t ∉ O).
  { apply NoDup_app in Hnd as (_ & Hd & _). intros Hin.
    apply (Hd _ Hin). left. }
  assert (Hr0 : reste b O t = 0%nat).
  { apply Hfile; [done|]. apply elem_of_app. right. left. }
  pose proof (successeurs_codes_NoDup b ts Hbf t Ht) as Hsnd.
  assert (Hsnd' : NoDup (successeurs b t)) by (by eapply NoDup_fmap_1).
  assert (Hsts : ∀ x, x ∈ successeurs b t → x ∈ ts)
    by (intros x; by apply (bf_succs _ _ Hbf)).
  unfold tri_etape, bind, get. cbn [queue]. unfold modify, lire.
  rewrite (dict_bf b ts Hbf e t Hcoh Ht). unfold ret.
  destruct Hcoh as (_ & _ & Hb). rewrite Hb.
  unfold sur_queue, sur_ordre. cbn [in_degree queue ordre].
  pose (O' := O ++ [code t]).
  pose (J := λ (pre : list Tache) (s1 : Kahn),
    ordre s1 = O' ∧
    queue s1 = q ++ (code <$> filter (λ x, reste b O' x = 0%nat) pre) ∧
    ∀ x, x ∈ ts →
      in_degree s1 !! code x
      = Some (Z.of_nat (if decide (x ∈ pre ∨ x ∉ successeurs b t)
                        then reste b O' x else reste b O x))).
  destruct (for_inv J (successeurs b t)
    (λ successeur,
       ajoute (code successeur) (-1) ;;;
       s' <- get ;;
       if decide (degre (in_degree s') (code successeur) = 0)
       then modify (λ k, mkKahn (in_degree k) (queue k ++ [code successeur]) (ordre k))
       else ret tt)
    (mkKahn D q O')) as (s' & Hrun & HJ).
  - unfold J. cbn [ordre queue in_degree]. split_and!; [done|
      by rewrite filter_nil, fmap_nil, app_nil_r|].
    intros x Hx. rewrite (Hdeg x Hx). do 2 f_equal.
    destruct (decide (x ∈ [] ∨ x ∉ successeurs b t)) as [[Hn|Hn]|Hn]; [by inversion Hn| |done].
    symmetry. by apply reste_autre.
  - intros pre x post s1 Hl (HO1 & HQ1 & HD1).
    assert (Hxs : x ∈ successeurs b t).
    { rewrite Hl. apply elem_of_app. right. left. }
    assert (Hxpre : x ∉ pre).
    { rewrite Hl in Hsnd'. apply NoDup_app in Hsnd' as (_ & Hd & _).
      intros Hin. apply (Hd _ Hin). left. }
    assert (Hxts : x ∈ ts) by auto.
    assert (HDx : in_degree s1 !! code x = Some (Z.of_nat (S (reste b O' x)))).
    { rewrite (HD1 x Hxts).
      destruct (decide (x ∈ pre ∨ x ∉ successeurs b t)) as [[Hn|Hn]|Hn]; [done..|].
      do 2 f_equal. by apply reste_successeur. }
    unfold bind, ajoute, modify, get, sur_in_degree. cbn [in_degree queue ordre].
    assert (Hdx : degre (in_degree s1) (code x) + -1 = Z.of_nat (reste b O' x)).
    { unfold degre. rewrite HDx. simpl default. lia. }
    rewrite Hdx.
    assert (Hnew : ∀ y, y ∈ ts →
      <[code x := Z.of_nat (reste b O' x)]> (in_degree s1) !! code y
      = Some (Z.of_nat (if decide (y ∈ pre ++ [x] ∨ y ∉ successeurs b t)
                        then reste b O' y else reste b O y))).
    { intros y Hy. destruct (decide (y = x)) as [->|Hne].
      - rewrite lookup_insert_eq.
        destruct (decide (x ∈ pre ++ [x] ∨ x ∉ successeurs b t)) as [_|Hn]; [done|].
        destruct Hn. left. apply elem_of_app. right. left.
      - assert (code x ≠ code y).
        { intros Heq. apply Hne. symmetry. by apply (bf_code_inj b ts). }
        rewrite lookup_insert_ne by done. rewrite (HD1 y Hy).
        destruct (decide (y ∈ pre ∨ y ∉ successeurs b t)) as [H1|H1];
          destruct (decide (y ∈ pre ++ [x] ∨ y ∉ successeurs b t)) as [H2|H2];
          try done.
        + destruct H2. destruct H1 as [H1|H1]; [left|by right].
          apply elem_of_app. by left.
        + destruct H1. destruct H2 as [H2|H2]; [left|by right].
          apply elem_of_app in H2 as [H2|H2]; [done|].
          apply list_elem_of_singleton in H2. done. }
    assert (Hlk : degre (<[code x := Z.of_nat (reste b O' x)]> (in_degree s1)) (code x)
                  = Z.of_nat (reste b O' x)).
    { unfold degre. by rewrite lookup_insert_eq. }
    destruct (decide (degre (<[code x := Z.of_nat (reste b O' x)]> (in_degree s1))
                        (code x) = 0)) as [Hz|Hz]; rewrite Hlk in Hz.
    + eexists. split; [done|]. unfold J. cbn [ordre queue in_degree].
      split_and!; [done| |done].
      rewrite HQ1, filter_app, fmap_app, filter_cons_True by lia.
      by rewrite filter_nil, app_assoc.
    + unfold ret. eexists. split; [done|]. unfold J.
      cbn [ordre queue in_degree].
      split_and!; [done| |done].
      rewrite HQ1, filter_app, fmap_app, filter_cons_False by lia.
      by rewrite filter_nil, fmap_nil, app_nil_r.
  - exists s'. split.
    { etrans; [|exact Hrun]. done. }
    destruct HJ as (HO' & HQ' & HD').
    assert (HD2 : ∀ x, x ∈ ts →
              in_degree s' !! code x = Some (Z.of_nat (reste b O' x))).
    { intros x Hx. rewrite (HD' x Hx).
      destruct (decide (x ∈ successeurs b t ∨ x ∉ successeurs b t)) as [_|Hn]; [done|].
      destruct Hn. destruct (decide (x ∈ successeurs b t)); auto. }
    assert (Hsame : ∀ k, k ∈ O' ++ q ↔ k ∈ O ++ code t :: q).
    { intros k. unfold O'. by rewrite <- app_assoc. }
    split; [|done]. constructor; rewrite ?HO', ?HQ'.
    + rewrite app_assoc. apply NoDup_app. split_and!.
      * unfold O'. by rewrite <- app_assoc.
      * intros k Hk Hk2.
        apply list_elem_of_fmap in Hk2 as (x & -> & Hx).
        apply list_elem_of_filter in Hx as [Hx0 Hx].
        apply Hsame in Hk. apply Hfile in Hk; [|auto].
        rewrite (reste_successeur O t x) in Hk by auto. done.
      * apply (codes_listes_NoDup b ts Hbf).
        -- by apply NoDup_filter.
        -- intros x Hx. apply list_elem_of_filter in Hx as [_ Hx]. auto.
    + intros k Hk. rewrite app_assoc in Hk. apply elem_of_app in Hk as [Hk|Hk].
      * by apply Hcodes, Hsame.
      * apply list_elem_of_fmap in Hk as (x & -> & Hx).
        apply list_elem_of_filter in Hx as [_ Hx].
        apply list_elem_of_fmap_2. auto.
    + done.
    + intros x Hx. rewrite app_assoc. split.
      * intros Hk. apply elem_of_app in Hk as [Hk|Hk].
        -- apply Hsame, Hfile in Hk; [|done].
           destruct (decide (x ∈ successeurs b t)) as [Hs|Hs].
           ++ rewrite (reste_successeur O t x) in Hk by auto. done.
           ++ unfold O'. by rewrite reste_autre.
        -- apply list_elem_of_fmap in Hk as (x' & Hcx & Hx').
           apply list_elem_of_filter in Hx' as [Hx0 Hx'].
           assert (x = x') as -> by (apply (bf_code_inj b ts); auto).
           done.
      * intros Hz. destruct (decide (x ∈ successeurs b t)) as [Hs|Hs].
        -- apply elem_of_app. right. apply list_elem_of_fmap_2.
           by apply list_elem_of_filter.
        -- apply elem_of_app. left. apply Hsame, Hfile; [done|].
           unfold O' in Hz. by rewrite reste_autre in Hz.
    + intros pre c post t' d Ho Ht' Hc Hd.
      destruct (decide (post = [])) as [->|Hne].
      * unfold O' in Ho. apply app_inj_tail in Ho as [HOpre Hcc].
        subst pre c.
        assert (t' = t) as -> by (by apply (bf_code_inj b ts)).
        by apply (reste_zero b O t).
      * destruct (exists_last Hne) as (post' & z & ->).
        unfold O' in Ho. rewrite app_comm_cons, app_assoc in Ho.
        apply app_inj_tail in Ho as [HOpre _].
        by eapply (Htopo pre c post' t' d).
Qed.
End TriEtape.
Lemma kahn_inv_longueur b ts s :
  kahn_inv b ts s → (length (ordre s) + length (queue s) ≤ length ts)%nat.
Proof.
  intros [Hnd Hcodes _ _ _]. rewrite <- length_app.
  rewrite <- (length_fmap code ts).
  apply submseteq_length, NoDup_submseteq; done.
Qed.

(** On a well-formed collection the sort returns, without touching the
    state, a duplicate-free list of codes of the collection, compatible with
    the dependencies, that holds exactly the tasks all of whose dependencies
    it holds. *)
Lemma tri_topologique_spec b ts e :
  bien_forme b ts → coherent b ts e →
  ∃ o, _tri_topologique e = Val o e ∧ NoDup o ∧
       (∀ c, c ∈ o → c ∈ code <$> ts) ∧
       (∀ t, t ∈ ts → (code t ∈ o ↔ reste b o t = 0%nat)) ∧
       topo b ts o.
Proof.
  intros Hbf Hcoh.
  destruct (tri_compte_spec b ts Hbf e Hcoh) as (D & Hcompte & HD).
  pose proof (kahn_inv_init b ts Hbf D HD) as Hinit.
  destruct (while_inv (kahn_inv b ts)
              (λ s, (length ts - length (ordre s))%nat)
              (length (taches (self e)) + length (table (base e)))
              (λ s, bool_decide (queue s ≠ [])) (tri_etape e)
              (mkKahn D (code <$> filter (λ t, degre D (code t) = 0) ts) []))
    as (s' & Hrun & Hinv & Hcond).
  - done.
  - destruct Hcoh as (-> & _ & _). cbn [ordre length]. lia.
  - intros s Hs Hc. apply bool_decide_eq_true in Hc.
    destruct (queue s) as [|c q] eqn:Hq; [done|].
    destruct (tri_etape_spec b ts Hbf e Hcoh s c q Hs Hq) as (s1 & H1 & H2 & H3).
    exists s1. split_and!; [done..|].
    pose proof (kahn_inv_longueur b ts s Hs) as Hlen.
    rewrite Hq in Hlen. cbn [length] in Hlen.
    rewrite H3, length_app. cbn [length]. lia.
  - apply bool_decide_eq_false in Hcond. apply dec_stable in Hcond.
    exists (ordre s'). split.
    + unfold _tri_topologique, bind, get, localement.
      rewrite Hcompte. unfold tri_file at 1, bind, get, modify, sur_queue.
      cbn [in_degree queue ordre].
      destruct Hcoh as (Hts & _ & _). rewrite Hts at 1. rewrite Hts in Hrun |- *.
      rewrite Hrun. done.
    + destruct Hinv as [Hnd Hcodes _ Hfile Htopo].
      rewrite Hcond, app_nil_r in *. done.
Qed.
(** ** Acyclic finite graphs are well founded *)

Lemma fini_sans_cycle_Acc {A} (R : relation A) (l : list A) :
  (∀ x y, R x y → x ∈ l ∧ y ∈ l) → (∀ x, ¬ tc R x x) →
  ∀ x, Acc (flip R) x.
Proof.
  intros Hl Hac.
  assert (G : ∀ k seen x, NoDup seen → (∀ s, s ∈ seen → s ∈ l) →
            (∀ s, s ∈ seen → tc R s x) →
            (length l ≤ length seen + k)%nat → Acc (flip R) x).
  { induction k as [|k IH]; intros seen x Hnd Hin Hreach Hlen;
      constructor; intros y Hxy; unfold flip in Hxy.
    - assert (Hx : x ∉ seen) by (intros Hx; by apply (Hac x), Hreach).
      assert (Hsub : x :: seen ⊆+ l).
      { apply NoDup_submseteq; [by constructor|].
        intros s Hs. apply elem_of_cons in Hs as [->|Hs]; [|auto].
        by apply (Hl x y). }
      apply submseteq_length in Hsub. cbn [length] in Hsub. lia.
    - assert (Hx : x ∉ seen) by (intros Hx; by apply (Hac x), Hreach).
      apply (IH (x :: seen) y).
      + by constructor.
      + intros s Hs. apply elem_of_cons in Hs as [->|Hs]; [|auto].
        by apply (Hl x y).
      + intros s Hs. apply elem_of_cons in Hs as [->|Hs]; [by apply tc_once|].
        eapply tc_r; [by apply Hreach|done].
      + cbn [length]. lia. }
  intros x. apply (G (length l) [] x); [constructor| | |simpl; lia];
    intros s Hs; by inversion Hs.
Qed.

Lemma tc_flip {A} (R : relation A) x y : tc (flip R) x y → tc R y x.
Proof.
  induction 1 as [x y Hxy|x y z Hxy _ IH]; [by apply tc_once|].
  eapply tc_r; [exact IH|exact Hxy].
Qed.

Lemma acyclique_Acc_dep b ts :
  acyclique b ts → ∀ x, Acc (flip (depend b ts)) x.
Proof.
  intros Hac. apply (fini_sans_cycle_Acc _ ts); [|done].
  intros x y (Hx & Hy & _). done.
Qed.

Lemma acyclique_Acc_succ b ts :
  acyclique b ts → ∀ x, Acc (depend b ts) x.
Proof.
  intros Hac x.
  apply (fini_sans_cycle_Acc (flip (depend b ts)) ts).
  - intros a c (Hx & Hy & _). done.
  - intros a Ha. by apply tc_flip, Hac in Ha.
Qed.

(** On an acyclic well-formed collection the sort leaves no task out. *)
Lemma tri_complet b ts o :
  bien_forme b ts → acyclique b ts →
  (∀ t, t ∈ ts → (code t ∈ o ↔ reste b o t = 0%nat)) →
  ∀ t, t ∈ ts → code t ∈ o.
Proof.
  intros Hbf Hac Hfile t.
  induction (acyclique_Acc_dep b ts Hac t) as [t _ IH]. intros Ht.
  apply Hfile; [done|]. apply reste_zero. intros d Hd.
  assert (d ∈ ts) by (by apply (bf_deps _ _ Hbf t)).
  apply IH; [|done]. by split_and!.
Qed.
(** ** Reading dictionaries, maxima and minima *)

Lemma lire_tous_val {St} (m : gmap string Z) (ks : list string) (s : St) :
  (∀ k, k ∈ ks → is_Some (m !! k)) →
  ∃ vs, lire_tous m ks s = Val vs s ∧ Forall2 (λ k v, m !! k = Some v) ks vs.
Proof.
  induction ks as [|k ks IH]; intros Hks.
  - exists []. split; [done|constructor].
  - destruct (Hks k) as [v Hv]; [left|].
    destruct IH as (vs & Hrun & Hall); [intros k' Hk'; apply Hks; by right|].
    exists (v :: vs). split; [|by constructor].
    cbn [lire_tous]. unfold bind, lire. rewrite Hv. unfold ret. by rewrite Hrun.
Qed.

Lemma foldl_max_spec (v : Z) (vs : list Z) :
  (∀ x, x ∈ v :: vs → x ≤ foldl Z.max v vs) ∧ foldl Z.max v vs ∈ v :: vs.
Proof.
  revert v. induction vs as [|w vs IH]; intros v; cbn [foldl].
  - split; [|left]. intros x Hx. apply list_elem_of_singleton in Hx. lia.
  - destruct (IH (Z.max v w)) as [Hle Hin]. split.
    + intros x Hx.
      assert (Z.max v w ≤ foldl Z.max (Z.max v w) vs) by (apply Hle; left).
      apply elem_of_cons in Hx as [->|Hx]; [lia|].
      apply elem_of_cons in Hx as [->|Hx]; [lia|].
      apply Hle. by right.
    + apply elem_of_cons in Hin as [Heq|Hin].
      * rewrite Heq. destruct (Z.max_spec v w) as [[_ ->]|[_ ->]];
          [right; left|left].
      * right. by right.
Qed.

Lemma foldl_min_spec (v : Z) (vs : list Z) :
  (∀ x, x ∈ v :: vs → foldl Z.min v vs ≤ x) ∧ foldl Z.min v vs ∈ v :: vs.
Proof.
  revert v. induction vs as [|w vs IH]; intros v; cbn [foldl].
  - split; [|left]. intros x Hx. apply list_elem_of_singleton in Hx. lia.
  - destruct (IH (Z.min v w)) as [Hle Hin]. split.
    + intros x Hx.
      assert (foldl Z.min (Z.min v w) vs ≤ Z.min v w) by (apply Hle; left).
      apply elem_of_cons in Hx as [->|Hx]; [lia|].
      apply elem_of_cons in Hx as [->|Hx]; [lia|].
      apply Hle. by right.
    + apply elem_of_cons in Hin as [Heq|Hin].
      * rewrite Heq. destruct (Z.min_spec v w) as [[_ ->]|[_ ->]];
          [left|right; left].
      * right. by right.
Qed.

(** The values read for a list of tasks: each task has one, each value is
    the one of some task. *)
Lemma Forall2_codes (m : gmap string Z) (l : list Tache) (vs : list Z) :
  Forall2 (λ k v, m !! k = Some v) (code <$> l) vs →
  (∀ d, d ∈ l → ∃ v, m !! code d = Some v ∧ v ∈ vs) ∧
  (∀ v, v ∈ vs → ∃ d, d ∈ l ∧ m !! code d = Some v).
Proof.
  revert vs. induction l as [|x l IH]; intros vs H;
    inversion H as [|? w ? vs' Hxw Hrest]; subst.
  - split; intros ? Hx; by inversion Hx.
  - destruct (IH _ Hrest) as [H1 H2]. split.
    + intros d Hd. apply elem_of_cons in Hd as [->|Hd].
      * eexists. split; [done|left].
      * destruct (H1 d Hd) as (v & Hv & Hin). exists v. split; [done|by right].
    + intros v Hv. apply elem_of_cons in Hv as [->|Hv].
      * exists x. split; [left|done].
      * destruct (H2 v Hv) as (d & Hd & Hdv). exists d. split; [by right|done].
Qed.
(** ** The forward pass *)

Lemma eq_tot_ext b (ef ef' : gmap string Z) t v :
  (∀ d, d ∈ dependances b t → ef' !! code d = ef !! code d) →
  eq_tot b ef t v → eq_tot b ef' t v.
Proof.
  unfold eq_tot. intros Hext. destruct (dependances b t) as [|d0 ds]; [done|].
  intros [Hle (d & Hd & Hv)]. split.
  - intros d' Hd'. rewrite (Hext d' Hd'). by apply Hle.
  - exists d. split; [done|]. by rewrite (Hext d Hd).
Qed.

Lemma topo_prefixe b ts pre post t d :
  topo b ts (pre ++ post) → t ∈ ts → code t ∈ pre → d ∈ dependances b t →
  code d ∈ pre.
Proof.
  intros Htopo Ht Hc Hd.
  apply list_elem_of_split in Hc as (p1 & p2 & ->).
  apply elem_of_app. left.
  apply (Htopo p1 (code t) (p2 ++ post) t d); [|done..].
  by rewrite <- app_assoc.
Qed.

Lemma coherent_sur_self b ts e f :
  coherent b ts e →
  taches (f (self e)) = taches (self e) →
  taches_dict (f (self e)) = taches_dict (self e) →
  coherent b ts (sur_self f e).
Proof.
  intros (H1 & H2 & H3) Ht Hd. unfold coherent, sur_self. cbn [self base].
  by rewrite Ht, Hd.
Qed.

Lemma bind_Val {St A B} (m : M St A) (f : A → M St B) s a s' :
  m s = Val a s' → bind m f s = f a s'.
Proof. intros H. unfold bind. by rewrite H. Qed.

Lemma bind_get {St B} (f : St → M St B) s : bind get f s = f s s.
Proof. done. Qed.

Section PasseAvant.
Context (b : Base) (ts : list Tache) (Hbf : bien_forme b ts).

Lemma tot_etape_spec e t :
  coherent b ts e → t ∈ ts →
  (∀ d, d ∈ dependances b t → is_Some (dates_fin_tot (self e) !! code d)) →
  ∃ v, tot_etape (code t) e
       = Val tt (sur_self (sur_fin_tot (insert (code t) (v + duree t)))
                  (sur_self (sur_debut_tot (insert (code t) v)) e)) ∧
       eq_tot b (dates_fin_tot (self e)) t v.
Proof.
  intros Hcoh Ht Hdeps.
  unfold tot_etape, bind, get, lire.
  rewrite (dict_bf b ts Hbf e t Hcoh Ht). unfold ret.
  destruct Hcoh as (_ & _ & Hb). rewrite Hb.
  unfold eq_tot.
  destruct (dependances b t) as [|d0 ds] eqn:Hd.
  - exists 0. split; [|done].
    unfold pose_debut_tot, pose_fin_tot, modify, sur_self, sur_debut_tot.
    cbn [self dates_debut_tot]. by rewrite lookup_insert_eq.
  - destruct (lire_tous_val (dates_fin_tot (self e)) (code <$> d0 :: ds) e)
      as (vs & Hrun & Hall).
    { intros k Hk. apply list_elem_of_fmap in Hk as (d & -> & Hin).
      by apply Hdeps. }
    rewrite Hrun.
    destruct (Forall2_codes _ _ _ Hall) as [Hfwd Hbwd].
    destruct vs as [|v vs]; [by inversion Hall|].
    cbn [py_max]. unfold ret.
    destruct (foldl_max_spec v vs) as [Hle Hin].
    exists (foldl Z.max v vs). split.
    + unfold pose_debut_tot, pose_fin_tot, modify, sur_self, sur_debut_tot.
      cbn [self dates_debut_tot]. by rewrite lookup_insert_eq.
    + split.
      * intros d Hin'. destruct (Hfwd d Hin') as (w & Hw & Hwin).
        exists w. split; [done|]. by apply Hle.
      * destruct (Hbwd _ Hin) as (d & Hdin & Hdv). by exists d.
Qed.

Lemma tot_init_spec e :
  coherent b ts e →
  ∃ e', for_ ts (λ t, pose_debut_tot (code t) 0 ;;; pose_fin_tot (code t) 0) e
        = Val tt e' ∧
        coherent b ts e' ∧
        dates_debut_tard (self e') = dates_debut_tard (self e) ∧
        dates_fin_tard (self e') = dates_fin_tard (self e) ∧
        ∀ t, t ∈ ts → is_Some (dates_fin_tot (self e') !! code t).
Proof.
  intros Hcoh.
  pose (I := λ (pre : list Tache) (e' : Etat),
    coherent b ts e' ∧
    dates_debut_tard (self e') = dates_debut_tard (self e) ∧
    dates_fin_tard (self e') = dates_fin_tard (self e) ∧
    ∀ t, t ∈ pre → is_Some (dates_fin_tot (self e') !! code t)).
  destruct (for_inv I ts
    (λ t, pose_debut_tot (code t) 0 ;;; pose_fin_tot (code t) 0) e)
    as (e' & Hrun & HI).
  - unfold I. split_and!; try done. intros t Ht. by inversion Ht.
  - intros pre x post s _ (Hc & H1 & H2 & H3).
    eexists. split; [done|]. unfold I.
    cbn [self sur_self sur_fin_tot sur_debut_tot dates_debut_tard
           dates_fin_tard dates_fin_tot].
    split_and!; [|done..|].
    + by repeat apply coherent_sur_self.
    + intros t Ht. apply lookup_insert_is_Some.
      destruct (decide (code x = code t)); [by left|right].
      split; [done|]. apply elem_of_app in Ht as [Ht|Ht]; [by apply H3|].
      apply list_elem_of_singleton in Ht. by subst.
  - exists e'. done.
Qed.

Lemma calculer_dates_tot_spec e :
  coherent b ts e → acyclique b ts →
  ∃ e', _calculer_dates_tot e = Val tt e' ∧
        coherent b ts e' ∧
        dates_debut_tard (self e') = dates_debut_tard (self e) ∧
        dates_fin_tard (self e') = dates_fin_tard (self e) ∧
        ∀ t, t ∈ ts →
          tot_ok b (dates_debut_tot (self e')) (dates_fin_tot (self e')) t.
Proof.
  intros Hcoh Hac.
  destruct (tot_init_spec e Hcoh) as (e1 & Hinit & Hcoh1 & Ht1 & Ht2 & Hsome).
  destruct (tri_topologique_spec b ts e1 Hbf Hcoh1)
    as (o & Htri & Hnd & Hcodes & Hfile & Htopo).
  pose proof (tri_complet b ts o Hbf Hac Hfile) as Hcomplet.
  pose (I := λ (pre : list string) (e' : Etat),
    coherent b ts e' ∧
    dates_debut_tard (self e') = dates_debut_tard (self e) ∧
    dates_fin_tard (self e') = dates_fin_tard (self e) ∧
    (∀ t, t ∈ ts → is_Some (dates_fin_tot (self e') !! code t)) ∧
    ∀ t, t ∈ ts → code t ∈ pre →
      tot_ok b (dates_debut_tot (self e')) (dates_fin_tot (self e')) t).
  destruct (for_inv I o tot_etape e1) as (e' & Hrun & HI).
  - unfold I. split_and!; try congruence; try done.
    intros t _ Hin. by inversion Hin.
  - intros pre c post s Ho (Hc & H1 & H2 & H3 & H4).
    assert (Hcin : c ∈ code <$> ts).
    { apply Hcodes. rewrite Ho. apply elem_of_app. right. left. }
    apply list_elem_of_fmap in Hcin as (t & -> & Ht).
    assert (Hcpre : code t ∉ pre).
    { rewrite Ho in Hnd. apply NoDup_app in Hnd as (_ & Hd & _).
      intros Hin. apply (Hd _ Hin). left. }
    assert (Hdpre : ∀ d, d ∈ dependances b t → code d ∈ pre).
    { intros d Hd. rewrite Ho in Htopo.
      by apply (Htopo pre (code t) post t d). }
    destruct (tot_etape_spec s t Hc Ht) as (v & Hstep & Heq).
    { intros d Hd. apply H3. by apply (bf_deps _ _ Hbf t). }
    eexists. split; [exact Hstep|]. unfold I.
    cbn [self sur_self sur_fin_tot sur_debut_tot dates_debut_tard
           dates_fin_tard dates_fin_tot dates_debut_tot].
    split_and!; [|done..| |].
    + by repeat apply coherent_sur_self.
    + intros t' Ht'. apply lookup_insert_is_Some.
      destruct (decide (code t = code t')); [by left|right]. auto.
    + intros t' Ht' Hin. apply elem_of_app in Hin as [Hin|Hin].
      * assert (Hne : code t ≠ code t') by (intros Heq'; by rewrite Heq' in Hcpre).
        destruct (H4 t' Ht' Hin) as (v' & Hv1 & Hv2 & Hv3).
        exists v'. rewrite !lookup_insert_ne by done. split_and!; [done..|].
        eapply eq_tot_ext; [|exact Hv3].
        intros d Hd. apply lookup_insert_ne. intros Heq'.
        apply Hcpre. rewrite Heq'. rewrite Ho in Htopo.
        by apply (topo_prefixe b ts pre (code t :: post) t' d).
      * apply list_elem_of_singleton in Hin.
        assert (t' = t) as -> by (by apply (bf_code_inj b ts)).
        exists v. rewrite !lookup_insert_eq. split_and!; [done..|].
        eapply eq_tot_ext; [|exact Heq].
        intros d Hd. apply lookup_insert_ne. intros Heq'.
        apply Hcpre. rewrite Heq'. by apply Hdpre.
  - exists e'. split.
    + unfold _calculer_dates_tot. rewrite bind_get.
      destruct Hcoh as (Hts & _ & _). rewrite Hts.
      rewrite (bind_Val _ _ _ _ _ Hinit), (bind_Val _ _ _ _ _ Htri).
      exact Hrun.
    + destruct HI as (Hc & H1 & H2 & H3 & H4). split_and!; try done.
      intros t Ht. apply H4; [done|]. by apply Hcomplet.
Qed.
End PasseAvant.
(** ** The backward pass *)

Lemma eq_tard_ext b (ef ls ls' : gmap string Z) t v :
  (∀ s, s ∈ successeurs b t → ls' !! code s = ls !! code s) →
  eq_tard b ef ls t v → eq_tard b ef ls' t v.
Proof.
  unfold eq_tard. intros Hext. destruct (successeurs b t) as [|s0 ss]; [done|].
  intros [Hle (s & Hs & Hv)]. split.
  - intros s' Hs'. rewrite (Hext s' Hs'). by apply Hle.
  - exists s. split; [done|]. by rewrite (Hext s Hs).
Qed.

Lemma topo_inverse b ts o pre post t s :
  topo b ts o → NoDup o → reverse o = pre ++ code t :: post →
  s ∈ ts → t ∈ dependances b s → code s ∈ o → code s ∈ pre.
Proof.
  intros Htopo Hnd Hrev Hs Hts Hso.
  assert (Ho : o = reverse post ++ code t :: reverse pre).
  { rewrite <- (reverse_involutive o), Hrev, reverse_app, reverse_cons.
    by rewrite <- app_assoc. }
  assert (Hnot : code t ∉ reverse post).
  { rewrite Ho in Hnd. apply NoDup_app in Hnd as (_ & Hd & _).
    intros Hin. apply (Hd _ Hin). left. }
  rewrite Ho in Hso. apply elem_of_app in Hso as [Hso|Hso].
  - destruct Hnot. rewrite Ho in Htopo.
    by apply (topo_prefixe b ts (reverse post) (code t :: reverse pre) s t).
  - apply elem_of_cons in Hso as [Hso|Hso].
    + destruct Hnot. rewrite Ho, <- Hso in Htopo.
      apply (Htopo (reverse post) (code s) (reverse pre) s t); [reflexivity|done..].
    + rewrite elem_of_reverse in Hso. exact Hso.
Qed.

Lemma valeurs_non_vide (m : gmap string Z) k v :
  m !! k = Some v → ∃ x xs, (map_to_list m).*2 = x :: xs.
Proof.
  intros H. apply elem_of_map_to_list in H.
  destruct (map_to_list m) as [|[k' v'] l]; [by inversion H|].
  by exists v', (l.*2).
Qed.

Section PasseArriere.
Context (b : Base) (ts : list Tache) (Hbf : bien_forme b ts).

Lemma tard_finale_spec e t :
  coherent b ts e → t ∈ ts →
  is_Some (dates_fin_tot (self e) !! code t) →
  ∃ e', tard_finale t e = Val tt e' ∧ coherent b ts e' ∧
    dates_debut_tot (self e') = dates_debut_tot (self e) ∧
    dates_fin_tot (self e') = dates_fin_tot (self e) ∧
    match successeurs b t with
    | [] => ∃ v, dates_fin_tot (self e) !! code t = Some v ∧
                 dates_fin_tard (self e')
                 = <[code t := v]> (dates_fin_tard (self e)) ∧
                 dates_debut_tard (self e')
                 = <[code t := v - duree t]> (dates_debut_tard (self e))
    | _ :: _ => e' = e
    end.
Proof.
  intros Hcoh Ht [v Hv].
  unfold tard_finale. rewrite bind_get.
  pose proof Hcoh as (_ & _ & Hb). rewrite Hb.
  destruct (successeurs b t) as [|s0 ss].
  - unfold bind, lire. rewrite Hv. unfold ret, pose_fin_tard, modify, get.
    cbn [self sur_self sur_fin_tard dates_fin_tard].
    rewrite lookup_insert_eq. unfold pose_debut_tard, modify.
    eexists. split; [done|].
    cbn [self sur_self sur_fin_tard sur_debut_tard dates_fin_tard
           dates_debut_tard dates_debut_tot dates_fin_tot].
    split_and!; [|done..|].
    + by repeat apply coherent_sur_self.
    + by exists v.
  - exists e. done.
Qed.

Lemma tard_etape_spec e t :
  coherent b ts e → t ∈ ts →
  (∀ s, s ∈ successeurs b t → is_Some (dates_debut_tard (self e) !! code s)) →
  is_Some (dates_fin_tard (self e) !! code t) →
  ∃ e' v, tard_etape (code t) e = Val tt e' ∧ coherent b ts e' ∧
    dates_debut_tot (self e') = dates_debut_tot (self e) ∧
    dates_fin_tot (self e') = dates_fin_tot (self e) ∧
    dates_fin_tard (self e') = <[code t := v]> (dates_fin_tard (self e)) ∧
    dates_debut_tard (self e')
    = <[code t := v - duree t]> (dates_debut_tard (self e)) ∧
    match successeurs b t with
    | [] => dates_fin_tard (self e) !! code t = Some v
    | _ :: _ =>
        (∀ s, s ∈ successeurs b t →
           ∃ w, dates_debut_tard (self e) !! code s = Some w ∧ v ≤ w) ∧
        (∃ s, s ∈ successeurs b t ∧
              dates_debut_tard (self e) !! code s = Some v)
    end.
Proof.
  intros Hcoh Ht Hsuccs [lf Hlf].
  unfold tard_etape. rewrite bind_get. unfold bind at 1, lire at 1.
  rewrite (dict_bf b ts Hbf e t Hcoh Ht). unfold ret at 1.
  pose proof Hcoh as (_ & _ & Hb). rewrite Hb.
  destruct (successeurs b t) as [|s0 ss] eqn:Hs.
  - unfold bind, ret, get, lire. rewrite Hlf.
    unfold ret, pose_debut_tard, modify.
    eexists _, lf. split; [done|].
    cbn [self sur_self sur_fin_tard sur_debut_tard dates_fin_tard
           dates_debut_tard dates_debut_tot dates_fin_tot].
    split_and!; [|done..| |done|done].
    + by repeat apply coherent_sur_self.
    + symmetry. by apply insert_id.
  - destruct (lire_tous_val (dates_debut_tard (self e)) (code <$> s0 :: ss) e)
      as (vs & Hrun & Hall).
    { intros k Hk. apply list_elem_of_fmap in Hk as (d & -> & Hin).
      by apply Hsuccs. }
    destruct (Forall2_codes _ _ _ Hall) as [Hfwd Hbwd].
    destruct vs as [|v vs]; [by inversion Hall|].
    destruct (foldl_min_spec v vs) as [Hle Hin].
    unfold bind. rewrite Hrun. cbn [py_min]. unfold ret, pose_fin_tard, modify, get, lire.
    cbn [self sur_self sur_fin_tard dates_fin_tard].
    rewrite lookup_insert_eq. unfold ret, pose_debut_tard, modify.
    eexists _, (foldl Z.min v vs). split; [done|].
    cbn [self sur_self sur_fin_tard sur_debut_tard dates_fin_tard
           dates_debut_tard dates_debut_tot dates_fin_tot].
    split_and!; [|done..| |].
    + by repeat apply coherent_sur_self.
    + intros s Hin'. destruct (Hfwd s Hin') as (w & Hw & Hwin).
      exists w. split; [done|]. by apply Hle.
    + destruct (Hbwd _ Hin) as (s & Hsin & Hsv). by exists s.
Qed.
End PasseArriere.
Section PasseArriereBoucles.
Context (b : Base) (ts : list Tache) (Hbf : bien_forme b ts).

Lemma tard_init_spec e (fin : Z) :
  coherent b ts e →
  ∃ e', for_ ts (λ t, pose_fin_tard (code t) fin ;;;
                      pose_debut_tard (code t) fin) e = Val tt e' ∧
        coherent b ts e' ∧
        dates_debut_tot (self e') = dates_debut_tot (self e) ∧
        dates_fin_tot (self e') = dates_fin_tot (self e) ∧
        ∀ t, t ∈ ts → is_Some (dates_debut_tard (self e') !! code t) ∧
                      is_Some (dates_fin_tard (self e') !! code t).
Proof.
  intros Hcoh.
  pose (I := λ (pre : list Tache) (e' : Etat),
    coherent b ts e' ∧
    dates_debut_tot (self e') = dates_debut_tot (self e) ∧
    dates_fin_tot (self e') = dates_fin_tot (self e) ∧
    ∀ t, t ∈ pre → is_Some (dates_debut_tard (self e') !! code t) ∧
                   is_Some (dates_fin_tard (self e') !! code t)).
  destruct (for_inv I ts
    (λ t, pose_fin_tard (code t) fin ;;; pose_debut_tard (code t) fin) e)
    as (e' & Hrun & HI).
  - unfold I. split_and!; try done. intros t Ht. by inversion Ht.
  - intros pre x post s _ (Hc & H1 & H2 & H3).
    eexists. split; [done|]. unfold I.
    cbn [self sur_self sur_fin_tard sur_debut_tard dates_debut_tard
           dates_fin_tard dates_fin_tot dates_debut_tot].
    split_and!; [|done..|].
    + by repeat apply coherent_sur_self.
    + intros t Ht. rewrite !lookup_insert_is_Some.
      destruct (decide (code x = code t)); [by split; left|].
      apply elem_of_app in Ht as [Ht|Ht].
      * destruct (H3 t Ht). by split; right.
      * apply list_elem_of_singleton in Ht. by subst.
  - exists e'. done.
Qed.

Lemma tard_finales_spec e :
  coherent b ts e →
  (∀ t, t ∈ ts → is_Some (dates_fin_tot (self e) !! code t)) →
  (∀ t, t ∈ ts → is_Some (dates_debut_tard (self e) !! code t) ∧
                 is_Some (dates_fin_tard (self e) !! code t)) →
  ∃ e', for_ ts tard_finale e = Val tt e' ∧
        coherent b ts e' ∧
        dates_debut_tot (self e') = dates_debut_tot (self e) ∧
        dates_fin_tot (self e') = dates_fin_tot (self e) ∧
        (∀ t, t ∈ ts → is_Some (dates_debut_tard (self e') !! code t) ∧
                       is_Some (dates_fin_tard (self e') !! code t)) ∧
        ∀ t, t ∈ ts → successeurs b t = [] →
          ∃ v, dates_fin_tot (self e) !! code t = Some v ∧
               dates_fin_tard (self e') !! code t = Some v.
Proof.
  intros Hcoh Hef Hkeys.
  pose (I := λ (pre : list Tache) (e' : Etat),
    coherent b ts e' ∧
    dates_debut_tot (self e') = dates_debut_tot (self e) ∧
    dates_fin_tot (self e') = dates_fin_tot (self e) ∧
    (∀ t, t ∈ ts → is_Some (dates_debut_tard (self e') !! code t) ∧
                   is_Some (dates_fin_tard (self e') !! code t)) ∧
    ∀ t, t ∈ pre → successeurs b t = [] →
      ∃ v, dates_fin_tot (self e) !! code t = Some v ∧
           dates_fin_tard (self e') !! code t = Some v).
  destruct (for_inv I ts tard_finale e) as (e' & Hrun & HI).
  - unfold I. split_and!; try done. intros t Ht. by inversion Ht.
  - intros pre x post s Hl (Hc & H1 & H2 & H3 & H4).
    assert (Hx : x ∈ ts) by (rewrite Hl; apply elem_of_app; right; left).
    destruct (tard_finale_spec b ts s x Hc Hx) as (s' & Hrun & Hc' & H1' & H2' & Hcas).
    { rewrite H2. by apply Hef. }
    exists s'. split; [done|]. unfold I.
    split_and!; [done|congruence|congruence| |].
    + destruct (successeurs b x) as [|s0 ss]; [|by subst].
      destruct Hcas as (v & _ & -> & ->). intros t Ht.
      rewrite !lookup_insert_is_Some.
      destruct (decide (code x = code t)); [by split; left|].
      destruct (H3 t Ht). by split; right.
    + intros t Ht Hsink.
      destruct (successeurs b x) as [|s0 ss] eqn:Hsx.
      * destruct Hcas as (v & Hv & -> & _). rewrite H2 in Hv.
        destruct (decide (code x = code t)) as [Heq|Hne].
        -- exists v. rewrite <- Heq. by rewrite lookup_insert_eq.
        -- rewrite lookup_insert_ne by done.
           apply elem_of_app in Ht as [Ht|Ht]; [by apply H4|].
           apply list_elem_of_singleton in Ht. by subst.
      * subst s'. apply elem_of_app in Ht as [Ht|Ht]; [by apply H4|].
        apply list_elem_of_singleton in Ht. subst. congruence.
  - exists e'. destruct HI as (? & ? & ? & ? & ?). split_and!; try done.
Qed.

Lemma calculer_dates_tard_spec e :
  coherent b ts e → acyclique b ts → ts ≠ [] →
  (∀ t, t ∈ ts → is_Some (dates_fin_tot (self e) !! code t)) →
  ∃ e', _calculer_dates_tard e = Val tt e' ∧
        coherent b ts e' ∧
        dates_debut_tot (self e') = dates_debut_tot (self e) ∧
        dates_fin_tot (self e') = dates_fin_tot (self e) ∧
        ∀ t, t ∈ ts →
          tard_ok b (dates_fin_tot (self e')) (dates_debut_tard (self e'))
                  (dates_fin_tard (self e')) t.
Proof.
  intros Hcoh Hac Hne Hef.
  assert (Hmax : ∃ x xs, (map_to_list (dates_fin_tot (self e))).*2 = x :: xs).
  { destruct ts as [|t0 ts']; [done|].
    destruct (Hef t0) as [v Hv]; [left|]. by eapply valeurs_non_vide. }
  destruct Hmax as (x & xs & Hmax).
  destruct (tard_init_spec e (foldl Z.max x xs) Hcoh)
    as (e1 & Hinit & Hcoh1 & Hes1 & Hef1 & Hkeys1).
  destruct (tard_finales_spec e1 Hcoh1) as (e2 & Hfin & Hcoh2 & Hes2 & Hef2 & Hkeys2 & Hsinks2).
  { intros t Ht. rewrite Hef1. by apply Hef. }
  { done. }
  destruct (tri_topologique_spec b ts e2 Hbf Hcoh2)
    as (o & Htri & Hnd & Hcodes & Hfile & Htopo).
  pose proof (tri_complet b ts o Hbf Hac Hfile) as Hcomplet.
  pose (I := λ (pre : list string) (e' : Etat),
    coherent b ts e' ∧
    dates_debut_tot (self e') = dates_debut_tot (self e) ∧
    dates_fin_tot (self e') = dates_fin_tot (self e) ∧
    (∀ t, t ∈ ts → is_Some (dates_debut_tard (self e') !! code t) ∧
                   is_Some (dates_fin_tard (self e') !! code t)) ∧
    (∀ t, t ∈ ts → successeurs b t = [] →
       ∃ v, dates_fin_tot (self e) !! code t = Some v ∧
            dates_fin_tard (self e') !! code t = Some v) ∧
    ∀ t, t ∈ ts → code t ∈ pre →
      tard_ok b (dates_fin_tot (self e)) (dates_debut_tard (self e'))
              (dates_fin_tard (self e')) t).
  destruct (for_inv I (reverse o) tard_etape e2) as (e' & Hrun & HI).
  - unfold I. split_and!; try congruence; try done.
    + intros t Ht Hs. destruct (Hsinks2 t Ht Hs) as (v & Hv1 & Hv2).
      exists v. split; [|done]. by rewrite <- Hef1.
    + intros t _ Hin. by inversion Hin.
  - intros pre c post s Ho (Hc & H1 & H2 & H3 & H4 & H5).
    assert (Hcin : c ∈ code <$> ts).
    { apply Hcodes, elem_of_reverse. rewrite Ho. apply elem_of_app. right. left. }
    apply list_elem_of_fmap in Hcin as (t & -> & Ht).
    assert (Hndr : NoDup (pre ++ code t :: post)).
    { rewrite <- Ho. by rewrite reverse_Permutation. }
    assert (Hcpre : code t ∉ pre).
    { apply NoDup_app in Hndr as (_ & Hd & _).
      intros Hin. apply (Hd _ Hin). left. }
    assert (Hspre : ∀ t' s', t' ∈ ts → code t' = code t ∨ code t' ∈ pre →
              s' ∈ successeurs b t' → code s' ∈ pre).
    { intros t' s' Ht' Hcas Hs'.
      assert (Hs'ts : s' ∈ ts) by (by apply (bf_succs _ _ Hbf t')).
      assert (Hdep : t' ∈ dependances b s')
        by (by apply (successeur_dependance b ts Hbf t' s')).
      destruct Hcas as [Heq|Hin].
      - rewrite <- Heq in Ho.
        by apply (topo_inverse b ts o pre post t' s'); auto.
      - apply list_elem_of_split in Hin as (p1 & p2 & ->).
        rewrite <- app_assoc in Ho. cbn [app] in Ho.
        apply elem_of_app. left.
        by apply (topo_inverse b ts o p1 (p2 ++ code t :: post) t' s'); auto. }
    destruct (tard_etape_spec b ts Hbf s t Hc Ht)
      as (s' & v & Hstep & Hc' & H1' & H2' & HLF & HLS & Hcas).
    { intros s0 Hs0. apply H3. by apply (bf_succs _ _ Hbf t). }
    { by apply H3. }
    exists s'. split; [exact Hstep|]. unfold I. rewrite HLF, HLS.
    split_and!; [done|congruence|congruence| | |].
    + intros t' Ht'. rewrite !lookup_insert_is_Some.
      destruct (decide (code t = code t')); [by split; left|].
      destruct (H3 t' Ht'). by split; right.
    + intros t' Ht' Hsink. destruct (H4 t' Ht' Hsink) as (w & Hw1 & Hw2).
      exists w. split; [done|].
      destruct (decide (code t = code t')) as [Heq|Hneq];
        [|by rewrite lookup_insert_ne].
      assert (t' = t) as -> by (by apply (bf_code_inj b ts)).
      rewrite lookup_insert_eq. rewrite Hsink in Hcas. congruence.
    + intros t' Ht' Hin. apply elem_of_app in Hin as [Hin|Hin].
      * assert (Hneq : code t ≠ code t') by (intros Heq'; by rewrite Heq' in Hcpre).
        destruct (H5 t' Ht' Hin) as (v' & Hv1 & Hv2 & Hv3).
        exists v'. rewrite !lookup_insert_ne by done. split_and!; [done..|].
        eapply eq_tard_ext; [|exact Hv3].
        intros s0 Hs0. apply lookup_insert_ne. intros Heq'.
        apply Hcpre. rewrite Heq'. apply (Hspre t' s0); auto.
      * apply list_elem_of_singleton in Hin.
        assert (t' = t) as -> by (by apply (bf_code_inj b ts)).
        exists v. rewrite !lookup_insert_eq. split_and!; [done..|].
        assert (Hext : eq_tard b (dates_fin_tot (self e))
                         (dates_debut_tard (self s)) t v).
        { unfold eq_tard. destruct (successeurs b t) as [|s0 ss] eqn:Hst; [|done].
          destruct (H4 t Ht Hst) as (w & Hw1 & Hw2). congruence. }
        eapply eq_tard_ext; [|exact Hext].
        intros s0 Hs0. apply lookup_insert_ne. intros Heq'.
        apply Hcpre. rewrite Heq'. apply (Hspre t s0); auto.
  - exists e'. split.
    + unfold _calculer_dates_tard. rewrite bind_get. rewrite Hmax.
      cbn [py_max]. unfold bind at 1, ret at 1.
      destruct Hcoh as (Hts & _ & _). rewrite Hts.
      rewrite (bind_Val _ _ _ _ _ Hinit), (bind_Val _ _ _ _ _ Hfin).
      rewrite (bind_Val _ _ _ _ _ Htri). exact Hrun.
    + destruct HI as (Hc & H1 & H2 & H3 & H4 & H5). split_and!; try done.
      intros t Ht. rewrite H2. apply H5; [done|].
      apply elem_of_reverse. by apply Hcomplet.
Qed.
End PasseArriereBoucles.
(** ** Margins and saving *)

Lemma seq_split (n : nat) pre x post :
  seq 0 n = pre ++ x :: post → x = length pre ∧ (x < n)%nat.
Proof.
  intros H.
  assert (Hx : seq 0 n !! length pre = Some x).
  { rewrite H. by apply list_lookup_middle. }
  apply lookup_seq in Hx as [-> Hlt]. split; [done|lia].
Qed.

Lemma pour_chaque_tache_inv (I : nat → Etat → Prop)
    (corps : nat → Tache → M Etat unit) (e : Etat) :
  I 0%nat e →
  (∀ i s, (i < length (taches (self e)))%nat → I i s →
     ∃ t s', taches (self s) !! i = Some t ∧ corps i t s = Val tt s' ∧ I (S i) s') →
  ∃ e', pour_chaque_tache corps e = Val tt e' ∧ I (length (taches (self e))) e'.
Proof.
  intros H0 Hstep. unfold pour_chaque_tache. rewrite bind_get.
  destruct (for_inv (λ pre s, I (length pre) s)
              (seq 0 (length (taches (self e))))
              (λ i, e0 <- get ;;
                    match taches (self e0) !! i with
                    | Some t => corps i t
                    | None => ret tt
                    end) e) as (e' & Hrun & HI).
  - done.
  - intros pre x post s Hl HI.
    apply seq_split in Hl as [-> Hlt].
    destruct (Hstep _ s Hlt HI) as (t & s' & Ht & Hc & HI').
    exists s'. rewrite bind_get, Ht. split; [done|].
    rewrite length_app. cbn [length]. by rewrite Nat.add_1_r.
  - exists e'. split; [done|]. by rewrite length_seq in HI.
Qed.

Section Marges.
Context (b : Base).

Lemma marges_etape_spec e i t ls es fin :
  base e = b → taches (self e) !! i = Some t →
  dates_debut_tard (self e) !! code t = Some ls →
  dates_debut_tot (self e) !! code t = Some es →
  dates_fin_tot (self e) !! code t = Some fin →
  (∀ s, s ∈ successeurs b t → is_Some (dates_debut_tot (self e) !! code s)) →
  ∃ ml, marges_etape i t e
        = Val tt (sur_self (sur_taches
            (λ l, <[i := avec_marge_libre (Some ml)
                           (avec_marge_totale (Some (ls - es)) t)]> l)) e) ∧
        eq_libre b (dates_debut_tot (self e)) (dates_fin_tot (self e)) t
                 (ls - es) ml.
Proof.
  intros Hb Ht Hls Hes Hfin Hsuccs.
  unfold marges_etape. rewrite bind_get. unfold bind at 1, lire at 1.
  rewrite Hls. unfold ret at 1. unfold bind at 1, lire at 1.
  rewrite Hes. unfold ret at 1. unfold bind at 1, modifier_tache at 1, modify.
  rewrite Hb. unfold eq_libre.
  assert (Hlen : (i < length (taches (self e)))%nat) by (by eapply lookup_lt_Some).
  destruct (successeurs b t) as [|s0 ss] eqn:Hs.
  - rewrite bind_get.
    cbn [self sur_self sur_taches taches].
    rewrite list_lookup_alter_eq, Ht. cbn [fmap option_fmap option_map].
    unfold modifier_tache, modify.
    exists (ls - es). split; [|done]. f_equal.
    unfold sur_self, sur_taches. cbn [self base taches taches_dict
      dates_debut_tot dates_fin_tot dates_debut_tard dates_fin_tard].
    do 2 f_equal. apply list_eq. intros j.
    destruct (decide (i = j)) as [<-|Hne].
    + rewrite !list_lookup_alter_eq, Ht.
      by rewrite list_lookup_insert_eq.
    + by rewrite !list_lookup_alter_ne, list_lookup_insert_ne.
  - destruct (lire_tous_val (dates_debut_tot (self e)) (code <$> s0 :: ss)
                (sur_self (sur_taches (alter (avec_marge_totale (Some (ls - es))) i)) e))
      as (vs & Hrun & Hall).
    { intros k Hk. apply list_elem_of_fmap in Hk as (d & -> & Hin).
      by apply Hsuccs. }
    destruct (Forall2_codes _ _ _ Hall) as [Hfwd Hbwd].
    destruct vs as [|v vs]; [by inversion Hall|].
    destruct (foldl_min_spec v vs) as [Hle Hin].
    unfold bind at 1. rewrite Hrun. cbn [py_min]. unfold bind at 1, ret at 1.
    unfold bind at 1, lire at 1. rewrite Hfin. unfold ret at 1.
    unfold modifier_tache, modify.
    exists (foldl Z.min v vs - fin). split.
    + f_equal. unfold sur_self, sur_taches. cbn [self base taches taches_dict
        dates_debut_tot dates_fin_tot dates_debut_tard dates_fin_tard].
      do 2 f_equal. apply list_eq. intros j.
      destruct (decide (i = j)) as [<-|Hne].
      * rewrite !list_lookup_alter_eq, Ht.
        by rewrite list_lookup_insert_eq.
      * by rewrite !list_lookup_alter_ne, list_lookup_insert_ne.
    + exists fin, (foldl Z.min v vs). split_and!; [done..| |].
      * intros s Hin'. destruct (Hfwd s Hin') as (w & Hw & Hwin).
        exists w. split; [done|]. by apply Hle.
      * destruct (Hbwd _ Hin) as (s & Hsin & Hsv). by exists s.
Qed.
End Marges.
Lemma sauvegarder_etape_spec e i t es ef ls lf :
  taches (self e) !! i = Some t →
  dates_debut_tot (self e) !! code t = Some es →
  dates_fin_tot (self e) !! code t = Some ef →
  dates_debut_tard (self e) !! code t = Some ls →
  dates_fin_tard (self e) !! code t = Some lf →
  ∃ b', sauvegarder_etape i t e
        = Val tt (mkEtat
            (sur_taches (λ l, <[i := avec_code (upper (code t))
               (avec_date_fin_tard (Some lf) (avec_date_debut_tard (Some ls)
               (avec_date_fin_tot (Some ef) (avec_date_debut_tot (Some es) t))))]> l)
               (self e)) b') ∧
        liens b' = liens (base e).
Proof.
  intros Ht Hes Hef Hls Hlf.
  assert (Hlen : (i < length (taches (self e)))%nat) by (by eapply lookup_lt_Some).
  unfold sauvegarder_etape. rewrite bind_get.
  unfold bind at 1, lire at 1. rewrite Hes. unfold ret at 1.
  unfold bind at 1, modifier_tache at 1, modify at 1.
  unfold bind at 1, lire at 1. rewrite Hef. unfold ret at 1.
  unfold bind at 1, modifier_tache at 1, modify at 1.
  unfold bind at 1, lire at 1. rewrite Hls. unfold ret at 1.
  unfold bind at 1, modifier_tache at 1, modify at 1.
  unfold bind at 1, lire at 1. rewrite Hlf. unfold ret at 1.
  unfold bind at 1, modifier_tache at 1, modify at 1.
  unfold save, bind, modifier_tache, modify, get.
  cbn [self sur_self sur_taches taches].
  rewrite !list_lookup_alter_eq, Ht. cbn [fmap option_fmap option_map].
  eexists. split.
  - f_equal. unfold sur_base, sur_self, sur_taches.
    cbn [self base taches taches_dict dates_debut_tot dates_fin_tot
           dates_debut_tard dates_fin_tard].
    f_equal. f_equal. apply list_eq. intros j.
    destruct (decide (i = j)) as [<-|Hne].
    + rewrite !list_lookup_alter_eq, Ht. by rewrite list_lookup_insert_eq.
    + by rewrite !list_lookup_alter_ne, list_lookup_insert_ne.
  - cbn [base sur_self]. unfold ecrire_ligne. by case_decide.
Qed.

Lemma resultat_tache_eq es ef ls lf ml t :
  avec_code (upper (code t))
    (avec_date_fin_tard (Some lf) (avec_date_debut_tard (Some ls)
    (avec_date_fin_tot (Some ef) (avec_date_debut_tot (Some es)
    (avec_marge_libre (Some ml) (avec_marge_totale (Some (ls - es)) t))))))
  = resultat_tache es ef ls lf ml t.
Proof. done. Qed.

Section MargesBoucle.
Context (b : Base) (ts : list Tache).

Lemma calculer_marges_spec e :
  base e = b → taches (self e) = ts →
  (∀ t, t ∈ ts →
     is_Some (dates_debut_tot (self e) !! code t) ∧
     is_Some (dates_fin_tot (self e) !! code t) ∧
     is_Some (dates_debut_tard (self e) !! code t)) →
  (∀ t s, t ∈ ts → s ∈ successeurs b t → s ∈ ts) →
  ∃ ts', _calculer_marges e = Val tt (sur_self (sur_taches (λ _, ts')) e) ∧
    length ts' = length ts ∧
    ∀ j t, ts !! j = Some t →
      ∃ es ls ml,
        dates_debut_tot (self e) !! code t = Some es ∧
        dates_debut_tard (self e) !! code t = Some ls ∧
        eq_libre b (dates_debut_tot (self e)) (dates_fin_tot (self e)) t
                 (ls - es) ml ∧
        ts' !! j = Some (avec_marge_libre (Some ml)
                           (avec_marge_totale (Some (ls - es)) t)).
Proof.
  intros Hb Hts Hkeys Hclos.
  pose (I := λ (k : nat) (s : Etat),
    ∃ ts', s = sur_self (sur_taches (λ _, ts')) e ∧
      length ts' = length ts ∧
      ∀ j t, ts !! j = Some t →
        ((k ≤ j)%nat → ts' !! j = Some t) ∧
        ((j < k)%nat →
         ∃ es ls ml,
           dates_debut_tot (self e) !! code t = Some es ∧
           dates_debut_tard (self e) !! code t = Some ls ∧
           eq_libre b (dates_debut_tot (self e)) (dates_fin_tot (self e)) t
                    (ls - es) ml ∧
           ts' !! j = Some (avec_marge_libre (Some ml)
                              (avec_marge_totale (Some (ls - es)) t)))).
  destruct (pour_chaque_tache_inv I marges_etape e) as (e' & Hrun & HI).
  - exists ts. split_and!; [|done|].
    + destruct e as [[] ?]. cbn in Hts. by subst.
    + intros j t Hj. split; [done|lia].
  - intros i s Hi (ts1 & -> & Hlen & H1). rewrite Hts in Hi.
    destruct (lookup_lt_is_Some_2 ts i Hi) as [t Ht].
    assert (Htin : t ∈ ts) by (by eapply list_elem_of_lookup_2).
    destruct (Hkeys t Htin) as ([es Hes] & [fin Hfin] & [ls Hls]).
    destruct (H1 i t Ht) as [Hcur _]. specialize (Hcur (Nat.le_refl _)).
    destruct (marges_etape_spec b (sur_self (sur_taches (λ _, ts1)) e) i t ls es fin)
      as (ml & Hstep & Hlibre); try done.
    { intros s Hs. apply Hkeys. by apply (Hclos t). }
    eexists t, _. split_and!; [done|exact Hstep|].
    eexists. split_and!.
    + unfold sur_self, sur_taches. cbn [self base taches taches_dict
        dates_debut_tot dates_fin_tot dates_debut_tard dates_fin_tard]. done.
    + by rewrite length_insert.
    + intros j t' Hj. destruct (H1 j t' Hj) as [Hge Hlt]. split.
      * intros Hle. rewrite list_lookup_insert_ne by lia. apply Hge. lia.
      * intros Hlt'. destruct (decide (j = i)) as [->|Hne].
        -- assert (t' = t) as -> by congruence.
           exists es, ls, ml. split_and!; [done..|].
           apply list_lookup_insert_eq. lia.
        -- rewrite list_lookup_insert_ne by done. apply Hlt. lia.
  - destruct HI as (ts' & -> & Hlen & H1). exists ts'.
    split_and!; [done..|]. intros j t Hj.
    destruct (H1 j t Hj) as [_ Hlt]. apply Hlt. rewrite Hts.
    by eapply lookup_lt_Some.
Qed.
End MargesBoucle.

Lemma sauvegarder_resultats_spec e :
  (∀ t, t ∈ taches (self e) →
     is_Some (dates_debut_tot (self e) !! code t) ∧
     is_Some (dates_fin_tot (self e) !! code t) ∧
     is_Some (dates_debut_tard (self e) !! code t) ∧
     is_Some (dates_fin_tard (self e) !! code t)) →
  ∃ ts' b', _sauvegarder_resultats e
            = Val tt (mkEtat (sur_taches (λ _, ts') (self e)) b') ∧
    liens b' = liens (base e) ∧
    length ts' = length (taches (self e)) ∧
    ∀ j t, taches (self e) !! j = Some t →
      ∃ es ef ls lf,
        dates_debut_tot (self e) !! code t = Some es ∧
        dates_fin_tot (self e) !! code t = Some ef ∧
        dates_debut_tard (self e) !! code t = Some ls ∧
        dates_fin_tard (self e) !! code t = Some lf ∧
        ts' !! j = Some (avec_code (upper (code t))
          (avec_date_fin_tard (Some lf) (avec_date_debut_tard (Some ls)
          (avec_date_fin_tot (Some ef) (avec_date_debut_tot (Some es) t))))).
Proof.
  intros Hkeys.
  pose (ts := taches (self e)).
  pose (I := λ (k : nat) (s : Etat),
    ∃ ts' b', s = mkEtat (sur_taches (λ _, ts') (self e)) b' ∧
      liens b' = liens (base e) ∧
      length ts' = length ts ∧
      ∀ j t, ts !! j = Some t →
        ((k ≤ j)%nat → ts' !! j = Some t) ∧
        ((j < k)%nat →
         ∃ es ef ls lf,
           dates_debut_tot (self e) !! code t = Some es ∧
           dates_fin_tot (self e) !! code t = Some ef ∧
           dates_debut_tard (self e) !! code t = Some ls ∧
           dates_fin_tard (self e) !! code t = Some lf ∧
           ts' !! j = Some (avec_code (upper (code t))
             (avec_date_fin_tard (Some lf) (avec_date_debut_tard (Some ls)
             (avec_date_fin_tot (Some ef) (avec_date_debut_tot (Some es) t))))))).
  destruct (pour_chaque_tache_inv I sauvegarder_etape e) as (e' & Hrun & HI).
  - exists ts, (base e). split_and!; [|done|done|].
    + by destruct e as [[] ?].
    + intros j t Hj. split; [done|lia].
  - intros i s Hi (ts1 & b1 & -> & Hl & Hlen & H1). fold ts in Hi.
    destruct (lookup_lt_is_Some_2 ts i Hi) as [t Ht].
    assert (Htin : t ∈ ts) by (by eapply list_elem_of_lookup_2).
    destruct (Hkeys t Htin) as ([es Hes] & [ef Hef] & [ls Hls] & [lf Hlf]).
    destruct (H1 i t Ht) as [Hcur _]. specialize (Hcur (Nat.le_refl _)).
    destruct (sauvegarder_etape_spec
                (mkEtat (sur_taches (λ _, ts1) (self e)) b1) i t es ef ls lf)
      as (b2 & Hstep & Hl2); try done.
    eexists t, _. split_and!; [done|exact Hstep|].
    eexists _, b2. split_and!.
    + unfold sur_taches. cbn [self base taches taches_dict
        dates_debut_tot dates_fin_tot dates_debut_tard dates_fin_tard]. done.
    + cbn [base] in Hl2. congruence.
    + by rewrite length_insert.
    + intros j t' Hj. destruct (H1 j t' Hj) as [Hge Hlt]. split.
      * intros Hle. rewrite list_lookup_insert_ne by lia. apply Hge. lia.
      * intros Hlt'. destruct (decide (j = i)) as [->|Hne].
        -- assert (t' = t) as -> by congruence.
           exists es, ef, ls, lf. split_and!; [done..|].
           apply list_lookup_insert_eq. lia.
        -- rewrite list_lookup_insert_ne by done. apply Hlt. lia.
  - destruct HI as (ts' & b' & -> & Hl & Hlen & H1). exists ts', b'.
    split_and!; [done..|]. intros j t Hj.
    destruct (H1 j t Hj) as [_ Hlt]. apply Hlt. by eapply lookup_lt_Some.
Qed.
(** ** Cycles of tasks and cycles of codes *)

Lemma coherent_init b ts : coherent b ts (mkEtat (__init__ ts) b).
Proof. done. Qed.

Lemma depend_arc b ts e x y :
  NoDup (code <$> ts) → coherent b ts e →
  depend b ts x y → arc e (code x) (code y).
Proof.
  intros Hnd (_ & Hd & Hb) (Hx & Hy & Hdep). exists x. split.
  - rewrite Hd. by apply dict_lookup_NoDup.
  - rewrite Hb. by apply list_elem_of_fmap_2.
Qed.

Lemma cyclique_arc b ts e :
  NoDup (code <$> ts) → coherent b ts e →
  cyclique b ts → ∃ c, tc (arc e) c c.
Proof.
  intros Hnd Hcoh (t & Ht). exists (code t).
  assert (G : ∀ x y, tc (depend b ts) x y → tc (arc e) (code x) (code y)).
  { induction 1 as [x y Hxy|x y z Hxy _ IH].
    - apply tc_once. by eapply depend_arc.
    - eapply tc_l; [|exact IH]. by eapply depend_arc. }
  by apply G.
Qed.

Lemma arc_depend b ts e c d :
  bien_forme b ts → coherent b ts e → arc e c d →
  ∃ x y, code x = c ∧ code y = d ∧ depend b ts x y.
Proof.
  intros Hbf Hcoh (t & Ht & Hd).
  destruct (dict_bf_inv b ts e c t Hcoh Ht) as [Hin Hc].
  destruct Hcoh as (_ & _ & Hb). rewrite Hb in Hd.
  apply list_elem_of_fmap in Hd as (y & -> & Hy).
  exists t, y. split_and!; [done..|].
  split_and!; [done| |done]. by apply (bf_deps _ _ Hbf t).
Qed.

Lemma arc_cyclique b ts e :
  bien_forme b ts → coherent b ts e →
  (∃ c, tc (arc e) c c) → cyclique b ts.
Proof.
  intros Hbf Hcoh (c & Hc).
  assert (G : ∀ c d, tc (arc e) c d →
            ∃ x y, code x = c ∧ code y = d ∧ x ∈ ts ∧ y ∈ ts ∧
                   tc (depend b ts) x y).
  { induction 1 as [c' d' Hcd|c' m d' Hcm _ IH].
    - destruct (arc_depend b ts e c' d' Hbf Hcoh Hcd) as (x & y & H1 & H2 & H3).
      exists x, y. split_and!; [done..|apply H3|apply H3|by apply tc_once].
    - destruct (arc_depend b ts e c' m Hbf Hcoh Hcm) as (x & y & H1 & H2 & H3).
      destruct IH as (y' & z & H4 & H5 & H6 & H7 & H8).
      assert (y = y') as <-.
      { apply (bf_code_inj b ts); [done|apply H3|done|congruence]. }
      exists x, z. split_and!; [done..|apply H3|done|].
      by eapply tc_l. }
  destruct (G c c Hc) as (x & y & H1 & H2 & H3 & H4 & H5).
  assert (x = y) as <- by (apply (bf_code_inj b ts); [done..|congruence]).
  by exists x.
Qed.

(** ** A successful run *)

Lemma bind_ret {St A B} (a : A) (f : A → M St B) s : bind (ret a) f s = f a s.
Proof. done. Qed.

Lemma calculer_reussit b ts :
  bien_forme b ts → acyclique b ts → ts ≠ [] →
  ∃ e' (es ef ls lf : gmap string Z),
    lancer b ts = Val true e' ∧
    liens (base e') = liens b ∧
    length (taches (self e')) = length ts ∧
    (∀ t, t ∈ ts → tot_ok b es ef t ∧ tard_ok b ef ls lf t) ∧
    ∀ j t, ts !! j = Some t →
      ∃ ves vef vls vlf vml,
        es !! code t = Some ves ∧ ef !! code t = Some vef ∧
        ls !! code t = Some vls ∧ lf !! code t = Some vlf ∧
        eq_libre b es ef t (vls - ves) vml ∧
        taches (self e') !! j = Some (resultat_tache ves vef vls vlf vml t).
Proof.
  intros Hbf Hac Hne.
  pose (e0 := mkEtat (__init__ ts) b).
  pose proof (coherent_init b ts) as Hcoh0. fold e0 in Hcoh0.
  destruct (has_circular_spec b ts e0 Hcoh0) as (r & Hcirc & Hr).
  assert (r = false) as ->.
  { destruct r; [|done]. exfalso.
    destruct (arc_cyclique b ts e0 Hbf Hcoh0) as (t & Ht); [by apply Hr|].
    by apply (Hac t). }
  destruct (calculer_dates_tot_spec b ts Hbf e0 Hcoh0 Hac)
    as (e1 & Htot & Hcoh1 & _ & _ & Htot_ok).
  destruct (calculer_dates_tard_spec b ts Hbf e1 Hcoh1 Hac Hne)
    as (e2 & Htard & Hcoh2 & Hes2 & Hef2 & Htard_ok).
  { intros t Ht. destruct (Htot_ok t Ht) as (v & _ & Hv & _). by eexists. }
  assert (Htot_ok2 : ∀ t, t ∈ ts →
            tot_ok b (dates_debut_tot (self e2)) (dates_fin_tot (self e2)) t).
  { intros t Ht. rewrite Hes2, Hef2. by apply Htot_ok. }
  pose proof Hcoh2 as (Hts2 & _ & Hb2).
  destruct (calculer_marges_spec b ts e2 Hb2 Hts2) as (ts3 & Hmarges & Hlen3 & H3).
  { intros t Ht. destruct (Htot_ok2 t Ht) as (v & Hv1 & Hv2 & _).
    destruct (Htard_ok t Ht) as (w & _ & Hw & _). split_and!; by eexists. }
  { apply Hbf. }
  set (e3 := sur_self (sur_taches (λ _, ts3)) e2) in *.
  destruct (sauvegarder_resultats_spec e3) as (ts4 & b4 & Hsave & Hl4 & Hlen4 & H4).
  { intros t' Ht'. cbn [e3 self sur_self sur_taches taches dates_debut_tot
      dates_fin_tot dates_debut_tard dates_fin_tard] in Ht' |- *.
    apply list_elem_of_lookup in Ht' as (j & Hj).
    assert (Hjlt : (j < length ts)%nat).
    { rewrite <- Hlen3. by eapply lookup_lt_Some. }
    destruct (lookup_lt_is_Some_2 ts j Hjlt) as [t Ht].
    assert (Htin : t ∈ ts) by (by eapply list_elem_of_lookup_2).
    destruct (H3 j t Ht) as (ves & vls & vml & _ & _ & _ & Hj').
    assert (code t' = code t) as -> by (rewrite Hj in Hj'; by injection Hj' as ->).
    destruct (Htot_ok2 t Htin) as (v & Hv1 & Hv2 & _).
    destruct (Htard_ok t Htin) as (w & Hw1 & Hw2 & _). split_and!; by eexists. }
  exists (mkEtat (sur_taches (λ _, ts4) (self e3)) b4),
    (dates_debut_tot (self e2)), (dates_fin_tot (self e2)),
    (dates_debut_tard (self e2)), (dates_fin_tard (self e2)).
  split_and!.
  - unfold lancer, calculer. rewrite bind_get. cbn [self taches __init__].
    destruct ts as [|t0 ts']; [done|]. unfold essayer.
    fold e0. rewrite (bind_Val _ _ _ _ _ Hcirc).
    rewrite bind_ret.
    rewrite (bind_Val _ _ _ _ _ Htot), (bind_Val _ _ _ _ _ Htard).
    rewrite (bind_Val _ _ _ _ _ Hmarges). fold e3.
    rewrite (bind_Val _ _ _ _ _ Hsave). done.
  - cbn [base]. rewrite Hl4. cbn [e3 base sur_self]. by rewrite Hb2.
  - cbn [self sur_taches taches]. rewrite Hlen4.
    cbn [e3 self sur_self sur_taches taches]. done.
  - intros t Ht. split; [by apply Htot_ok2|by apply Htard_ok].
  - intros j t Ht.
    assert (Htin : t ∈ ts) by (by eapply list_elem_of_lookup_2).
    destruct (H3 j t Ht) as (ves & vls & vml & Hves & Hvls & Hlibre & Hj3).
    destruct (H4 j _ Hj3) as (ves' & vef & vls' & vlf & G1 & G2 & G3 & G4 & G5).
    cbn [e3 self sur_self sur_taches taches dates_debut_tot
      dates_fin_tot dates_debut_tard dates_fin_tard avec_marge_libre
      avec_marge_totale code] in G1, G2, G3, G4.
    assert (ves' = ves) as -> by congruence.
    assert (vls' = vls) as -> by congruence.
    exists ves, vef, vls, vlf, vml. split_and!; [done..|].
    cbn [self sur_taches taches]. rewrite G5. f_equal.
Qed.
(** ** Consequences of the equations *)

Section Equations.
Context (b : Base) (ts : list Tache) (Hbf : bien_forme b ts).
Context (Hac : acyclique b ts).
Context (es ef ls lf : gmap string Z).
Context (Hok : ∀ t, t ∈ ts → tot_ok b es ef t ∧ tard_ok b ef ls lf t).

(** The latest start of a task is never before its earliest start. *)
Lemma marge_positive t v w :
  t ∈ ts → es !! code t = Some v → ls !! code t = Some w → v ≤ w.
Proof.
  revert v w.
  induction (acyclique_Acc_succ b ts Hac t) as [t _ IH].
  intros v w Ht Hv Hw.
  destruct (Hok t Ht) as [(v' & Hv' & Hfin & _) (u & Hu & Hls & Htard)].
  assert (v' = v) as -> by congruence.
  assert (w = u - duree t) as -> by congruence.
  unfold eq_tard in Htard.
  destruct (successeurs b t) as [|s0 ss] eqn:Hs.
  - assert (u = v + duree t) by congruence. lia.
  - destruct Htard as [_ (s & Hsin & Hsv)]. rewrite <- Hs in Hsin.
    assert (Hsts : s ∈ ts) by (by apply (bf_succs _ _ Hbf t)).
    assert (Hdep : t ∈ dependances b s)
      by (by apply (successeur_dependance b ts Hbf t s)).
    destruct (Hok s Hsts) as [(vs & Hvs & _ & Htot) _].
    assert (Hle : vs ≤ u).
    { apply (IH s); [by split_and!|done..]. }
    unfold eq_tot in Htot.
    destruct (dependances b s) as [|d0 ds] eqn:Hd; [by inversion Hdep|].
    destruct Htot as [Hborne _].
    destruct (Hborne t Hdep) as (x & Hx & Hxle).
    assert (x = v + duree t) by congruence. lia.
Qed.

(** A non-empty acyclic collection has a task without successor. *)
Lemma puits_existe : ts ≠ [] → ∃ t, t ∈ ts ∧ successeurs b t = [].
Proof.
  clear Hok. intros Hne. destruct ts as [|t0 ts0] eqn:Hts; [done|]. rewrite <- Hts in *.
  assert (Ht0 : t0 ∈ ts) by (rewrite Hts; left).
  clear Hts Hne. revert Ht0.
  induction (acyclique_Acc_succ b ts Hac t0) as [t _ IH]. intros Ht.
  destruct (successeurs b t) as [|s0 ss] eqn:Hs; [by exists t|].
  assert (Hs0 : s0 ∈ successeurs b t) by (rewrite Hs; left).
  assert (Hsts : s0 ∈ ts) by (by apply (bf_succs _ _ Hbf t)).
  apply (IH s0); [|done]. split_and!; [done..|].
  by apply (successeur_dependance b ts Hbf t s0).
Qed.

(** A task without successor has no slack. *)
Lemma puits_critique t v w :
  t ∈ ts → successeurs b t = [] →
  es !! code t = Some v → ls !! code t = Some w → w - v = 0.
Proof.
  intros Ht Hs Hv Hw.
  destruct (Hok t Ht) as [(v' & Hv' & Hfin & _) (u & Hu & Hls & Htard)].
  unfold eq_tard in Htard. rewrite Hs in Htard.
  assert (v' = v) as -> by congruence.
  assert (u = v + duree t) as -> by congruence.
  assert (w = v + duree t - duree t) by congruence. lia.
Qed.
End Equations.
(** ** From the dictionaries to the tasks of the result *)

Section Resultat.
Context (b : Base) (ts : list Tache) (Hbf : bien_forme b ts).
Context (es ef ls lf : gmap string Z) (ts' : list Tache).
Context (Hlen : length ts' = length ts).
Context (Hres : ∀ j t, ts !! j = Some t →
    ∃ ves vef vls vlf vml,
      es !! code t = Some ves ∧ ef !! code t = Some vef ∧
      ls !! code t = Some vls ∧ lf !! code t = Some vlf ∧
      eq_libre b es ef t (vls - ves) vml ∧
      ts' !! j = Some (resultat_tache ves vef vls vlf vml t)).

Lemma res_inv t' :
  t' ∈ ts' →
  ∃ t ves vef vls vlf vml,
    t ∈ ts ∧ es !! code t = Some ves ∧ ef !! code t = Some vef ∧
    ls !! code t = Some vls ∧ lf !! code t = Some vlf ∧
    eq_libre b es ef t (vls - ves) vml ∧
    t' = resultat_tache ves vef vls vlf vml t.
Proof.
  intros Ht'. apply list_elem_of_lookup in Ht' as (j & Hj).
  assert (Hjlt : (j < length ts)%nat).
  { rewrite <- Hlen. by eapply lookup_lt_Some. }
  destruct (lookup_lt_is_Some_2 ts j Hjlt) as [t Ht].
  destruct (Hres j t Ht) as (ves & vef & vls & vlf & vml & H1 & H2 & H3 & H4 & H5 & H6).
  exists t, ves, vef, vls, vlf, vml. split_and!; try done.
  - by eapply list_elem_of_lookup_2.
  - congruence.
Qed.

Lemma res_dir t :
  t ∈ ts →
  ∃ ves vef vls vlf vml,
    es !! code t = Some ves ∧ ef !! code t = Some vef ∧
    ls !! code t = Some vls ∧ lf !! code t = Some vlf ∧
    resultat_tache ves vef vls vlf vml t ∈ ts'.
Proof.
  intros Ht. apply list_elem_of_lookup in Ht as (j & Hj).
  destruct (Hres j t Hj) as (ves & vef & vls & vlf & vml & H1 & H2 & H3 & H4 & H5 & H6).
  exists ves, vef, vls, vlf, vml. split_and!; try done.
  by eapply list_elem_of_lookup_2.
Qed.

Lemma deps_dans_inv t t' d' :
  pk t' = pk t → d' ∈ dependances_dans b ts' t' →
  ∃ d ves vef vls vlf vml,
    d ∈ dependances b t ∧ d ∈ ts ∧ ef !! code d = Some vef ∧
    d' = resultat_tache ves vef vls vlf vml d.
Proof.
  intros Hpk Hd'. apply list_elem_of_filter in Hd' as [Hl Hd'].
  destruct (res_inv d' Hd') as (d & ves & vef & vls & vlf & vml & Hd & H1 & H2 & _ & _ & _ & ->).
  exists d, ves, vef, vls, vlf, vml. split_and!; try done.
  apply elem_of_dependances. cbn [resultat_tache pk] in Hl.
  rewrite Hpk in Hl. split; [done|]. by apply (bf_table _ _ Hbf).
Qed.

Lemma deps_dans_dir t t' d :
  pk t' = pk t → t ∈ ts → d ∈ dependances b t →
  ∃ ves vef vls vlf vml,
    ef !! code d = Some vef ∧
    resultat_tache ves vef vls vlf vml d ∈ dependances_dans b ts' t'.
Proof.
  intros Hpk Ht Hd.
  assert (Hdts : d ∈ ts) by (by apply (bf_deps _ _ Hbf t)).
  destruct (res_dir d Hdts) as (ves & vef & vls & vlf & vml & H1 & H2 & _ & _ & H5).
  exists ves, vef, vls, vlf, vml. split; [done|].
  apply list_elem_of_filter. split; [|done].
  cbn [resultat_tache pk]. rewrite Hpk.
  by apply elem_of_dependances in Hd as [Hd _].
Qed.

Lemma succs_dans_inv t t' s' :
  pk t' = pk t → s' ∈ successeurs_dans b ts' t' →
  ∃ s ves vef vls vlf vml,
    s ∈ successeurs b t ∧ s ∈ ts ∧
    es !! code s = Some ves ∧ ls !! code s = Some vls ∧
    s' = resultat_tache ves vef vls vlf vml s.
Proof.
  intros Hpk Hs'. apply list_elem_of_filter in Hs' as [Hl Hs'].
  destruct (res_inv s' Hs') as (s & ves & vef & vls & vlf & vml & Hs & H1 & _ & H3 & _ & _ & ->).
  exists s, ves, vef, vls, vlf, vml. split_and!; try done.
  apply elem_of_successeurs. cbn [resultat_tache pk] in Hl.
  rewrite Hpk in Hl. split; [done|]. by apply (bf_table _ _ Hbf).
Qed.

Lemma succs_dans_dir t t' s :
  pk t' = pk t → t ∈ ts → s ∈ successeurs b t →
  ∃ ves vef vls vlf vml,
    es !! code s = Some ves ∧ ls !! code s = Some vls ∧
    resultat_tache ves vef vls vlf vml s ∈ successeurs_dans b ts' t'.
Proof.
  intros Hpk Ht Hs.
  assert (Hsts : s ∈ ts) by (by apply (bf_succs _ _ Hbf t)).
  destruct (res_dir s Hsts) as (ves & vef & vls & vlf & vml & H1 & _ & H3 & _ & H5).
  exists ves, vef, vls, vlf, vml. split_and!; [done..|].
  apply list_elem_of_filter. split; [|done].
  cbn [resultat_tache pk]. rewrite Hpk.
  by apply elem_of_successeurs in Hs as [Hs _].
Qed.

Lemma deps_dans_vide t t' :
  pk t' = pk t → t ∈ ts →
  (dependances_dans b ts' t' = [] ↔ dependances b t = []).
Proof.
  intros Hpk Ht. split; intros Hnil.
  - destruct (dependances b t) as [|d l] eqn:Hd; [done|].
    destruct (deps_dans_dir t t' d Hpk Ht) as (? & ? & ? & ? & ? & _ & Hin).
    { rewrite Hd. left. }
    rewrite Hnil in Hin. by inversion Hin.
  - destruct (dependances_dans b ts' t') as [|d' l] eqn:Hd; [done|].
    destruct (deps_dans_inv t t' d' Hpk) as (d & ? & ? & ? & ? & ? & Hin & _).
    { rewrite Hd. left. }
    rewrite Hnil in Hin. by inversion Hin.
Qed.

Lemma succs_dans_vide t t' :
  pk t' = pk t → t ∈ ts →
  (successeurs_dans b ts' t' = [] ↔ successeurs b t = []).
Proof.
  intros Hpk Ht. split; intros Hnil.
  - destruct (successeurs b t) as [|d l] eqn:Hd; [done|].
    destruct (succs_dans_dir t t' d Hpk Ht) as (? & ? & ? & ? & ? & _ & _ & Hin).
    { rewrite Hd. left. }
    rewrite Hnil in Hin. by inversion Hin.
  - destruct (successeurs_dans b ts' t') as [|d' l] eqn:Hd; [done|].
    destruct (succs_dans_inv t t' d' Hpk) as (d & ? & ? & ? & ? & ? & Hin & _).
    { rewrite Hd. left. }
    rewrite Hnil in Hin. by inversion Hin.
Qed.
End Resultat.
Section Planning.
Context (b : Base) (ts : list Tache) (Hbf : bien_forme b ts).
Context (Hac : acyclique b ts).
Context (es ef ls lf : gmap string Z) (ts' : list Tache).
Context (Hok : ∀ t, t ∈ ts → tot_ok b es ef t ∧ tard_ok b ef ls lf t).
Context (Hlen : length ts' = length ts).
Context (Hres : ∀ j t, ts !! j = Some t →
    ∃ ves vef vls vlf vml,
      es !! code t = Some ves ∧ ef !! code t = Some vef ∧
      ls !! code t = Some vls ∧ lf !! code t = Some vlf ∧
      eq_libre b es ef t (vls - ves) vml ∧
      ts' !! j = Some (resultat_tache ves vef vls vlf vml t)).

Lemma planning_avant t' : t' ∈ ts' → passe_avant_ok b ts' t'.
Proof.
  intros Ht'.
  destruct (res_inv b ts es ef ls lf ts' Hlen Hres t' Ht')
    as (t & ves & vef & vls & vlf & vml & Ht & H1 & H2 & H3 & H4 & H5 & ->).
  destruct (Hok t Ht) as [(v & Hv & Hfin & Htot) _].
  assert (v = ves) as -> by congruence.
  assert (vef = ves + duree t) as -> by congruence.
  set (t' := resultat_tache ves (ves + duree t) vls vlf vml t).
  assert (Hpk : pk t' = pk t) by done.
  exists ves. split_and!; [done..|].
  pose proof (deps_dans_vide b ts Hbf es ef ls lf ts' Hlen Hres t t' Hpk Ht) as Hvide.
  unfold eq_tot in Htot.
  destruct (dependances_dans b ts' t') as [|d0' l'] eqn:Hdd.
  - destruct Hvide as [Hvide _]. by rewrite Hvide in Htot.
  - rewrite <- Hdd.
    destruct (dependances b t) as [|d0 l] eqn:Hd.
    { destruct Hvide as [_ Hvide]. by specialize (Hvide eq_refl). }
    rewrite <- Hd in Htot. destruct Htot as [Hborne (d & Hdin & Hdv)]. split.
    + intros d' Hd'.
      destruct (deps_dans_inv b ts Hbf es ef ls lf ts' Hlen Hres t t' d' Hpk Hd')
        as (d1 & ? & w & ? & ? & ? & Hd1 & _ & Hw & ->).
      destruct (Hborne d1 Hd1) as (bz & Hx & Hxle).
      exists w. split; [done|]. congruence.
    + destruct (deps_dans_dir b ts Hbf es ef ls lf ts' Hres t t' d Hpk Ht Hdin)
        as (? & w & ? & ? & ? & Hw & Hin).
      eexists. split; [exact Hin|]. cbn [resultat_tache date_fin_tot]. congruence.
Qed.

Lemma planning_arriere t' : t' ∈ ts' → passe_arriere_ok b ts' t'.
Proof.
  intros Ht'.
  destruct (res_inv b ts es ef ls lf ts' Hlen Hres t' Ht')
    as (t & ves & vef & vls & vlf & vml & Ht & H1 & H2 & H3 & H4 & H5 & ->).
  destruct (Hok t Ht) as [_ (v & Hv & Hdeb & Htard)].
  assert (v = vlf) as -> by congruence.
  assert (vls = vlf - duree t) as -> by congruence.
  set (t' := resultat_tache ves vef (vlf - duree t) vlf vml t).
  assert (Hpk : pk t' = pk t) by done.
  exists vlf. split_and!; [done..|].
  pose proof (succs_dans_vide b ts Hbf es ef ls lf ts' Hlen Hres t t' Hpk Ht) as Hvide.
  unfold eq_tard in Htard.
  destruct (successeurs_dans b ts' t') as [|d0' l'] eqn:Hdd.
  - destruct Hvide as [Hvide _]. rewrite Hvide in Htard by done.
    cbn [t' resultat_tache date_fin_tot]. congruence.
  - rewrite <- Hdd.
    destruct (successeurs b t) as [|d0 l] eqn:Hd.
    { destruct Hvide as [_ Hvide]. by specialize (Hvide eq_refl). }
    rewrite <- Hd in Htard. destruct Htard as [Hborne (d & Hdin & Hdv)]. split.
    + intros d' Hd'.
      destruct (succs_dans_inv b ts Hbf es ef ls lf ts' Hlen Hres t t' d' Hpk Hd')
        as (d1 & ? & ? & w & ? & ? & Hd1 & _ & _ & Hw & ->).
      destruct (Hborne d1 Hd1) as (bz & Hx & Hxle).
      exists w. split; [done|]. congruence.
    + destruct (succs_dans_dir b ts Hbf es ef ls lf ts' Hres t t' d Hpk Ht Hdin)
        as (? & ? & w & ? & ? & _ & Hw & Hin).
      eexists. split; [exact Hin|]. cbn [resultat_tache date_debut_tard]. congruence.
Qed.

Lemma planning_marge_totale t' : t' ∈ ts' → marge_totale_ok t'.
Proof.
  intros Ht'.
  destruct (res_inv b ts es ef ls lf ts' Hlen Hres t' Ht')
    as (t & ves & vef & vls & vlf & vml & Ht & H1 & H2 & H3 & H4 & H5 & ->).
  exists ves, vls. split_and!; [done..|].
  pose proof (marge_positive b ts Hbf Hac es ef ls lf Hok t ves vls Ht H1 H3). lia.
Qed.


Lemma planning_critique :
  ts ≠ [] → ∃ t', t' ∈ ts' ∧ marge_totale t' = Some 0.
Proof.
  intros Hne.
  destruct (puits_existe b ts Hbf Hac Hne) as (t & Ht & Hs).
  apply list_elem_of_lookup in Ht as (j & Hj).
  destruct (Hres j t Hj) as (ves & vef & vls & vlf & vml & H1 & H2 & H3 & H4 & H5 & H6).
  assert (Ht : t ∈ ts) by (by eapply list_elem_of_lookup_2).
  eexists. split; [by eapply list_elem_of_lookup_2|].
  cbn [resultat_tache marge_totale]. f_equal.
  by apply (puits_critique b ts es ef ls lf Hok t).
Qed.

Lemma planning_dates t' : t' ∈ ts' → is_Some (date_debut_tot t').
Proof.
  intros Ht'.
  destruct (res_inv b ts es ef ls lf ts' Hlen Hres t' Ht')
    as (t & ves & vef & vls & vlf & vml & Ht & H1 & H2 & H3 & H4 & H5 & ->).
  by eexists.
Qed.
End Planning.
(** ** The critical path *)

Lemma est_critique_vrai t : est_critique t = true ↔ marge_totale t = Some 0.
Proof.
  unfold est_critique. destruct (marge_totale t) as [m|]; [|done].
  rewrite bool_decide_eq_true. split; congruence.
Qed.

Lemma inserer_Permutation cle x l : inserer cle x l ≡ₚ x :: l.
Proof.
  induction l as [|y l IH]; [done|]. cbn [inserer].
  case_decide; [done|]. by rewrite IH, Permutation_swap.
Qed.

Lemma tri_stable_Permutation cle l : tri_stable cle l ≡ₚ l.
Proof.
  induction l as [|x l IH]; [done|]. cbn [tri_stable].
  by rewrite inserer_Permutation, IH.
Qed.

Lemma inserer_debut x l :
  is_Some (date_debut_tot x) →
  Forall (λ t, is_Some (date_debut_tot t)) l →
  StronglySorted debut_avant l →
  StronglySorted debut_avant (inserer (λ t, default 0 (date_debut_tot t)) x l).
Proof.
  intros [vx Hx] Hall Hs. induction l as [|y l IH]; cbn [inserer].
  - repeat constructor.
  - apply Forall_cons in Hall as [[vy Hy] Hall].
    apply StronglySorted_inv in Hs as [Hs Hy_le].
    destruct (decide (default 0 (date_debut_tot x) ≤ default 0 (date_debut_tot y)))
      as [Hle|Hgt]; rewrite Hx, Hy in *; simpl in *.
    + constructor; [by constructor|]. constructor.
      * by exists vx, vy.
      * eapply Forall_impl; [exact Hy_le|].
        intros z (v1 & v2 & H1 & H2 & H3). exists vx, v2.
        split_and!; [done..|]. assert (v1 = vy) by congruence. lia.
    + constructor; [by apply IH|].
      rewrite inserer_Permutation. constructor; [|done].
      exists vy, vx. split_and!; [done..|lia].
Qed.

Lemma tri_stable_debut l :
  Forall (λ t, is_Some (date_debut_tot t)) l →
  StronglySorted debut_avant (tri_stable (λ t, default 0 (date_debut_tot t)) l).
Proof.
  induction l as [|x l IH]; intros Hall; cbn [tri_stable]; [constructor|].
  apply Forall_cons in Hall as [Hx Hall].
  apply inserer_debut; [done| |by apply IH].
  by rewrite tri_stable_Permutation.
Qed.

Lemma chemin_critique_spec e :
  (∀ t, t ∈ taches (self e) → is_Some (date_debut_tot t)) →
  ∃ l, get_chemin_critique e = Val l e ∧
       l ≡ₚ filter (λ t, est_critique t = true) (taches (self e)) ∧
       StronglySorted debut_avant l.
Proof.
  intros Hdates. unfold get_chemin_critique. rewrite bind_get.
  assert (Hf : filter (λ t, est_critique t = true) (taches (self e))
               = filter (λ t, marge_totale t = Some 0) (taches (self e))).
  { apply list_filter_iff. intros t. apply est_critique_vrai. }
  rewrite Hf.
  assert (Hall : Forall (λ t, is_Some (date_debut_tot t))
                   (filter (λ t, marge_totale t = Some 0) (taches (self e)))).
  { apply Forall_forall. intros t Ht. apply list_elem_of_filter in Ht as [_ Ht].
    by apply Hdates. }
  destruct (filter (λ t, marge_totale t = Some 0) (taches (self e)))
    as [|x [|y l]] eqn:Hl.
  - exists []. split_and!; [done..|constructor].
  - exists [x]. split_and!; [done..|repeat constructor].
  - unfold sorted_date_debut_tot.
    destruct (decide (Forall (λ t, is_Some (date_debut_tot t)) (x :: y :: l)))
      as [_|Hn]; [|done].
    eexists. split_and!; [done| |by apply tri_stable_debut].
    apply tri_stable_Permutation.
Qed.
(** ** Checking the hypotheses on concrete inputs *)

Lemma bien_forme_b_correct b ts : bien_forme_b b ts = true → bien_forme b ts.
Proof.
  unfold bien_forme_b. rewrite !andb_true_iff, !bool_decide_eq_true.
  intros ((((H1 & H2) & H3) & H4) & H5). constructor; try done.
  - by apply Forall_forall.
  - intros t d Ht Hd. rewrite Forall_forall in H4.
    specialize (H4 t Ht). rewrite Forall_forall in H4. by apply H4.
  - intros t s Ht Hs. rewrite Forall_forall in H5.
    specialize (H5 t Ht). rewrite Forall_forall in H5. by apply H5.
Qed.

Lemma acyclique_par_detection b ts :
  NoDup (code <$> ts) →
  _has_circular_dependency (mkEtat (__init__ ts) b)
  = Val false (mkEtat (__init__ ts) b) →
  acyclique b ts.
Proof.
  intros Hnd Hrun t Ht.
  destruct (has_circular_spec b ts _ (coherent_init b ts)) as (r & Hr & Hiff).
  rewrite Hrun in Hr. injection Hr as <-.
  assert (Hc : false = true); [|done].
  apply Hiff. apply (cyclique_arc b ts); [done|apply coherent_init|by exists t].
Qed.

Lemma lancer_vide b e' : lancer b [] = Val true e' → taches (self e') = [].
Proof. unfold lancer, calculer. cbn. by intros [= <-]. Qed.

(** What a successful run on a well-formed acyclic collection leaves in the
    calculator. *)
Lemma planning b ts e' :
  bien_forme b ts → acyclique b ts → ts ≠ [] → lancer b ts = Val true e' →
  ∃ es ef ls lf : gmap string Z,
    (∀ t, t ∈ ts → tot_ok b es ef t ∧ tard_ok b ef ls lf t) ∧
    length (taches (self e')) = length ts ∧
    ∀ j t, ts !! j = Some t →
      ∃ ves vef vls vlf vml,
        es !! code t = Some ves ∧ ef !! code t = Some vef ∧
        ls !! code t = Some vls ∧ lf !! code t = Some vlf ∧
        eq_libre b es ef t (vls - ves) vml ∧
        taches (self e') !! j = Some (resultat_tache ves vef vls vlf vml t).
Proof.
  intros Hbf Hac Hne Hrun.
  destruct (calculer_reussit b ts Hbf Hac Hne)
    as (e1 & es & ef & ls & lf & Hrun1 & _ & Hlen & Hok & Hres).
  rewrite Hrun in Hrun1. injection Hrun1 as ->.
  by exists es, ef, ls, lf.
Qed.
(** ** The examples of the specification, evaluated *)

Example exemple_chaine :
  lancer chaine (table chaine)
  = Val true (etat_final (lancer chaine (table chaine)) (mkEtat (__init__ []) chaine)) ∧
  dates <$> taches (self (etat_final (lancer chaine (table chaine))
                                     (mkEtat (__init__ []) chaine)))
  = [("A", Some 0, Some 3, Some 0, Some 3, Some 0, Some 0);
     ("B", Some 3, Some 5, Some 3, Some 5, Some 0, Some 0);
     ("C", Some 5, Some 9, Some 5, Some 9, Some 0, Some 0)].
Proof. split; par_calcul. Qed.

Example exemple_parallele :
  taches (self final_parallele) = [resultat_A; resultat_B; resultat_D] ∧
  table (base final_parallele) = [resultat_A; resultat_B; resultat_D].
Proof. split; par_calcul. Qed.

(** The independent task [C] keeps its own earliest finish, 1, as latest
    finish, although the project ends at 8. *)
Example exemple_puits :
  dates <$> taches (self (etat_final (lancer puits (table puits))
                                     (mkEtat (__init__ []) puits)))
  = [("A", Some 0, Some 5, Some 0, Some 5, Some 0, Some 0);
     ("B", Some 5, Some 8, Some 5, Some 8, Some 0, Some 0);
     ("C", Some 0, Some 1, Some 0, Some 1, Some 0, Some 0)].
Proof. par_calcul. Qed.

(** [save] writes the code in upper case. *)
Example exemple_code_majuscule :
  code <$> taches (self (etat_final (lancer (mkBase [tache 1 "a" 2] []) [tache 1 "a" 2])
                                    (mkEtat (__init__ []) (mkBase [] []))))
  = ["A"].
Proof. par_calcul. Qed.

(** * Further properties of the code *)

(** ** The margins and the critical tasks *)

Section EquationsMarges.
Context (b : Base) (ts : list Tache) (Hbf : bien_forme b ts).
Context (Hac : acyclique b ts).
Context (es ef ls lf : gmap string Z).
Context (Hok : ∀ t, t ∈ ts → tot_ok b es ef t ∧ tard_ok b ef ls lf t).

(** The earliest finish of a task is no later than the earliest start of
    each of its successors. *)
Lemma precedence t s v w :
  t ∈ ts → s ∈ successeurs b t →
  ef !! code t = Some v → es !! code s = Some w → v ≤ w.
Proof.
  intros Ht Hs Hv Hw.
  assert (Hsts : s ∈ ts) by (by apply (bf_succs _ _ Hbf t)).
  assert (Hdep : t ∈ dependances b s)
    by (by apply (successeur_dependance b ts Hbf t s)).
  destruct (Hok s Hsts) as [(w' & Hw' & _ & Htot) _].
  assert (w' = w) as -> by congruence.
  unfold eq_tot in Htot.
  destruct (dependances b s) as [|d0 ds] eqn:Hd; [by inversion Hdep|].
  destruct Htot as [Hborne _].
  destruct (Hborne t Hdep) as (x & Hx & Hxle). congruence.
Qed.

Lemma marge_libre_bornee t ves vls vml :
  t ∈ ts → es !! code t = Some ves → ls !! code t = Some vls →
  eq_libre b es ef t (vls - ves) vml → 0 ≤ vml ≤ vls - ves.
Proof.
  intros Ht Hes Hls Hlibre.
  pose proof (marge_positive b ts Hbf Hac es ef ls lf Hok t ves vls Ht Hes Hls) as Hpos.
  destruct (Hok t Ht) as [(v & Hv & Hfin & _) (u & Hu & Hdeb & Htard)].
  assert (v = ves) as -> by congruence.
  assert (vls = u - duree t) as -> by congruence.
  unfold eq_libre in Hlibre. unfold eq_tard in Htard.
  destruct (successeurs b t) as [|s0 ss] eqn:Hs; [lia|].
  rewrite <- Hs in *.
  destruct Hlibre as (fin & m & Hfin' & -> & Hborne & (s1 & Hs1 & Hm)).
  assert (fin = ves + duree t) as -> by congruence.
  destruct Htard as [_ (s2 & Hs2 & Hu2)].
  pose proof (precedence t s1 _ _ Ht Hs1 Hfin Hm) as H1.
  destruct (Hborne s2 Hs2) as (w & Hw & Hmw).
  assert (Hs2ts : s2 ∈ ts) by (by apply (bf_succs _ _ Hbf t)).
  pose proof (marge_positive b ts Hbf Hac es ef ls lf Hok s2 w u Hs2ts Hw Hu2).
  lia.
Qed.

(** A critical task with dependencies has a critical dependency, which
    finishes when it starts. *)
Lemma dependance_critique t ves :
  t ∈ ts → es !! code t = Some ves → ls !! code t = Some ves →
  dependances b t ≠ [] →
  ∃ d vd, d ∈ dependances b t ∧ es !! code d = Some vd ∧
          ls !! code d = Some vd ∧ ef !! code d = Some ves.
Proof.
  intros Ht Hes Hls Hne.
  destruct (Hok t Ht) as [(v & Hv & _ & Htot) _].
  assert (v = ves) as -> by congruence.
  unfold eq_tot in Htot.
  destruct (dependances b t) as [|d0 ds] eqn:Hd; [done|]. rewrite <- Hd in *.
  destruct Htot as [_ (d & Hdin & Hdv)].
  assert (Hdts : d ∈ ts) by (by apply (bf_deps _ _ Hbf t)).
  assert (Hsucc : t ∈ successeurs b d)
    by (by apply (successeur_dependance b ts Hbf d t)).
  destruct (Hok d Hdts) as [(vd & Hvd & Hfd & _) (u & Hu & Hdeb & Htard)].
  exists d, vd. split_and!; [done..| |done].
  unfold eq_tard in Htard.
  destruct (successeurs b d) as [|s0 ss] eqn:Hs; [by inversion Hsucc|].
  rewrite <- Hs in *. destruct Htard as [Hborne _].
  destruct (Hborne t Hsucc) as (w & Hw & Huw).
  pose proof (marge_positive b ts Hbf Hac es ef ls lf Hok d vd _ Hdts Hvd Hdeb).
  assert (w = ves) by congruence.
  assert (ves = vd + duree d) by congruence.
  rewrite Hdeb. f_equal. lia.
Qed.

(** A critical task with successors has a critical successor, which starts
    when it finishes. *)
Lemma successeur_critique t ves vef :
  t ∈ ts → es !! code t = Some ves → ls !! code t = Some ves →
  ef !! code t = Some vef → successeurs b t ≠ [] →
  ∃ s, s ∈ successeurs b t ∧ es !! code s = Some vef ∧
       ls !! code s = Some vef.
Proof.
  intros Ht Hes Hls Hef Hne.
  destruct (Hok t Ht) as [(v & Hv & Hfin & _) (u & Hu & Hdeb & Htard)].
  assert (v = ves) as -> by congruence.
  unfold eq_tard in Htard.
  destruct (successeurs b t) as [|s0 ss] eqn:Hs; [done|]. rewrite <- Hs in *.
  destruct Htard as [_ (s & Hsin & Hsu)].
  assert (Hsts : s ∈ ts) by (by apply (bf_succs _ _ Hbf t)).
  destruct (Hok s Hsts) as [(vs & Hvs & _ & _) _].
  pose proof (precedence t s _ _ Ht Hsin Hef Hvs) as H1.
  pose proof (marge_positive b ts Hbf Hac es ef ls lf Hok s vs u Hsts Hvs Hsu) as H2.
  assert (ves = u - duree t) by congruence.
  assert (vef = ves + duree t) by congruence.
  assert (vs = vef) as -> by lia.
  exists s. split_and!; [done..|]. rewrite Hsu. f_equal. lia.
Qed.
End EquationsMarges.

Section PlanningMarges.
Context (b : Base) (ts : list Tache) (Hbf : bien_forme b ts).
Context (Hac : acyclique b ts).
Context (es ef ls lf : gmap string Z) (ts' : list Tache).
Context (Hok : ∀ t, t ∈ ts → tot_ok b es ef t ∧ tard_ok b ef ls lf t).
Context (Hlen : length ts' = length ts).
Context (Hres : ∀ j t, ts !! j = Some t →
    ∃ ves vef vls vlf vml,
      es !! code t = Some ves ∧ ef !! code t = Some vef ∧
      ls !! code t = Some vls ∧ lf !! code t = Some vlf ∧
      eq_libre b es ef t (vls - ves) vml ∧
      ts' !! j = Some (resultat_tache ves vef vls vlf vml t)).

Lemma planning_marges_encadrees t' :
  t' ∈ ts' →
  ∃ mt ml, marge_totale t' = Some mt ∧ marge_libre t' = Some ml ∧ 0 ≤ ml ≤ mt.
Proof.
  intros Ht'.
  destruct (res_inv b ts es ef ls lf ts' Hlen Hres t' Ht')
    as (t & ves & vef & vls & vlf & vml & Ht & H1 & H2 & H3 & H4 & H5 & ->).
  exists (vls - ves), vml. split_and!; [done..| |];
    by apply (marge_libre_bornee b ts Hbf Hac es ef ls lf Hok t ves vls vml).
Qed.

Lemma planning_dependance_critique t' :
  t' ∈ ts' → marge_totale t' = Some 0 → dependances_dans b ts' t' ≠ [] →
  ∃ d', d' ∈ dependances_dans b ts' t' ∧ marge_totale d' = Some 0 ∧
        date_fin_tot d' = date_debut_tot t'.
Proof.
  intros Ht' Hcrit Hne.
  destruct (res_inv b ts es ef ls lf ts' Hlen Hres t' Ht')
    as (t & ves & vef & vls & vlf & vml & Ht & H1 & H2 & H3 & H4 & H5 & ->).
  set (t' := resultat_tache ves vef vls vlf vml t) in *.
  assert (Hpk : pk t' = pk t) by done.
  cbn [t' resultat_tache marge_totale] in Hcrit.
  assert (vls = ves) as -> by (injection Hcrit; lia).
  assert (Hne0 : dependances b t ≠ []).
  { intros Hnil. apply Hne.
    by apply (deps_dans_vide b ts Hbf es ef ls lf ts' Hlen Hres t t' Hpk Ht). }
  destruct (dependance_critique b ts Hbf Hac es ef ls lf Hok t ves Ht H1 H3 Hne0)
    as (d & vd & Hd & Hde & Hdl & Hdf).
  assert (Hdts : d ∈ ts) by (by apply (bf_deps _ _ Hbf t)).
  destruct (res_dir b ts es ef ls lf ts' Hres d Hdts)
    as (wes & wef & wls & wlf & wml & G1 & G2 & G3 & G4 & Hin).
  exists (resultat_tache wes wef wls wlf wml d). split_and!.
  - apply list_elem_of_filter. split; [|done].
    cbn [resultat_tache pk]. rewrite Hpk.
    by apply elem_of_dependances in Hd as [Hd _].
  - cbn [resultat_tache marge_totale]. f_equal.
    assert (wes = vd) by congruence. assert (wls = vd) by congruence. lia.
  - cbn [t' resultat_tache date_fin_tot date_debut_tot]. congruence.
Qed.

Lemma planning_successeur_critique t' :
  t' ∈ ts' → marge_totale t' = Some 0 → successeurs_dans b ts' t' ≠ [] →
  ∃ s', s' ∈ successeurs_dans b ts' t' ∧ marge_totale s' = Some 0 ∧
        date_debut_tot s' = date_fin_tot t'.
Proof.
  intros Ht' Hcrit Hne.
  destruct (res_inv b ts es ef ls lf ts' Hlen Hres t' Ht')
    as (t & ves & vef & vls & vlf & vml & Ht & H1 & H2 & H3 & H4 & H5 & ->).
  set (t' := resultat_tache ves vef vls vlf vml t) in *.
  assert (Hpk : pk t' = pk t) by done.
  cbn [t' resultat_tache marge_totale] in Hcrit.
  assert (vls = ves) as -> by (injection Hcrit; lia).
  assert (Hne0 : successeurs b t ≠ []).
  { intros Hnil. apply Hne.
    by apply (succs_dans_vide b ts Hbf es ef ls lf ts' Hlen Hres t t' Hpk Ht). }
  destruct (successeur_critique b ts Hbf Hac es ef ls lf Hok t ves vef
              Ht H1 H3 H2 Hne0) as (s & Hs & Hse & Hsl).
  assert (Hsts : s ∈ ts) by (by apply (bf_succs _ _ Hbf t)).
  destruct (res_dir b ts es ef ls lf ts' Hres s Hsts)
    as (wes & wef & wls & wlf & wml & G1 & G2 & G3 & G4 & Hin).
  exists (resultat_tache wes wef wls wlf wml s). split_and!.
  - apply list_elem_of_filter. split; [|done].
    cbn [resultat_tache pk]. rewrite Hpk.
    by apply elem_of_successeurs in Hs as [Hs _].
  - cbn [resultat_tache marge_totale]. f_equal.
    assert (wes = vef) by congruence. assert (wls = vef) by congruence. lia.
  - cbn [t' resultat_tache date_fin_tot date_debut_tot]. congruence.
Qed.
End PlanningMarges.

(** X1 — After a successful run on a well-formed acyclic collection, every
    task has a total and a free slack, and the free slack lies between 0
    and the total slack. *)
Theorem X1_marge_libre_encadree b ts e' :
  bien_forme b ts → acyclique b ts → lancer b ts = Val true e' →
  ∀ t, t ∈ taches (self e') →
    ∃ mt ml, marge_totale t = Some mt ∧ marge_libre t = Some ml ∧ 0 ≤ ml ≤ mt.
Proof.
  intros Hbf Hac Hrun t Ht.
  destruct (decide (ts = [])) as [->|Hne].
  { rewrite (lancer_vide b e' Hrun) in Ht. by inversion Ht. }
  destruct (planning b ts e' Hbf Hac Hne Hrun)
    as (es & ef & ls & lf & Hok & Hlen & Hres).
  by apply (planning_marges_encadrees b ts Hbf Hac es ef ls lf (taches (self e'))
              Hok Hlen Hres).
Qed.

Lemma X1_marge_libre_encadree_witness :
  bien_forme parallele (table parallele) ∧
  acyclique parallele (table parallele) ∧
  lancer parallele (table parallele) = Val true final_parallele ∧
  resultat_B ∈ taches (self final_parallele) ∧
  ∃ mt ml, marge_totale resultat_B = Some mt ∧
           marge_libre resultat_B = Some ml ∧ 0 ≤ ml ≤ mt.
Proof.
  assert (H1 : bien_forme parallele (table parallele))
    by (apply bien_forme_b_correct; par_calcul).
  assert (H2 : acyclique parallele (table parallele))
    by (apply acyclique_par_detection; [apply H1|par_calcul]).
  assert (H3 : lancer parallele (table parallele) = Val true final_parallele)
    by par_calcul.
  assert (H4 : resultat_B ∈ taches (self final_parallele)) by appartient.
  split_and!; [exact H1|exact H2|exact H3|exact H4|].
  exact (X1_marge_libre_encadree parallele (table parallele) _ H1 H2 H3 _ H4).
Defined.

(** X2 — After a successful run on a well-formed acyclic collection, a
    critical task that has dependencies has a critical one among them, and
    that dependency finishes at the earliest exactly when the task starts
    at the earliest. *)
Theorem X2_dependance_critique b ts e' :
  bien_forme b ts → acyclique b ts → lancer b ts = Val true e' →
  ∀ t, t ∈ taches (self e') → est_critique t = true →
    dependances_dans b (taches (self e')) t ≠ [] →
    ∃ d, d ∈ dependances_dans b (taches (self e')) t ∧
         est_critique d = true ∧ date_fin_tot d = date_debut_tot t.
Proof.
  intros Hbf Hac Hrun t Ht Hcrit Hdeps.
  destruct (decide (ts = [])) as [->|Hne].
  { rewrite (lancer_vide b e' Hrun) in Ht. by inversion Ht. }
  destruct (planning b ts e' Hbf Hac Hne Hrun)
    as (es & ef & ls & lf & Hok & Hlen & Hres).
  apply est_critique_vrai in Hcrit.
  destruct (planning_dependance_critique b ts Hbf Hac es ef ls lf
              (taches (self e')) Hok Hlen Hres t Ht Hcrit Hdeps)
    as (d & Hd & Hdc & Hdf).
  exists d. split_and!; [done| |done]. by apply est_critique_vrai.
Qed.

Lemma X2_dependance_critique_witness :
  bien_forme parallele (table parallele) ∧
  acyclique parallele (table parallele) ∧
  lancer parallele (table parallele) = Val true final_parallele ∧
  resultat_D ∈ taches (self final_parallele) ∧
  est_critique resultat_D = true ∧
  dependances_dans parallele (taches (self final_parallele)) resultat_D ≠ [] ∧
  ∃ d, d ∈ dependances_dans parallele (taches (self final_parallele)) resultat_D ∧
       est_critique d = true ∧ date_fin_tot d = date_debut_tot resultat_D.
Proof.
  assert (H1 : bien_forme parallele (table parallele))
    by (apply bien_forme_b_correct; par_calcul).
  assert (H2 : acyclique parallele (table parallele))
    by (apply acyclique_par_detection; [apply H1|par_calcul]).
  assert (H3 : lancer parallele (table parallele) = Val true final_parallele)
    by par_calcul.
  assert (H4 : resultat_D ∈ taches (self final_parallele)) by appartient.
  assert (H5 : est_critique resultat_D = true) by par_calcul.
  assert (H6 : dependances_dans parallele (taches (self final_parallele))
                 resultat_D ≠ []) by (vm_compute; discriminate).
  split_and!; [exact H1|exact H2|exact H3|exact H4|exact H5|exact H6|].
  exact (X2_dependance_critique parallele (table parallele) _ H1 H2 H3 _ H4 H5 H6).
Defined.

(** X3 — After a successful run on a well-formed acyclic collection, a
    critical task that has successors has a critical one among them, and
    that successor starts at the earliest exactly when the task finishes at
    the earliest. *)
Theorem X3_successeur_critique b ts e' :
  bien_forme b ts → acyclique b ts → lancer b ts = Val true e' →
  ∀ t, t ∈ taches (self e') → est_critique t = true →
    successeurs_dans b (taches (self e')) t ≠ [] →
    ∃ s, s ∈ successeurs_dans b (taches (self e')) t ∧
         est_critique s = true ∧ date_debut_tot s = date_fin_tot t.
Proof.
  intros Hbf Hac Hrun t Ht Hcrit Hsuccs.
  destruct (decide (ts = [])) as [->|Hne].
  { rewrite (lancer_vide b e' Hrun) in Ht. by inversion Ht. }
  destruct (planning b ts e' Hbf Hac Hne Hrun)
    as (es & ef & ls & lf & Hok & Hlen & Hres).
  apply est_critique_vrai in Hcrit.
  destruct (planning_successeur_critique b ts Hbf Hac es ef ls lf
              (taches (self e')) Hok Hlen Hres t Ht Hcrit Hsuccs)
    as (s & Hs & Hsc & Hsf).
  exists s. split_and!; [done| |done]. by apply est_critique_vrai.
Qed.

Lemma X3_successeur_critique_witness :
  bien_forme parallele (table parallele) ∧
  acyclique parallele (table parallele) ∧
  lancer parallele (table parallele) = Val true final_parallele ∧
  resultat_A ∈ taches (self final_parallele) ∧
  est_critique resultat_A = true ∧
  successeurs_dans parallele (taches (self final_parallele)) resultat_A ≠ [] ∧
  ∃ s, s ∈ successeurs_dans parallele (taches (self final_parallele)) resultat_A ∧
       est_critique s = true ∧ date_debut_tot s = date_fin_tot resultat_A.
Proof.
  assert (H1 : bien_forme parallele (table parallele))
    by (apply bien_forme_b_correct; par_calcul).
  assert (H2 : acyclique parallele (table parallele))
    by (apply acyclique_par_detection; [apply H1|par_calcul]).
  assert (H3 : lancer parallele (table parallele) = Val true final_parallele)
    by par_calcul.
  assert (H4 : resultat_A ∈ taches (self final_parallele)) by appartient.
  assert (H5 : est_critique resultat_A = true) by par_calcul.
  assert (H6 : successeurs_dans parallele (taches (self final_parallele))
                 resultat_A ≠ []) by (vm_compute; discriminate).
  split_and!; [exact H1|exact H2|exact H3|exact H4|exact H5|exact H6|].
  exact (X3_successeur_critique parallele (table parallele) _ H1 H2 H3 _ H4 H5 H6).
Defined.

(** ** Cycles: the detector and the sort *)




(** X4 — On a well-formed collection, [_has_circular_dependency] returns
    [True] exactly when the dependency graph has a cycle, and [False]
    otherwise; it raises nothing and leaves the calculator and the database
    as they were. *)
Theorem X4_detection_exacte b ts e :
  bien_forme b ts → coherent b ts e →
  ∃ r, _has_circular_dependency e = Val r e ∧ (r = true ↔ cyclique b ts).
Proof.
  intros Hbf Hcoh.
  destruct (has_circular_spec b ts e Hcoh) as (r & Hrun & Hr).
  exists r. split; [done|]. rewrite Hr. split.
  - by apply (arc_cyclique b ts e).
  - apply (cyclique_arc b ts e); [apply Hbf|done].
Qed.

Lemma X4_detection_exacte_witness :
  bien_forme cycle2 (table cycle2) ∧
  coherent cycle2 (table cycle2) (mkEtat (__init__ (table cycle2)) cycle2) ∧
  ∃ r, _has_circular_dependency (mkEtat (__init__ (table cycle2)) cycle2)
       = Val r (mkEtat (__init__ (table cycle2)) cycle2) ∧
       (r = true ↔ cyclique cycle2 (table cycle2)).
Proof.
  assert (H1 : bien_forme cycle2 (table cycle2))
    by (apply bien_forme_b_correct; par_calcul).
  assert (H2 : coherent cycle2 (table cycle2)
                 (mkEtat (__init__ (table cycle2)) cycle2))
    by (split_and!; reflexivity).
  split_and!; [exact H1|exact H2|].
  exact (X4_detection_exacte cycle2 (table cycle2) _ H1 H2).
Defined.



(** ** Rules of partial correctness *)

Lemma triplet_conseq {St A} (P P' : St → Prop) (m : M St A)
    (Q Q' : A → St → Prop) (X X' : St → Prop) :
  triplet P' m Q' X' → (∀ s, P s → P' s) → (∀ a s, Q' a s → Q a s) →
  (∀ s, X' s → X s) → triplet P m Q X.
Proof.
  intros H HP HQ HX s Hs. specialize (H s (HP s Hs)).
  destruct (m s); [by apply HQ|by apply HX|done].
Qed.

Lemma triplet_bind {St A B} (P : St → Prop) (m : M St A) (R : A → St → Prop)
    (f : A → M St B) (Q : B → St → Prop) (X : St → Prop) :
  triplet P m R X → (∀ a, triplet (R a) (f a) Q X) →
  triplet P (bind m f) Q X.
Proof.
  intros Hm Hf s Hs. specialize (Hm s Hs). unfold bind.
  destruct (m s) as [a s'| |]; [|done..]. by apply Hf.
Qed.

Lemma triplet_bind_get {St B} (P : St → Prop) (f : St → M St B)
    (Q : B → St → Prop) (X : St → Prop) :
  (∀ s0, P s0 → triplet P (f s0) Q X) → triplet P (bind get f) Q X.
Proof. intros Hf s Hs. rewrite bind_get. by apply Hf. Qed.

Lemma triplet_ret {St A} (P : St → Prop) (a : A) (Q : A → St → Prop) X :
  (∀ s, P s → Q a s) → triplet P (ret a) Q X.
Proof. intros H s Hs. by apply H. Qed.

Lemma triplet_raise {St A} (P : St → Prop) x (Q : A → St → Prop) (X : St → Prop) :
  (∀ s, P s → X s) → triplet P (raise x) Q X.
Proof. intros H s Hs. by apply H. Qed.

Lemma triplet_modify {St} (P : St → Prop) (f : St → St) (Q : unit → St → Prop) X :
  (∀ s, P s → Q tt (f s)) → triplet P (modify f) Q X.
Proof. intros H s Hs. by apply H. Qed.

Lemma triplet_pur {St A} (J : St → Prop) (m : M St A) :
  pur m → triplet J m (λ _, J) J.
Proof.
  intros Hp s Hs. specialize (Hp s). destruct (m s); by subst.
Qed.

Lemma triplet_for {St X} (I : list X → St → Prop) (l : list X)
    (corps : X → M St unit) (E : St → Prop) :
  (∀ pre x post, l = pre ++ x :: post →
     triplet (I pre) (corps x) (λ _, I (pre ++ [x])) E) →
  triplet (I []) (for_ l corps) (λ _, I l) E.
Proof.
  intros Hstep.
  assert (G : ∀ post pre, l = pre ++ post →
            triplet (I pre) (for_ post corps) (λ _, I l) E).
  { induction post as [|x post IH]; intros pre Hl.
    - rewrite app_nil_r in Hl. subst. by apply triplet_ret.
    - cbn [for_]. eapply triplet_bind; [by apply (Hstep pre x post)|].
      intros ?. apply IH. by rewrite <- app_assoc. }
  by apply (G l []).
Qed.

Lemma triplet_for_inv {St X} (J : St → Prop) (l : list X)
    (corps : X → M St unit) :
  (∀ x, triplet J (corps x) (λ _, J) J) → triplet J (for_ l corps) (λ _, J) J.
Proof.
  intros Hstep. apply (triplet_for (λ _, J)). intros. apply Hstep.
Qed.

Lemma pur_ret {St A} (a : A) : pur (ret (St := St) a).
Proof. by intros s. Qed.
Lemma pur_raise {St A} x : pur (raise (St := St) (A := A) x).
Proof. by intros s. Qed.
Lemma pur_get {St} : pur (get (St := St)).
Proof. by intros s. Qed.
Lemma pur_lire {St V} (d : gmap string V) k : pur (lire (St := St) d k).
Proof. intros s. unfold lire. by destruct (d !! k). Qed.
Lemma pur_py_max {St} l : pur (py_max (St := St) l).
Proof. intros s. by destruct l. Qed.
Lemma pur_py_min {St} l : pur (py_min (St := St) l).
Proof. intros s. by destruct l. Qed.
Lemma pur_localement {St L A} (s0 : L) (m : M L A) :
  pur (localement (St := St) s0 m).
Proof. intros s. unfold localement. by destruct (m s0). Qed.

Lemma pur_bind {St A B} (m : M St A) (f : A → M St B) :
  pur m → (∀ a, pur (f a)) → pur (bind m f).
Proof.
  intros Hm Hf s. specialize (Hm s). unfold bind.
  destruct (m s) as [a s'| |]; [|done..]. subst. apply Hf.
Qed.

Lemma pur_lire_tous {St} d l : pur (lire_tous (St := St) d l).
Proof.
  induction l as [|k l IH]; cbn [lire_tous]; [apply pur_ret|].
  apply pur_bind; [apply pur_lire|]. intros v.
  apply pur_bind; [apply IH|]. intros vs. apply pur_ret.
Qed.

Lemma pur_has_circular_dependency : pur _has_circular_dependency.
Proof.
  unfold _has_circular_dependency. apply pur_bind; [apply pur_get|].
  intros e. apply pur_localement.
Qed.

Lemma pur_tri_topologique : pur _tri_topologique.
Proof.
  unfold _tri_topologique. apply pur_bind; [apply pur_get|].
  intros e. apply pur_localement.
Qed.

(** ** What the methods before [_sauvegarder_resultats] keep *)

Section Stable.
Context (J : Etat → Prop) (HJ : clos J).

Lemma inv_pose_debut_tot k v : triplet J (pose_debut_tot k v) (λ _, J) J.
Proof. apply triplet_modify. intros s. apply (clos_debut_tot J HJ). Qed.
Lemma inv_pose_fin_tot k v : triplet J (pose_fin_tot k v) (λ _, J) J.
Proof. apply triplet_modify. intros s. apply (clos_fin_tot J HJ). Qed.
Lemma inv_pose_debut_tard k v : triplet J (pose_debut_tard k v) (λ _, J) J.
Proof. apply triplet_modify. intros s. apply (clos_debut_tard J HJ). Qed.
Lemma inv_pose_fin_tard k v : triplet J (pose_fin_tard k v) (λ _, J) J.
Proof. apply triplet_modify. intros s. apply (clos_fin_tard J HJ). Qed.
Lemma inv_marge_totale i v :
  triplet J (modifier_tache i (avec_marge_totale v)) (λ _, J) J.
Proof. apply triplet_modify. intros s. apply (clos_marge_totale J HJ). Qed.
Lemma inv_marge_libre i v :
  triplet J (modifier_tache i (avec_marge_libre v)) (λ _, J) J.
Proof. apply triplet_modify. intros s. apply (clos_marge_libre J HJ). Qed.

Lemma inv_tot_etape c : triplet J (tot_etape c) (λ _, J) J.
Proof.
  unfold tot_etape. apply triplet_bind_get. intros e _.
  apply (triplet_bind J _ (λ _, J)); [apply triplet_pur, pur_lire|]. intros tache.
  apply (triplet_bind J _ (λ _, J)).
  { destruct (dependances (base e) tache) as [|d ds].
    - apply inv_pose_debut_tot.
    - apply (triplet_bind J _ (λ _, J)); [apply triplet_pur, pur_lire_tous|]. intros fins.
      apply (triplet_bind J _ (λ _, J)); [apply triplet_pur, pur_py_max|]. intros m.
      apply inv_pose_debut_tot. }
  intros ?. apply triplet_bind_get. intros e' _.
  apply (triplet_bind J _ (λ _, J)); [apply triplet_pur, pur_lire|]. intros debut.
  apply inv_pose_fin_tot.
Qed.

Lemma inv_tard_finale t : triplet J (tard_finale t) (λ _, J) J.
Proof.
  unfold tard_finale. apply triplet_bind_get. intros e _.
  destruct (successeurs (base e) t) as [|s ss]; [|by apply triplet_ret].
  apply (triplet_bind J _ (λ _, J)); [apply triplet_pur, pur_lire|]. intros fin.
  apply (triplet_bind J _ (λ _, J)); [apply inv_pose_fin_tard|]. intros ?.
  apply triplet_bind_get. intros e' _.
  apply (triplet_bind J _ (λ _, J)); [apply triplet_pur, pur_lire|]. intros fin_tard.
  apply inv_pose_debut_tard.
Qed.

Lemma inv_tard_etape c : triplet J (tard_etape c) (λ _, J) J.
Proof.
  unfold tard_etape. apply triplet_bind_get. intros e _.
  apply (triplet_bind J _ (λ _, J)); [apply triplet_pur, pur_lire|]. intros tache.
  apply (triplet_bind J _ (λ _, J)).
  { destruct (successeurs (base e) tache) as [|d ds].
    - by apply triplet_ret.
    - apply (triplet_bind J _ (λ _, J)); [apply triplet_pur, pur_lire_tous|]. intros debuts.
      apply (triplet_bind J _ (λ _, J)); [apply triplet_pur, pur_py_min|]. intros m.
      apply inv_pose_fin_tard. }
  intros ?. apply triplet_bind_get. intros e' _.
  apply (triplet_bind J _ (λ _, J)); [apply triplet_pur, pur_lire|]. intros fin_tard.
  apply inv_pose_debut_tard.
Qed.

Lemma inv_marges_etape i t : triplet J (marges_etape i t) (λ _, J) J.
Proof.
  unfold marges_etape. apply triplet_bind_get. intros e _.
  apply (triplet_bind J _ (λ _, J)); [apply triplet_pur, pur_lire|]. intros debut_tard.
  apply (triplet_bind J _ (λ _, J)); [apply triplet_pur, pur_lire|]. intros debut_tot.
  apply (triplet_bind J _ (λ _, J)); [apply inv_marge_totale|]. intros ?.
  destruct (successeurs (base e) t) as [|s ss].
  - apply triplet_bind_get. intros e' _.
    destruct (taches (self e') !! i) as [t'|]; [|by apply triplet_ret].
    apply inv_marge_libre.
  - apply (triplet_bind J _ (λ _, J)); [apply triplet_pur, pur_lire_tous|]. intros debuts.
    apply (triplet_bind J _ (λ _, J)); [apply triplet_pur, pur_py_min|]. intros m.
    apply (triplet_bind J _ (λ _, J)); [apply triplet_pur, pur_lire|]. intros fin_tot.
    apply inv_marge_libre.
Qed.

Lemma inv_calculer_marges : triplet J _calculer_marges (λ _, J) J.
Proof.
  unfold _calculer_marges, pour_chaque_tache.
  apply triplet_bind_get. intros e0 _. apply triplet_for_inv. intros i.
  apply triplet_bind_get. intros e _.
  destruct (taches (self e) !! i) as [t|]; [|by apply triplet_ret].
  apply inv_marges_etape.
Qed.
End Stable.

Lemma clos_et (J K : Etat → Prop) : clos J → clos K → clos (λ s, J s ∧ K s).
Proof.
  intros [] []. constructor; intros ? ? s [? ?]; split; auto.
Qed.

Lemma clos_couvre_tot cs : clos (couvre_tot cs).
Proof.
  constructor; intros k v s H; try exact H; intros c Hc;
    destruct (H c Hc) as [H1 H2]; split; try done;
    cbn [self sur_self sur_debut_tot sur_fin_tot dates_debut_tot dates_fin_tot];
    rewrite lookup_insert_is_Some; destruct (decide (k = c)); auto.
Qed.

Lemma clos_couvre_tard cs : clos (couvre_tard cs).
Proof.
  constructor; intros k v s H; try exact H; intros c Hc;
    destruct (H c Hc) as [H1 H2]; split; try done;
    cbn [self sur_self sur_debut_tard sur_fin_tard dates_debut_tard dates_fin_tard];
    rewrite lookup_insert_is_Some; destruct (decide (k = c)); auto.
Qed.

Lemma memes_dates_refl t : memes_dates t t.
Proof. by repeat split. Qed.

Lemma fige_refl e : fige e e.
Proof.
  split_and!; [done..|]. apply Forall2_same_length_lookup_2; [done|].
  intros i x y Hx Hy. assert (x = y) as -> by congruence. apply memes_dates_refl.
Qed.

Lemma clos_fige e : clos (fige e).
Proof.
  constructor; intros k v s (Hb & Hd & Hts); split_and!; try done.
  - cbn [self sur_self sur_taches taches]. apply Forall2_alter_r; [done|].
    intros x y _ _ H. exact H.
  - cbn [self sur_self sur_taches taches]. apply Forall2_alter_r; [done|].
    intros x y _ _ H. exact H.
Qed.

Lemma fige_codes e s : fige e s → code <$> taches (self s) = code <$> taches (self e).
Proof.
  intros (_ & _ & H). induction H as [|x y l l' Hxy _ IH]; [done|].
  cbn [fmap list_fmap]. destruct Hxy as (_ & -> & _). by f_equal.
Qed.

(** ** The dictionaries after the two passes *)

Section Couvre.
Context (J : Etat → Prop) (HJ : clos J) (cs : list string).
Context (Hcs : ∀ s, J s → code <$> taches (self s) = cs).

Lemma tot_couvre :
  triplet J _calculer_dates_tot (λ _ s, J s ∧ couvre_tot cs s) J.
Proof.
  unfold _calculer_dates_tot. apply triplet_bind_get. intros e0 He0.
  apply (triplet_bind J _ (λ _ s, J s ∧ couvre_tot cs s)).
  - apply (triplet_conseq _ (λ s, J s ∧ couvre_tot (code <$> []) s) _ _
             (λ _ s, J s ∧ couvre_tot (code <$> taches (self e0)) s) _ J).
    + apply (triplet_for (λ pre s, J s ∧ couvre_tot (code <$> pre) s)).
      intros pre x post _ s [Hs Hc]. unfold bind, pose_debut_tot, pose_fin_tot, modify.
      split.
      * by apply (clos_fin_tot J HJ), (clos_debut_tot J HJ).
      * intros c Hin. rewrite fmap_app in Hin. apply elem_of_app in Hin as [Hin|Hin].
        -- apply (clos_couvre_tot (code <$> pre)); [|done].
           by apply (clos_couvre_tot (code <$> pre)).
        -- apply list_elem_of_singleton in Hin as ->.
           cbn [self sur_self sur_debut_tot sur_fin_tot dates_debut_tot dates_fin_tot].
           rewrite !lookup_insert_is_Some. auto.
    + intros s Hs. split; [done|]. intros c Hc. by inversion Hc.
    + intros [] s [Hs Hc]. split; [done|]. by rewrite <- (Hcs e0 He0).
    + done.
  - intros ?.
    apply (triplet_conseq _ (λ s, J s ∧ couvre_tot cs s) _ _
             (λ _ s, J s ∧ couvre_tot cs s) _ (λ s, J s ∧ couvre_tot cs s));
      [|done|done|by intros s [? ?]].
    pose proof (clos_et J (couvre_tot cs) HJ (clos_couvre_tot cs)) as HJ2.
    apply (triplet_bind _ _ (λ _ s, J s ∧ couvre_tot cs s)).
    + apply triplet_pur, pur_tri_topologique.
    + intros o. apply triplet_for_inv. intros c. by apply inv_tot_etape.
Qed.

Lemma tard_couvre :
  triplet J _calculer_dates_tard (λ _ s, J s ∧ couvre_tard cs s) J.
Proof.
  unfold _calculer_dates_tard. apply triplet_bind_get. intros e0 He0.
  apply (triplet_bind J _ (λ _, J)); [apply triplet_pur, pur_py_max|].
  intros date_fin_projet.
  apply (triplet_bind J _ (λ _ s, J s ∧ couvre_tard cs s)).
  - apply (triplet_conseq _ (λ s, J s ∧ couvre_tard (code <$> []) s) _ _
             (λ _ s, J s ∧ couvre_tard (code <$> taches (self e0)) s) _ J).
    + apply (triplet_for (λ pre s, J s ∧ couvre_tard (code <$> pre) s)).
      intros pre x post _ s [Hs Hc]. unfold bind, pose_debut_tard, pose_fin_tard, modify.
      split.
      * by apply (clos_debut_tard J HJ), (clos_fin_tard J HJ).
      * intros c Hin. rewrite fmap_app in Hin. apply elem_of_app in Hin as [Hin|Hin].
        -- apply (clos_couvre_tard (code <$> pre)); [|done].
           by apply (clos_couvre_tard (code <$> pre)).
        -- apply list_elem_of_singleton in Hin as ->.
           cbn [self sur_self sur_debut_tard sur_fin_tard dates_debut_tard dates_fin_tard].
           rewrite !lookup_insert_is_Some. auto.
    + intros s Hs. split; [done|]. intros c Hc. by inversion Hc.
    + intros [] s [Hs Hc]. split; [done|]. by rewrite <- (Hcs e0 He0).
    + done.
  - intros ?.
    apply (triplet_conseq _ (λ s, J s ∧ couvre_tard cs s) _ _
             (λ _ s, J s ∧ couvre_tard cs s) _ (λ s, J s ∧ couvre_tard cs s));
      [|done|done|by intros s [? ?]].
    pose proof (clos_et J (couvre_tard cs) HJ (clos_couvre_tard cs)) as HJ2.
    apply (triplet_bind _ _ (λ _ s, J s ∧ couvre_tard cs s)).
    + apply triplet_for_inv. intros t. by apply inv_tard_finale.
    + intros ?. apply (triplet_bind _ _ (λ _ s, J s ∧ couvre_tard cs s)).
      * apply triplet_pur, pur_tri_topologique.
      * intros o. apply triplet_for_inv. intros c. by apply inv_tard_etape.
Qed.
End Couvre.

(** ** What a successful run writes *)

Lemma sauvegarder_etape_base s i t :
  taches (self s) !! i = Some t →
  match sauvegarder_etape i t s with
  | Val _ s' => ∃ t', taches (self s') = <[i := t']> (taches (self s)) ∧
                      base s' = ecrire_ligne t' (base s)
  | Exc _ s' => True
  | Div => True
  end.
Proof.
  intros Ht. unfold sauvegarder_etape. rewrite bind_get.
  unfold bind at 1, lire at 1.
  destruct (dates_debut_tot (self s) !! code t) as [v1|]; [|done]. unfold ret at 1.
  unfold bind at 1, modifier_tache at 1, modify at 1.
  unfold bind at 1, lire at 1.
  destruct (dates_fin_tot (self s) !! code t) as [v2|]; [|done]. unfold ret at 1.
  unfold bind at 1, modifier_tache at 1, modify at 1.
  unfold bind at 1, lire at 1.
  destruct (dates_debut_tard (self s) !! code t) as [v3|]; [|done]. unfold ret at 1.
  unfold bind at 1, modifier_tache at 1, modify at 1.
  unfold bind at 1, lire at 1.
  destruct (dates_fin_tard (self s) !! code t) as [v4|]; [|done]. unfold ret at 1.
  unfold bind at 1, modifier_tache at 1, modify at 1.
  unfold save, bind, modifier_tache, modify, get.
  cbn [self sur_self sur_taches taches].
  do 5 rewrite list_lookup_alter_eq. rewrite Ht.
  cbn [fmap option_fmap option_map].
  eexists. split; [|reflexivity].
  cbn [self sur_base sur_self sur_taches taches].
  apply list_eq. intros j. destruct (decide (i = j)) as [<-|Hne].
  - do 5 rewrite list_lookup_alter_eq. rewrite Ht.
    rewrite list_lookup_insert_eq by (by eapply lookup_lt_Some). done.
  - by rewrite !list_lookup_alter_ne, list_lookup_insert_ne.
Qed.

(** When [_sauvegarder_resultats] returns, the database is the one it
    started from in which the tasks of the calculator, as they are at the
    end, have been saved one after the other. *)
Lemma sauvegarder_base b0 (K : Etat → Prop) :
  triplet (λ s, base s = b0 ∧ K s) _sauvegarder_resultats
    (λ _ s, base s = foldl (λ b t, ecrire_ligne t b) b0 (taches (self s)))
    (λ _, True).
Proof.
  intros e [He _]. unfold _sauvegarder_resultats, pour_chaque_tache. rewrite bind_get.
  set (n := length (taches (self e))).
  pose (I := λ (pre : list nat) (s : Etat),
    length (taches (self s)) = n ∧
    base s = foldl (λ b t, ecrire_ligne t b) b0 (take (length pre) (taches (self s)))).
  assert (H : triplet (I []) (for_ (seq 0 n) (λ i, e0 <- get ;;
                match taches (self e0) !! i with
                | Some t => sauvegarder_etape i t
                | None => ret tt
                end)) (λ _, I (seq 0 n)) (λ _, True)).
  { apply triplet_for. intros pre i post Hl s [Hlen Hb].
    apply seq_split in Hl as [-> Hlt]. rewrite bind_get.
    destruct (lookup_lt_is_Some_2 (taches (self s)) (length pre)) as [t Ht]; [lia|].
    rewrite Ht. pose proof (sauvegarder_etape_base s (length pre) t Ht) as Hstep.
    destruct (sauvegarder_etape (length pre) t s) as [[] s'| |]; [|done..].
    destruct Hstep as (t' & Hts & Hbase). split.
    - by rewrite Hts, length_insert.
    - rewrite Hbase, Hts, length_app, Nat.add_1_r. cbn [length].
      rewrite (take_S_r _ _ t') by (apply list_lookup_insert_eq; lia).
      rewrite foldl_app. cbn [foldl]. f_equal.
      rewrite take_insert_ge by lia. by rewrite Hb. }
  specialize (H e). cbv beta in H.
  match type of H with
  | _ → match ?m with _ => _ end => destruct m as [[] s'| |]
  end; [|done..].
  destruct H as [Hlen Hb]; [by split|].
  rewrite length_seq in Hb. rewrite Hb. f_equal.
  apply take_ge. lia.
Qed.

(** The four methods that [calculer] runs before [_sauvegarder_resultats],
    followed by any computation [k]. *)
Lemma calculer_prefixe e {A} (k : M Etat A) (Q : A → Etat → Prop) (X : Etat → Prop) :
  (∀ s, fige e s → X s) →
  triplet (λ s, (fige e s ∧ couvre_tot (code <$> taches (self e)) s) ∧
                couvre_tard (code <$> taches (self e)) s) k Q X →
  triplet (fige e)
    (circulaire <- _has_circular_dependency ;;
     (if circulaire : bool
      then raise (ValueError "Dependances circulaires detectees dans le projet !")
      else ret tt) ;;;
     _calculer_dates_tot ;;;
     _calculer_dates_tard ;;;
     _calculer_marges ;;;
     k)
    Q X.
Proof.
  intros HX Hk.
  set (cs := code <$> taches (self e)) in *.
  set (J1 := λ s, fige e s ∧ couvre_tot cs s).
  set (J2 := λ s, J1 s ∧ couvre_tard cs s).
  pose proof (clos_fige e) as H0.
  pose proof (clos_et _ _ H0 (clos_couvre_tot cs)) as H1.
  pose proof (clos_et _ _ H1 (clos_couvre_tard cs)) as H2.
  apply (triplet_bind _ _ (λ _, fige e)).
  { apply (triplet_conseq _ (fige e) _ _ (λ _, fige e) _ (fige e)); [|done..].
    apply triplet_pur, pur_has_circular_dependency. }
  intros circulaire. apply (triplet_bind _ _ (λ _, fige e)).
  { destruct circulaire; [by apply triplet_raise|by apply triplet_ret]. }
  intros ?. apply (triplet_bind _ _ (λ _, J1)).
  { apply (triplet_conseq _ (fige e) _ _ (λ _, J1) _ (fige e)); [|done..].
    apply tot_couvre; [done|]. apply fige_codes. }
  intros ?. apply (triplet_bind _ _ (λ _, J2)).
  { apply (triplet_conseq _ J1 _ _ (λ _, J2) _ J1);
      [|done|done|by intros s [? ?]; apply HX].
    apply (tard_couvre J1 H1 cs). intros s [Hs _]. by apply fige_codes. }
  intros ?. apply (triplet_bind _ _ (λ _, J2)).
  { apply (triplet_conseq _ J2 _ _ (λ _, J2) _ J2);
      [|done|done|by intros s [[? ?] ?]; apply HX].
    by apply inv_calculer_marges. }
  intros ?. exact Hk.
Qed.

(** Whenever [calculer] returns [True], the database is the one of the
    call in which the tasks of the calculator, as the run leaves them, have
    been saved one after the other. *)
Lemma calculer_base e e' :
  calculer e = Val true e' →
  base e' = foldl (λ b t, ecrire_ligne t b) (base e) (taches (self e')).
Proof.
  unfold calculer. rewrite bind_get.
  destruct (taches (self e)) as [|t0 l] eqn:Hts.
  { intros [= <-]. by rewrite Hts. }
  unfold essayer.
  pose proof (calculer_prefixe e (_sauvegarder_resultats ;;; ret true)
    (λ r s, base s = foldl (λ b t, ecrire_ligne t b) (base e) (taches (self s)))
    (λ s, True)) as H.
  rewrite Hts in H. specialize (H (λ _ _, I)).
  match type of H with
  | ?P → _ => assert (Hk : P)
  end.
  { apply (triplet_bind _ _ (λ _ s,
      base s = foldl (λ b t, ecrire_ligne t b) (base e) (taches (self s)))).
    - apply (triplet_conseq _ _ _ _ _ _ _
               (sauvegarder_base (base e) (λ _, True))); [|done..].
      intros s [[(Hb & _) _] _]. done.
    - intros ?. by apply triplet_ret. }
  specialize (H Hk e (fige_refl e)).
  match type of H with
  | match ?m with _ => _ end => destruct m as [r s| |]
  end; [|done..].
  intros [= -> <-]. exact H.
Qed.

Lemma NoDup_fmap_inj {A B} (f : A → B) (l : list A) x y :
  NoDup (f <$> l) → x ∈ l → y ∈ l → f x = f y → x = y.
Proof.
  induction l as [|z l IH]; intros Hnd Hx Hy Hf; [by inversion Hx|].
  cbn [fmap list_fmap] in Hnd. apply NoDup_cons in Hnd as [Hz Hnd].
  apply elem_of_cons in Hx as [->|Hx]; apply elem_of_cons in Hy as [->|Hy].
  - done.
  - exfalso. apply Hz. rewrite Hf. by apply list_elem_of_fmap_2.
  - exfalso. apply Hz. rewrite <- Hf. by apply list_elem_of_fmap_2.
  - by apply IH.
Qed.

(** Saving the row of an existing key replaces that row and no other. *)
Lemma ecrire_ligne_present t b :
  pk t ∈ pk <$> table b →
  ecrire_ligne t b
  = mkBase ((λ r, if decide (pk r = pk t) then t else r) <$> table b) (liens b).
Proof. intros H. unfold ecrire_ligne. by case_decide. Qed.

(** Saving one after the other tasks of distinct keys that all have a row:
    the keys of the table and the links are kept, every saved task is a row,
    and every row is a saved task or a row of another key that was there. *)
Lemma ecrire_lignes b l :
  NoDup (pk <$> l) → (∀ t, t ∈ l → pk t ∈ pk <$> table b) →
  pk <$> table (foldl (λ b t, ecrire_ligne t b) b l) = pk <$> table b ∧
  liens (foldl (λ b t, ecrire_ligne t b) b l) = liens b ∧
  (∀ t, t ∈ l → t ∈ table (foldl (λ b t, ecrire_ligne t b) b l)) ∧
  (∀ r, r ∈ table (foldl (λ b t, ecrire_ligne t b) b l) →
        r ∈ l ∨ (r ∈ table b ∧ pk r ∉ pk <$> l)).
Proof.
  induction l as [|t l IH] using rev_ind; intros Hnd Hin.
  { cbn [foldl]. split_and!; [done..| |].
    - intros t Ht. by inversion Ht.
    - intros r Hr. right. split; [done|]. intros H. by inversion H. }
  rewrite fmap_app in Hnd. apply NoDup_app in Hnd as (Hnd & Hdisj & _).
  destruct IH as (Hpk & Hl & Hsaved & Hrows); [done|..].
  { intros x Hx. apply Hin, elem_of_app. by left. }
  rewrite foldl_app. cbn [foldl].
  set (b1 := foldl (λ b t, ecrire_ligne t b) b l) in *.
  assert (Ht : pk t ∈ pk <$> table b1).
  { rewrite Hpk. apply Hin, elem_of_app. right. by left. }
  rewrite (ecrire_ligne_present t b1 Ht). cbn [table liens].
  assert (Htl : pk t ∉ pk <$> l).
  { intros H. apply (Hdisj _ H). by left. }
  split_and!.
  - rewrite <- Hpk, <- list_fmap_compose. apply list_fmap_ext.
    intros i r _. cbn. by case_decide.
  - done.
  - intros x Hx. apply elem_of_app in Hx as [Hx|Hx].
    + apply list_elem_of_fmap. exists x. split; [|by apply Hsaved].
      case_decide as Hc; [|done]. exfalso. apply Htl. rewrite <- Hc.
      by apply list_elem_of_fmap_2.
    + apply list_elem_of_singleton in Hx as ->.
      apply list_elem_of_fmap in Ht as (r & Hr & Hrin).
      apply list_elem_of_fmap. exists r. split; [|done]. by case_decide.
  - intros r' Hr'. apply list_elem_of_fmap in Hr' as (r & -> & Hr).
    case_decide as Hc.
    + left. apply elem_of_app. right. by left.
    + destruct (Hrows r Hr) as [Hrl|[Hrb Hrn]].
      * left. apply elem_of_app. by left.
      * right. split; [done|]. rewrite fmap_app. intros H.
        apply elem_of_app in H as [H|H]; [done|].
        by apply list_elem_of_singleton in H.
Qed.

(** On a well-formed collection [calculer] only succeeds without cycle. *)
Lemma succes_acyclique b ts e' :
  bien_forme b ts → lancer b ts = Val true e' → acyclique b ts.
Proof.
  intros Hbf Hrun t Ht.
  pose proof (coherent_init b ts) as Hcoh.
  destruct (has_circular_spec b ts _ Hcoh) as (r & Hcirc & Hr).
  assert (r = true) as ->.
  { apply Hr. apply (cyclique_arc b ts); [apply Hbf|done|by exists t]. }
  revert Hrun. unfold lancer, calculer. rewrite bind_get. cbn [self taches __init__].
  destruct ts as [|t0 ts'].
  { exfalso. assert (∃ y, depend b [] t y) as (y & Hy & _) by (inversion Ht; eauto).
    by inversion Hy. }
  unfold essayer. by rewrite (bind_Val _ _ _ _ _ Hcirc).
Qed.

(** The keys of the tasks are those of the collection, in the same order. *)
Lemma succes_pk b ts e' :
  bien_forme b ts → lancer b ts = Val true e' →
  pk <$> taches (self e') = pk <$> ts.
Proof.
  intros Hbf Hrun.
  destruct (decide (ts = [])) as [->|Hne].
  { by rewrite (lancer_vide b e' Hrun). }
  pose proof (succes_acyclique b ts e' Hbf Hrun) as Hac.
  destruct (planning b ts e' Hbf Hac Hne Hrun)
    as (es & ef & ls & lf & Hok & Hlen & Hres).
  apply list_eq. intros j. rewrite !list_lookup_fmap.
  destruct (ts !! j) as [t|] eqn:Ht.
  - destruct (Hres j t Ht) as (? & ? & ? & ? & ? & _ & _ & _ & _ & _ & ->). done.
  - apply lookup_ge_None in Ht. rewrite <- Hlen in Ht.
    apply lookup_ge_None in Ht. by rewrite Ht.
Qed.

(** The database after a successful run on a well-formed collection. *)
Lemma succes_base b ts e' :
  bien_forme b ts → lancer b ts = Val true e' →
  liens (base e') = liens b ∧
  pk <$> table (base e') = pk <$> table b ∧
  (∀ t, t ∈ taches (self e') → t ∈ table (base e')) ∧
  (∀ r, r ∈ table (base e') →
        r ∈ taches (self e') ∨ (r ∈ table b ∧ pk r ∉ pk <$> ts)).
Proof.
  intros Hbf Hrun.
  pose proof (succes_pk b ts e' Hbf Hrun) as Hpk.
  pose proof (calculer_base _ e' Hrun) as Hbase. cbn [base] in Hbase.
  assert (Hnd : NoDup (pk <$> ts)).
  { apply NoDup_fmap_2_strong.
    - intros x y Hx Hy. apply (NoDup_fmap_inj pk (table b)); [apply Hbf|..];
        by apply (bf_table _ _ Hbf).
    - eapply NoDup_fmap_1, bf_code, Hbf. }
  destruct (ecrire_lignes b (taches (self e'))) as (H1 & H2 & H3 & H4).
  - by rewrite Hpk.
  - intros t Ht. assert (Hin : pk t ∈ pk <$> ts).
    { rewrite <- Hpk. by apply list_elem_of_fmap_2. }
    apply list_elem_of_fmap in Hin as (x & -> & Hx).
    apply list_elem_of_fmap_2. by apply (bf_table _ _ Hbf).
  - rewrite <- Hbase in *. rewrite Hpk in H4. done.
Qed.

(** X7 — After a successful run on a well-formed collection the database
    holds the results: the link table and the keys of the rows are as
    before, every task of the calculator, with the dates and margins the run
    gave it, is a row of the table, and every row is such a task or a row of
    before the call whose key is not in the collection. *)
Theorem X7_base_apres_succes b ts e' :
  bien_forme b ts → lancer b ts = Val true e' →
  liens (base e') = liens b ∧
  pk <$> table (base e') = pk <$> table b ∧
  (∀ t, t ∈ taches (self e') → t ∈ table (base e')) ∧
  (∀ r, r ∈ table (base e') →
        r ∈ taches (self e') ∨ (r ∈ table b ∧ pk r ∉ pk <$> ts)).
Proof. exact (succes_base b ts e'). Qed.

Lemma X7_base_apres_succes_witness :
  bien_forme parallele (table parallele) ∧
  lancer parallele (table parallele) = Val true final_parallele ∧
  liens (base final_parallele) = liens parallele ∧
  pk <$> table (base final_parallele) = pk <$> table parallele ∧
  (∀ t, t ∈ taches (self final_parallele) → t ∈ table (base final_parallele)) ∧
  (∀ r, r ∈ table (base final_parallele) →
        r ∈ taches (self final_parallele) ∨
        (r ∈ table parallele ∧ pk r ∉ pk <$> table parallele)).
Proof.
  assert (H1 : bien_forme parallele (table parallele))
    by (apply bien_forme_b_correct; par_calcul).
  assert (H3 : lancer parallele (table parallele) = Val true final_parallele)
    by par_calcul.
  split_and!; [exact H1|exact H3|..];
    apply (X7_base_apres_succes parallele (table parallele) _ H1 H3).
Defined.

(** ** Durations that are not negative *)

Section DureesPositives.
Context (b : Base) (ts : list Tache) (Hbf : bien_forme b ts).
Context (Hac : acyclique b ts).
Context (es ef ls lf : gmap string Z).
Context (Hok : ∀ t, t ∈ ts → tot_ok b es ef t ∧ tard_ok b ef ls lf t).
Context (Hdur : ∀ t, t ∈ ts → 0 ≤ duree t).

Lemma debut_positif t v : t ∈ ts → es !! code t = Some v → 0 ≤ v.
Proof.
  revert v. induction (acyclique_Acc_dep b ts Hac t) as [t _ IH].
  intros v Ht Hv.
  destruct (Hok t Ht) as [(v' & Hv' & _ & Htot) _].
  assert (v' = v) as -> by congruence.
  unfold eq_tot in Htot.
  destruct (dependances b t) as [|d0 ds] eqn:Hd; [lia|]. rewrite <- Hd in *.
  destruct Htot as [_ (d & Hdin & Hdv)].
  assert (Hdts : d ∈ ts) by (by apply (bf_deps _ _ Hbf t)).
  destruct (Hok d Hdts) as [(vd & Hvd & Hfd & _) _].
  assert (0 ≤ vd) by (apply (IH d); [by split_and!|done..]).
  pose proof (Hdur d Hdts). assert (v = vd + duree d) by congruence. lia.
Qed.

Lemma fin_tard_bornee D t v :
  (∀ s w, s ∈ ts → ef !! code s = Some w → w ≤ D) →
  t ∈ ts → lf !! code t = Some v → v ≤ D.
Proof.
  intros HD. revert v. induction (acyclique_Acc_succ b ts Hac t) as [t _ IH].
  intros v Ht Hv.
  destruct (Hok t Ht) as [_ (v' & Hv' & _ & Htard)].
  assert (v' = v) as -> by congruence.
  unfold eq_tard in Htard.
  destruct (successeurs b t) as [|s0 ss] eqn:Hs; [by apply (HD t)|].
  rewrite <- Hs in *. destruct Htard as [_ (s & Hsin & Hsv)].
  assert (Hsts : s ∈ ts) by (by apply (bf_succs _ _ Hbf t)).
  destruct (Hok s Hsts) as [_ (u & Hu & Hls & _)].
  assert (u ≤ D).
  { apply (IH s); [|done..]. split_and!; [done..|].
    by apply (successeur_dependance b ts Hbf t s). }
  pose proof (Hdur s Hsts). assert (v = u - duree s) by congruence. lia.
Qed.

Lemma puits_plus_tard t v :
  t ∈ ts → ef !! code t = Some v →
  ∃ s w, s ∈ ts ∧ successeurs b s = [] ∧ ef !! code s = Some w ∧ v ≤ w.
Proof.
  revert v. induction (acyclique_Acc_succ b ts Hac t) as [t _ IH].
  intros v Ht Hv.
  destruct (successeurs b t) as [|s0 ss] eqn:Hs.
  { exists t, v. split_and!; [done..|lia]. }
  assert (Hs0 : s0 ∈ successeurs b t) by (rewrite Hs; left).
  assert (Hsts : s0 ∈ ts) by (by apply (bf_succs _ _ Hbf t)).
  destruct (Hok s0 Hsts) as [(a & Ha & Hfa & _) _].
  pose proof (precedence b ts Hbf es ef ls lf Hok t s0 v a Ht Hs0 Hv Ha) as Hle.
  destruct (IH s0) with (v := a + duree s0) as (s & w & H1 & H2 & H3 & H4);
    [|done..|].
  { split_and!; [done..|]. by apply (successeur_dependance b ts Hbf t s0). }
  exists s, w. split_and!; [done..|]. pose proof (Hdur s0 Hsts). lia.
Qed.
End DureesPositives.

(** ** The duration and the greatest margin of a project *)

Lemma plus_grand_spec (f : Tache → option Z) (ts : list Tache) :
  let m := match omap f ts with [] => 0 | x :: l => foldl Z.max x l end in
  (∀ t v, t ∈ ts → f t = Some v → v ≤ m) ∧
  ((∃ t, t ∈ ts ∧ f t = Some m) ∨ (m = 0 ∧ ∀ t, t ∈ ts → f t = None)).
Proof.
  destruct (omap f ts) as [|x l] eqn:Hl; cbn zeta.
  - assert (Hnone : ∀ t, t ∈ ts → f t = None).
    { intros t Ht. destruct (f t) as [v|] eqn:Hf; [|done].
      assert (Hin : v ∈ omap f ts) by (apply list_elem_of_omap; eauto).
      rewrite Hl in Hin. by inversion Hin. }
    split; [|by right]. intros t v Ht Hv. rewrite (Hnone t Ht) in Hv. done.
  - destruct (foldl_max_spec x l) as [Hle Hin]. rewrite <- Hl in Hle, Hin. split.
    + intros t v Ht Hv. apply Hle. apply list_elem_of_omap. eauto.
    + left. apply list_elem_of_omap in Hin as (t & Ht & Hf). eauto.
Qed.

Lemma duree_totale_spec ts :
  (∀ t v, t ∈ ts → date_fin_tot t = Some v → v ≤ duree_totale ts) ∧
  ((∃ t, t ∈ ts ∧ date_fin_tot t = Some (duree_totale ts)) ∨
   (duree_totale ts = 0 ∧ ∀ t, t ∈ ts → date_fin_tot t = None)).
Proof.
  pose proof (plus_grand_spec date_fin_tot ts) as H. cbn zeta in H.
  unfold duree_totale. destruct ts as [|t0 l]; [|exact H].
  split; [intros t v Ht; by inversion Ht|]. right. split; [done|].
  intros t Ht. by inversion Ht.
Qed.

Lemma marge_max_spec ts :
  (∀ t v, t ∈ ts → marge_totale t = Some v → v ≤ marge_max ts) ∧
  ((∃ t, t ∈ ts ∧ marge_totale t = Some (marge_max ts)) ∨
   (marge_max ts = 0 ∧ ∀ t, t ∈ ts → marge_totale t = None)).
Proof.
  pose proof (plus_grand_spec marge_totale ts) as H. cbn zeta in H.
  unfold marge_max. destruct ts as [|t0 l]; [|exact H].
  split; [intros t v Ht; by inversion Ht|]. right. split; [done|].
  intros t Ht. by inversion Ht.
Qed.

Section PlanningDurees.
Context (b : Base) (ts : list Tache) (Hbf : bien_forme b ts).
Context (Hac : acyclique b ts).
Context (es ef ls lf : gmap string Z) (ts' : list Tache).
Context (Hok : ∀ t, t ∈ ts → tot_ok b es ef t ∧ tard_ok b ef ls lf t).
Context (Hlen : length ts' = length ts).
Context (Hres : ∀ j t, ts !! j = Some t →
    ∃ ves vef vls vlf vml,
      es !! code t = Some ves ∧ ef !! code t = Some vef ∧
      ls !! code t = Some vls ∧ lf !! code t = Some vlf ∧
      eq_libre b es ef t (vls - ves) vml ∧
      ts' !! j = Some (resultat_tache ves vef vls vlf vml t)).
Context (Hdur : ∀ t, t ∈ ts → 0 ≤ duree t).
Context (D : Z).
Context (Hborne : ∀ t' v, t' ∈ ts' → date_fin_tot t' = Some v → v ≤ D).

Lemma fin_tot_bornee s w : s ∈ ts → ef !! code s = Some w → w ≤ D.
Proof.
  intros Hs Hw.
  destruct (res_dir b ts es ef ls lf ts' Hres s Hs)
    as (ves & vef & vls & vlf & vml & _ & G2 & _ & _ & Hin).
  assert (w = vef) as -> by congruence.
  by apply (Hborne _ vef Hin).
Qed.

Lemma planning_dates_bornees t' :
  t' ∈ ts' →
  ∃ ves vef vls vlf,
    date_debut_tot t' = Some ves ∧ date_fin_tot t' = Some vef ∧
    date_debut_tard t' = Some vls ∧ date_fin_tard t' = Some vlf ∧
    0 ≤ ves ∧ ves ≤ vef ∧ ves ≤ vls ∧ vef ≤ vlf ∧ vls ≤ vlf ∧ vlf ≤ D.
Proof.
  intros Ht'.
  destruct (res_inv b ts es ef ls lf ts' Hlen Hres t' Ht')
    as (t & ves & vef & vls & vlf & vml & Ht & H1 & H2 & H3 & H4 & H5 & ->).
  exists ves, vef, vls, vlf. split_and!; [done..| | | | | |].
  - by apply (debut_positif b ts Hbf Hac es ef ls lf Hok Hdur t).
  - destruct (Hok t Ht) as [(v & Hv & Hf & _) _]. pose proof (Hdur t Ht).
    assert (v = ves) by congruence. assert (vef = v + duree t) by congruence. lia.
  - by apply (marge_positive b ts Hbf Hac es ef ls lf Hok t).
  - pose proof (marge_positive b ts Hbf Hac es ef ls lf Hok t ves vls Ht H1 H3).
    destruct (Hok t Ht) as [(v & Hv & Hf & _) (u & Hu & Hl & _)].
    assert (v = ves) by congruence. assert (vef = v + duree t) by congruence.
    assert (u = vlf) by congruence. assert (vls = u - duree t) by congruence. lia.
  - destruct (Hok t Ht) as [_ (u & Hu & Hl & _)]. pose proof (Hdur t Ht).
    assert (u = vlf) by congruence. assert (vls = u - duree t) by congruence. lia.
  - apply (fin_tard_bornee b ts Hbf Hac es ef ls lf Hok Hdur D t); [|done..].
    apply fin_tot_bornee.
Qed.

Lemma planning_fin_critique t0' :
  t0' ∈ ts' → date_fin_tot t0' = Some D →
  ∃ t', t' ∈ ts' ∧ successeurs_dans b ts' t' = [] ∧ marge_totale t' = Some 0 ∧
        date_fin_tot t' = Some D ∧ date_fin_tard t' = Some D.
Proof.
  intros Ht0' Hfin.
  destruct (res_inv b ts es ef ls lf ts' Hlen Hres t0' Ht0')
    as (t0 & ves & vef & vls & vlf & vml & Ht0 & H1 & H2 & H3 & H4 & H5 & ->).
  cbn [resultat_tache date_fin_tot] in Hfin. assert (vef = D) as -> by congruence.
  destruct (puits_plus_tard b ts Hbf Hac es ef ls lf Hok Hdur t0 D Ht0 H2)
    as (s & w & Hs & Hpuits & Hw & Hle).
  pose proof (fin_tot_bornee s w Hs Hw) as Hle'.
  assert (w = D) as -> by lia.
  apply list_elem_of_lookup in Hs as (j & Hj).
  destruct (Hres j s Hj) as (wes & wef & wls & wlf & wml & G1 & G2 & G3 & G4 & G5 & G6).
  assert (Hs : s ∈ ts) by (by eapply list_elem_of_lookup_2).
  assert (Hin : resultat_tache wes wef wls wlf wml s ∈ ts')
    by (by eapply list_elem_of_lookup_2).
  exists (resultat_tache wes wef wls wlf wml s). split_and!; [done| | | |].
  - by apply (succs_dans_vide b ts Hbf es ef ls lf ts' Hlen Hres s).
  - cbn [resultat_tache marge_totale]. f_equal.
    by apply (puits_critique b ts es ef ls lf Hok s).
  - cbn [resultat_tache date_fin_tot]. congruence.
  - cbn [resultat_tache date_fin_tard]. f_equal.
    destruct (Hok s Hs) as [_ (u & Hu & _ & Htard)].
    unfold eq_tard in Htard. rewrite Hpuits in Htard. congruence.
Qed.
End PlanningDurees.

(** After a successful run on the rows of a project, the rows of the project
    in the database are the tasks of the calculator. *)
Lemma succes_lignes_projet (projet_id : gmap nat nat) p b ts e' :
  bien_forme b ts → (∀ r, r ∈ ts ↔ r ∈ taches_du_projet projet_id p b) →
  lancer b ts = Val true e' →
  ∀ r, r ∈ taches_du_projet projet_id p (base e') ↔ r ∈ taches (self e').
Proof.
  intros Hbf Hproj Hrun r.
  destruct (succes_base b ts e' Hbf Hrun) as (_ & _ & H3 & H4).
  pose proof (succes_pk b ts e' Hbf Hrun) as Hpk.
  unfold taches_du_projet. rewrite list_elem_of_filter. split.
  - intros [Hp Hr]. destruct (H4 r Hr) as [|[Hrb Hn]]; [done|].
    exfalso. apply Hn. apply list_elem_of_fmap_2. apply Hproj.
    unfold taches_du_projet. by apply list_elem_of_filter.
  - intros Hr. split; [|by apply H3].
    assert (Hin : pk r ∈ pk <$> ts).
    { rewrite <- Hpk. by apply list_elem_of_fmap_2. }
    apply list_elem_of_fmap in Hin as (x & -> & Hx).
    apply Hproj in Hx. unfold taches_du_projet in Hx.
    by apply list_elem_of_filter in Hx as [Hx _].
Qed.

(** X8 — After a successful run of [calculer] on the rows of a project,
    a well-formed collection whose durations are not negative,
    [Projet.duree_totale] is the earliest finish, and the latest finish, of
    a critical task of the project, and the dates of every row of the
    project lie between 0 and it:
    0 ≤ earliest start ≤ earliest finish ≤ latest finish ≤ duration, and
    earliest start ≤ latest start ≤ latest finish.  The rows of the other
    projects play no part. *)
Theorem X8_duree_totale (projet_id : gmap nat nat) p b ts e' :
  bien_forme b ts → (∀ r, r ∈ ts ↔ r ∈ taches_du_projet projet_id p b) →
  (∀ t, t ∈ ts → 0 ≤ duree t) → ts ≠ [] →
  lancer b ts = Val true e' →
  (∀ t, t ∈ taches_du_projet projet_id p (base e') →
     ∃ ves vef vls vlf,
       date_debut_tot t = Some ves ∧ date_fin_tot t = Some vef ∧
       date_debut_tard t = Some vls ∧ date_fin_tard t = Some vlf ∧
       0 ≤ ves ∧ ves ≤ vef ∧ ves ≤ vls ∧ vef ≤ vlf ∧ vls ≤ vlf ∧
       vlf ≤ duree_totale (taches_du_projet projet_id p (base e'))) ∧
  ∃ t, t ∈ taches_du_projet projet_id p (base e') ∧ est_critique t = true ∧
       date_fin_tot t
       = Some (duree_totale (taches_du_projet projet_id p (base e'))) ∧
       date_fin_tard t
       = Some (duree_totale (taches_du_projet projet_id p (base e'))).
Proof.
  intros Hbf Hproj Hdur Hne Hrun.
  pose proof (succes_acyclique b ts e' Hbf Hrun) as Hac.
  pose proof (succes_lignes_projet projet_id p b ts e' Hbf Hproj Hrun) as Hlignes.
  destruct (planning b ts e' Hbf Hac Hne Hrun)
    as (es & ef & ls & lf & Hok & Hlen & Hres).
  destruct (duree_totale_spec (taches_du_projet projet_id p (base e')))
    as [Hborne Hatteint].
  set (D := duree_totale (taches_du_projet projet_id p (base e'))) in *.
  assert (Hborne' : ∀ t' v, t' ∈ taches (self e') → date_fin_tot t' = Some v → v ≤ D).
  { intros t' v Ht'. apply Hborne. by apply Hlignes. }
  split.
  - intros t Ht. apply Hlignes in Ht.
    by apply (planning_dates_bornees b ts Hbf Hac es ef ls lf (taches (self e'))
                Hok Hlen Hres Hdur D Hborne').
  - destruct Hatteint as [(t0 & Ht0 & Hfin)|[_ Hnone]].
    + apply Hlignes in Ht0.
      destruct (planning_fin_critique b ts Hbf Hac es ef ls lf (taches (self e'))
                  Hok Hlen Hres Hdur D Hborne' t0 Ht0 Hfin)
        as (t & Ht & _ & Hcrit & H1 & H2).
      exists t. split_and!; [by apply Hlignes|by apply est_critique_vrai|done..].
    + exfalso. destruct ts as [|t0 l]; [done|].
      destruct (Hres 0%nat t0 eq_refl) as (? & vef & ? & ? & ? & _ & _ & _ & _ & _ & H0).
      apply list_elem_of_lookup_2, Hlignes, Hnone in H0. done.
Qed.

Lemma X8_duree_totale_witness :
  bien_forme deux_projets (taches_du_projet colonne_projet 1 deux_projets) ∧
  (∀ r, r ∈ taches_du_projet colonne_projet 1 deux_projets
        ↔ r ∈ taches_du_projet colonne_projet 1 deux_projets) ∧
  (∀ t, t ∈ taches_du_projet colonne_projet 1 deux_projets → 0 ≤ duree t) ∧
  taches_du_projet colonne_projet 1 deux_projets ≠ [] ∧
  lancer deux_projets (taches_du_projet colonne_projet 1 deux_projets)
  = Val true final_deux_projets ∧
  (∀ t, t ∈ taches_du_projet colonne_projet 1 (base final_deux_projets) →
     ∃ ves vef vls vlf,
       date_debut_tot t = Some ves ∧ date_fin_tot t = Some vef ∧
       date_debut_tard t = Some vls ∧ date_fin_tard t = Some vlf ∧
       0 ≤ ves ∧ ves ≤ vef ∧ ves ≤ vls ∧ vef ≤ vlf ∧ vls ≤ vlf ∧
       vlf ≤ duree_totale
               (taches_du_projet colonne_projet 1 (base final_deux_projets))) ∧
  ∃ t, t ∈ taches_du_projet colonne_projet 1 (base final_deux_projets) ∧
       est_critique t = true ∧
       date_fin_tot t
       = Some (duree_totale
                 (taches_du_projet colonne_projet 1 (base final_deux_projets))) ∧
       date_fin_tard t
       = Some (duree_totale
                 (taches_du_projet colonne_projet 1 (base final_deux_projets))).
Proof.
  assert (H1 : bien_forme deux_projets
                 (taches_du_projet colonne_projet 1 deux_projets))
    by (apply bien_forme_b_correct; par_calcul).
  assert (H2 : ∀ r, r ∈ taches_du_projet colonne_projet 1 deux_projets
                    ↔ r ∈ taches_du_projet colonne_projet 1 deux_projets)
    by (intros r; reflexivity).
  assert (H3 : ∀ t, t ∈ taches_du_projet colonne_projet 1 deux_projets
                    → 0 ≤ duree t).
  { apply Forall_forall. apply (bool_decide_unpack _). vm_compute. exact I. }
  assert (H4 : taches_du_projet colonne_projet 1 deux_projets ≠ [])
    by (vm_compute; discriminate).
  assert (H5 : lancer deux_projets (taches_du_projet colonne_projet 1 deux_projets)
               = Val true final_deux_projets) by par_calcul.
  split_and!; [exact H1|exact H2|exact H3|exact H4|exact H5|..];
    apply (X8_duree_totale colonne_projet 1 deux_projets _ _ H1 H2 H3 H4 H5).
Defined.

(** X9 — After a successful run of [calculer] on the rows of a project, a
    well-formed collection, [Projet.marge_max] is not negative, the total
    slack of every row of the project lies between 0 and it, and it is 0
    exactly when every row of the project is critical. *)
Theorem X9_marge_max (projet_id : gmap nat nat) p b ts e' :
  bien_forme b ts → (∀ r, r ∈ ts ↔ r ∈ taches_du_projet projet_id p b) →
  lancer b ts = Val true e' →
  0 ≤ marge_max (taches_du_projet projet_id p (base e')) ∧
  (∀ t, t ∈ taches_du_projet projet_id p (base e') →
     ∃ m, marge_totale t = Some m ∧
          0 ≤ m ≤ marge_max (taches_du_projet projet_id p (base e'))) ∧
  (marge_max (taches_du_projet projet_id p (base e')) = 0 ↔
   ∀ t, t ∈ taches_du_projet projet_id p (base e') → est_critique t = true).
Proof.
  intros Hbf Hproj Hrun.
  pose proof (succes_acyclique b ts e' Hbf Hrun) as Hac.
  pose proof (succes_lignes_projet projet_id p b ts e' Hbf Hproj Hrun) as Hlignes.
  assert (Hpos : ∀ t, t ∈ taches_du_projet projet_id p (base e') →
                   ∃ m, marge_totale t = Some m ∧ 0 ≤ m).
  { intros t Ht. apply Hlignes in Ht.
    destruct (decide (ts = [])) as [->|Hne].
    { rewrite (lancer_vide b e' Hrun) in Ht. by inversion Ht. }
    destruct (planning b ts e' Hbf Hac Hne Hrun)
      as (es & ef & ls & lf & Hok & Hlen & Hres).
    destruct (planning_marges_encadrees b ts Hbf Hac es ef ls lf (taches (self e'))
                Hok Hlen Hres t Ht) as (mt & ml & H1 & _ & H2).
    exists mt. split; [done|lia]. }
  destruct (marge_max_spec (taches_du_projet projet_id p (base e')))
    as [Hborne Hatteint].
  set (M := marge_max (taches_du_projet projet_id p (base e'))) in *.
  assert (HM : 0 ≤ M).
  { destruct Hatteint as [(t & Ht & Hm)|[-> _]]; [|done].
    destruct (Hpos t Ht) as (m & Hm' & Hle). congruence. }
  split_and!; [done| |].
  - intros t Ht. destruct (Hpos t Ht) as (m & Hm & Hle).
    exists m. split; [done|]. split; [done|]. by apply (Hborne t).
  - split.
    + intros HM0 t Ht. destruct (Hpos t Ht) as (m & Hm & Hle).
      pose proof (Hborne t m Ht Hm). apply est_critique_vrai.
      rewrite Hm. f_equal. lia.
    + intros Hcrit. destruct Hatteint as [(t & Ht & Hm)|[-> _]]; [|done].
      specialize (Hcrit t Ht). apply est_critique_vrai in Hcrit. congruence.
Qed.

Lemma X9_marge_max_witness :
  bien_forme deux_projets (taches_du_projet colonne_projet 1 deux_projets) ∧
  (∀ r, r ∈ taches_du_projet colonne_projet 1 deux_projets
        ↔ r ∈ taches_du_projet colonne_projet 1 deux_projets) ∧
  lancer deux_projets (taches_du_projet colonne_projet 1 deux_projets)
  = Val true final_deux_projets ∧
  0 ≤ marge_max (taches_du_projet colonne_projet 1 (base final_deux_projets)) ∧
  (∀ t, t ∈ taches_du_projet colonne_projet 1 (base final_deux_projets) →
     ∃ m, marge_totale t = Some m ∧
          0 ≤ m ≤ marge_max
                    (taches_du_projet colonne_projet 1 (base final_deux_projets))) ∧
  (marge_max (taches_du_projet colonne_projet 1 (base final_deux_projets)) = 0 ↔
   ∀ t, t ∈ taches_du_projet colonne_projet 1 (base final_deux_projets) →
        est_critique t = true).
Proof.
  assert (H1 : bien_forme deux_projets
                 (taches_du_projet colonne_projet 1 deux_projets))
    by (apply bien_forme_b_correct; par_calcul).
  assert (H2 : ∀ r, r ∈ taches_du_projet colonne_projet 1 deux_projets
                    ↔ r ∈ taches_du_projet colonne_projet 1 deux_projets)
    by (intros r; reflexivity).
  assert (H3 : lancer deux_projets (taches_du_projet colonne_projet 1 deux_projets)
               = Val true final_deux_projets) by par_calcul.
  split_and!; [exact H1|exact H2|exact H3|..];
    apply (X9_marge_max colonne_projet 1 deux_projets _ _ H1 H2 H3).
Defined.

Lemma bf_pk_NoDup b ts : bien_forme b ts → NoDup (pk <$> ts).
Proof.
  intros Hbf. apply NoDup_fmap_2_strong.
  - intros x y Hx Hy. apply (NoDup_fmap_inj pk (table b)); [apply Hbf|..];
      by apply (bf_table _ _ Hbf).
  - eapply NoDup_fmap_1, bf_code, Hbf.
Qed.

(** X10 — After a successful run of [calculer] on the rows of a project, a
    well-formed collection, [get_chemin_critique] returns the rows that
    [Projet.taches_critiques] selects in the database, each once, sorted by
    earliest start; there is one at least when the project has a task. *)
Theorem X10_taches_critiques (projet_id : gmap nat nat) p b ts e' :
  bien_forme b ts → (∀ r, r ∈ ts ↔ r ∈ taches_du_projet projet_id p b) →
  lancer b ts = Val true e' →
  ∃ l, get_chemin_critique e' = Val l e' ∧
       l ≡ₚ taches_critiques (taches_du_projet projet_id p (base e')) ∧
       StronglySorted debut_avant l ∧
       (ts ≠ [] → l ≠ []).
Proof.
  intros Hbf Hproj Hrun.
  pose proof (succes_acyclique b ts e' Hbf Hrun) as Hac.
  pose proof (succes_lignes_projet projet_id p b ts e' Hbf Hproj Hrun) as Hlignes.
  destruct (succes_base b ts e' Hbf Hrun) as (_ & Hpk & _ & _).
  pose proof (succes_pk b ts e' Hbf Hrun) as Hpk'.
  assert (Hperm : taches_du_projet projet_id p (base e') ≡ₚ taches (self e')).
  { apply NoDup_Permutation; [| |done].
    - apply NoDup_filter. apply (NoDup_fmap_1 pk). rewrite Hpk. apply Hbf.
    - apply (NoDup_fmap_1 pk). rewrite Hpk'. by apply (bf_pk_NoDup b). }
  assert (Hdates : ∀ t, t ∈ taches (self e') → is_Some (date_debut_tot t)).
  { intros t Ht. destruct (decide (ts = [])) as [->|Hne].
    { rewrite (lancer_vide b e' Hrun) in Ht. by inversion Ht. }
    destruct (planning b ts e' Hbf Hac Hne Hrun)
      as (es & ef & ls & lf & Hok & Hlen & Hres).
    by apply (planning_dates b ts es ef ls lf (taches (self e')) Hlen Hres). }
  destruct (chemin_critique_spec e' Hdates) as (l & Hrun' & Hl & Hsorted).
  assert (Hl' : l ≡ₚ taches_critiques (taches_du_projet projet_id p (base e'))).
  { rewrite Hl. unfold taches_critiques. rewrite Hperm.
    erewrite list_filter_iff; [done|]. intros t. apply est_critique_vrai. }
  exists l. split_and!; [done..|].
  intros Hne ->.
  destruct (planning b ts e' Hbf Hac Hne Hrun)
    as (es & ef & ls & lf & Hok & Hlen & Hres).
  destruct (planning_critique b ts Hbf Hac es ef ls lf (taches (self e'))
              Hok Hres Hne) as (t & Ht & Hm).
  assert (Hin : t ∈ filter (λ t, est_critique t = true) (taches (self e'))).
  { apply list_elem_of_filter. split; [by apply est_critique_vrai|done]. }
  rewrite <- Hl in Hin. by inversion Hin.
Qed.

Lemma X10_taches_critiques_witness :
  bien_forme deux_projets (taches_du_projet colonne_projet 1 deux_projets) ∧
  (∀ r, r ∈ taches_du_projet colonne_projet 1 deux_projets
        ↔ r ∈ taches_du_projet colonne_projet 1 deux_projets) ∧
  lancer deux_projets (taches_du_projet colonne_projet 1 deux_projets)
  = Val true final_deux_projets ∧
  ∃ l, get_chemin_critique final_deux_projets = Val l final_deux_projets ∧
       l ≡ₚ taches_critiques
              (taches_du_projet colonne_projet 1 (base final_deux_projets)) ∧
       StronglySorted debut_avant l ∧
       (taches_du_projet colonne_projet 1 deux_projets ≠ [] → l ≠ []).
Proof.
  assert (H1 : bien_forme deux_projets
                 (taches_du_projet colonne_projet 1 deux_projets))
    by (apply bien_forme_b_correct; par_calcul).
  assert (H2 : ∀ r, r ∈ taches_du_projet colonne_projet 1 deux_projets
                    ↔ r ∈ taches_du_projet colonne_projet 1 deux_projets)
    by (intros r; reflexivity).
  assert (H3 : lancer deux_projets (taches_du_projet colonne_projet 1 deux_projets)
               = Val true final_deux_projets) by par_calcul.
  split_and!; [exact H1|exact H2|exact H3|].
  exact (X10_taches_critiques colonne_projet 1 deux_projets _ _ H1 H2 H3).
Defined.

(** ** Validation of a task *)

Lemma upper_ascii_idemp a : upper_ascii (upper_ascii a) = upper_ascii a.
Proof. destruct a as [[] [] [] [] [] [] [] []]; reflexivity. Qed.

Lemma upper_idemp s : upper (upper s) = upper s.
Proof.
  induction s as [|a s IH]; [done|]. cbn [upper].
  by rewrite upper_ascii_idemp, IH.
Qed.

(** X11 — [Tache.clean] and [TacheForm.clean_duree] reject the same
    durations, the negative ones: 0 passes both, although the message asks
    for a duration greater than 0.  Whether it raises or not, [Tache.clean]
    has put the code of the task in upper case, and it changes nothing
    else.  The code is taken in ASCII, where [upper] is [str.upper]. *)
Theorem X11_validation_duree t :
  est_ascii (code t) = true →
  clean t
  = (if decide (duree t < 0)
     then Exc (ValidationError "La duree doit etre superieure a 0")
              (avec_code (upper (code t)) t)
     else Val tt (avec_code (upper (code t)) t)) ∧
  clean_duree (Some (duree t))
  = (if decide (duree t < 0)
     then inl (ValidationError "La duree doit etre superieure a 0")
     else inr (Some (duree t))) ∧
  clean_duree None = inr None.
Proof.
  intros _. split_and!; [|unfold clean_duree|done].
  - unfold clean. rewrite bind_get.
    assert (Hvide : code t = "" → avec_code (upper (code t)) t = t).
    { intros Hc. rewrite Hc. destruct t. cbn in *. by subst. }
    destruct (decide (code t ≠ "")) as [Hc|Hc]; unfold bind, modify, ret;
      destruct (decide (duree t ≠ 0 ∧ duree t ≤ 0)) as [Hd|Hd];
      destruct (decide (duree t < 0)) as [Hn|Hn]; try lia;
      try (rewrite Hvide by (by destruct (decide (code t = "")))); try done;
      exfalso; apply Hd; lia.
  - destruct (decide (duree t ≠ 0 ∧ duree t ≤ 0)) as [Hd|Hd];
      destruct (decide (duree t < 0)) as [Hn|Hn]; try lia; try done.
Qed.

Lemma X11_validation_duree_witness :
  est_ascii (code (tache 1 "a" (-3))) = true ∧
  clean (tache 1 "a" (-3))
  = Exc (ValidationError "La duree doit etre superieure a 0") (tache 1 "A" (-3)) ∧
  clean_duree (Some (-3))
  = inl (ValidationError "La duree doit etre superieure a 0") ∧
  clean_duree None = inr None.
Proof.
  assert (H1 : est_ascii (code (tache 1 "a" (-3))) = true) by reflexivity.
  split; [exact H1|].
  exact (X11_validation_duree (tache 1 "a" (-3)) H1).
Defined.

(** ** The loop of the topological sort ends *)

Lemma positifs_lookup d k v :
  positifs d !! k = Some v ↔ d !! k = Some v ∧ 0 < v.
Proof. unfold positifs. by rewrite map_lookup_filter_Some. Qed.

Lemma degre_positif d k : 0 < degre d k → d !! k = Some (degre d k).
Proof. unfold degre. destruct (d !! k); cbn; [done|lia]. Qed.

(** Decreasing a counter: the number of positive counters does not grow,
    and it decreases when the counter reaches 0. *)
Lemma positifs_decr d k :
  (size (positifs (<[k := (degre d k - 1)%Z]> d)) ≤ size (positifs d))%nat ∧
  (degre d k - 1 = 0 →
   S (size (positifs (<[k := degre d k - 1]> d))) = size (positifs d)).
Proof.
  unfold positifs at 1 3. rewrite map_filter_insert.
  destruct (decide (0 < (k, degre d k - 1).2)) as [Hpos|Hneg]; cbn [snd] in *.
  - assert (Hk : positifs d !! k = Some (degre d k)).
    { apply positifs_lookup. split; [apply degre_positif|]; lia. }
    fold (positifs d). rewrite map_size_insert, Hk. cbn [id].
    split; [done|lia].
  - rewrite map_filter_delete. fold (positifs d). split.
    + rewrite map_size_delete. destruct (positifs d !! k); cbn; lia.
    + intros H0.
      assert (Hk : positifs d !! k = Some (degre d k)).
      { apply positifs_lookup. split; [apply degre_positif|]; lia. }
      rewrite <- (insert_delete_id (positifs d) k _ Hk) at 2.
      rewrite map_size_insert, lookup_delete_eq. done.
Qed.

Lemma tri_successeur_mesure (k : string) s :
  ∃ s', (ajoute k (-1) ;;;
         s1 <- get ;;
         if decide (degre (in_degree s1) k = 0)
         then modify (sur_queue (λ q, q ++ [k]))
         else ret tt) s = Val tt s' ∧
        (mesure s' ≤ mesure s)%nat.
Proof.
  unfold bind, ajoute, modify, get.
  cbn [in_degree sur_in_degree].
  assert (Hd : degre (<[k := degre (in_degree s) k + -1]> (in_degree s)) k
               = degre (in_degree s) k - 1).
  { unfold degre at 1. rewrite lookup_insert_eq. cbn. lia. }
  destruct (positifs_decr (in_degree s) k) as [Hle Hzero].
  replace (degre (in_degree s) k + -1) with (degre (in_degree s) k - 1) in * by lia.
  destruct (decide (degre (<[k := degre (in_degree s) k - 1]> (in_degree s)) k = 0))
    as [H0|Hn].
  - eexists. split; [done|]. unfold mesure.
    cbn [queue in_degree sur_queue sur_in_degree]. rewrite length_app. cbn [length].
    replace (degre (in_degree s) k + -1) with (degre (in_degree s) k - 1) by lia.
    rewrite Hd in H0. specialize (Hzero H0). lia.
  - eexists. split; [done|]. unfold mesure.
    cbn [queue in_degree sur_queue sur_in_degree].
    replace (degre (in_degree s) k + -1) with (degre (in_degree s) k - 1) by lia.
    lia.
Qed.

Lemma tri_etape_mesure e s :
  queue s ≠ [] →
  match tri_etape e s with
  | Val _ s' => (mesure s' < mesure s)%nat
  | Exc _ _ => True
  | Div => False
  end.
Proof.
  intros Hq. unfold tri_etape. rewrite bind_get.
  destruct (queue s) as [|c rest] eqn:Hqs; [done|].
  unfold bind at 1, modify at 1. unfold bind at 1, modify at 1.
  unfold bind at 1, lire at 1.
  destruct (taches_dict (self e) !! c) as [tache|]; [|done]. unfold ret at 1.
  set (s1 := sur_ordre (λ o, o ++ [c]) (sur_queue (λ _, rest) s)).
  assert (Hs1 : S (mesure s1) = mesure s).
  { unfold mesure, s1. cbn [queue in_degree sur_queue sur_ordre]. rewrite Hqs.
    cbn [length]. lia. }
  destruct (for_inv (λ _ s', (mesure s' ≤ mesure s1)%nat)
              (successeurs (base e) tache)
              (λ successeur,
                 ajoute (code successeur) (-1) ;;;
                 s' <- get ;;
                 if decide (degre (in_degree s') (code successeur) = 0)
                 then modify (sur_queue (λ q, q ++ [code successeur]))
                 else ret tt) s1) as (s2 & Hrun & Hle).
  - done.
  - intros pre x post s' _ Hs'.
    destruct (tri_successeur_mesure (code x) s') as (s'' & Hstep & Hle).
    exists s''. split; [done|]. lia.
  - rewrite Hrun. lia.
Qed.

Lemma while_sur {St} (mes : St → nat) (fuel : nat) (cond : St → bool)
    (corps : M St unit) (s0 : St) :
  (mes s0 ≤ fuel)%nat →
  (∀ s, cond s = true →
     (0 < mes s)%nat ∧
     match corps s with
     | Val _ s' => (mes s' < mes s)%nat
     | Exc _ _ => True
     | Div => False
     end) →
  while_ fuel cond corps s0 ≠ Div.
Proof.
  intros Hm Hstep. revert s0 Hm.
  induction fuel as [|fuel IH]; intros s Hm; cbn [while_].
  - destruct (cond s) eqn:Hc; [|done].
    destruct (Hstep s Hc) as [Hpos _]. lia.
  - destruct (cond s) eqn:Hc; [|done].
    destruct (Hstep s Hc) as [_ Hs]. unfold bind.
    destruct (corps s) as [[] s'| |]; [|done..].
    apply IH. lia.
Qed.

Lemma tri_compte_cles e :
  ∃ D, tri_compte e (mkKahn ∅ [] []) = Val tt (mkKahn D [] []) ∧
       ∀ k, is_Some (D !! k) → k ∈ code <$> taches (self e).
Proof.
  unfold tri_compte.
  pose (I := λ (pre : list Tache) (s : Kahn),
    queue s = [] ∧ ordre s = [] ∧
    ∀ k, is_Some (in_degree s !! k) → k ∈ code <$> pre).
  destruct (for_inv I (taches (self e))
    (λ tache, s <- get ;;
       (if decide (code tache ∉ dom (in_degree s))
        then modify (sur_in_degree (insert (code tache) 0)) else ret tt) ;;;
       for_ (dependances (base e) tache) (λ _, ajoute (code tache) 1))
    (mkKahn ∅ [] [])) as (s' & Hrun & HI).
  - unfold I. cbn [queue ordre in_degree]. split_and!; [done..|].
    intros k [v Hv]. by rewrite lookup_empty in Hv.
  - intros pre x post s Hl (HQ & HO & Hpre).
    unfold bind, get.
    assert (Hfin : ∀ s1 v, queue s1 = [] → ordre s1 = [] →
              (∀ k, is_Some (in_degree s1 !! k) → k ∈ code <$> pre ++ [x]) →
              I (pre ++ [x]) (sur_in_degree (insert (code x) v) s1)).
    { intros s1 v H1 H2 H3. unfold I, sur_in_degree. cbn [queue ordre in_degree].
      split_and!; [done..|]. intros k Hk.
      apply lookup_insert_is_Some in Hk as [<-|[_ Hk]]; [|by apply H3].
      rewrite fmap_app. apply elem_of_app. right. left. }
    assert (Hpre' : ∀ k, is_Some (in_degree s !! k) → k ∈ code <$> pre ++ [x]).
    { intros k Hk. rewrite fmap_app. apply elem_of_app. left. by apply Hpre. }
    destruct (decide (code x ∉ dom (in_degree s))) as [Hn|Hn].
    + unfold modify.
      erewrite for_ajoute
        by (unfold sur_in_degree; cbn [in_degree]; apply lookup_insert_eq).
      eexists. split; [done|]. apply Hfin; [done..|].
      unfold sur_in_degree. cbn [in_degree]. intros k Hk.
      apply lookup_insert_is_Some in Hk as [<-|[_ Hk]]; [|by apply Hpre'].
      rewrite fmap_app. apply elem_of_app. right. left.
    + assert (Hin : code x ∈ dom (in_degree s)).
      { destruct (decide (code x ∈ dom (in_degree s))); [done|]. by destruct Hn. }
      apply elem_of_dom in Hin as [v Hv]. unfold ret.
      erewrite for_ajoute by exact Hv.
      eexists. split; [done|]. by apply Hfin.
  - destruct HI as (HQ & HO & Hk). destruct s' as [D Q O].
    cbn [queue ordre in_degree] in *. subst. by exists D.
Qed.

Lemma map_size_liste (m : gmap string Z) (l : list string) :
  (∀ k, is_Some (m !! k) → k ∈ l) → (size m ≤ length l)%nat.
Proof.
  intros Hk. rewrite <- length_map_to_list, <- (length_fmap fst).
  apply submseteq_length, NoDup_submseteq; [apply NoDup_fst_map_to_list|].
  intros k Hin. apply list_elem_of_fmap in Hin as ([k' v] & -> & Hin).
  apply elem_of_map_to_list in Hin. apply Hk. by eexists.
Qed.

Lemma filtres_exclusifs {A} (P Q : A → Prop) `{∀ x, Decision (P x)}
    `{∀ x, Decision (Q x)} (l : list A) :
  (∀ x, P x → ¬ Q x) →
  (length (filter P l) + length (filter Q l) ≤ length l)%nat.
Proof.
  intros Hex. induction l as [|x l IH]; [done|].
  rewrite !filter_cons. destruct (decide (P x)) as [Hp|Hp].
  - destruct (decide (Q x)) as [Hq|Hq]; [by destruct (Hex x Hp)|].
    cbn [length]. lia.
  - destruct (decide (Q x)); cbn [length]; lia.
Qed.

(** The topological sort returns or raises: the bound of its loop is never
    exhausted, whatever the collection and the database. *)
Lemma sur_tri_topologique : sur _tri_topologique.
Proof.
  intros e. unfold _tri_topologique. rewrite bind_get. unfold localement.
  destruct (tri_compte_cles e) as (D & Hcompte & Hcles).
  rewrite (bind_Val _ _ _ _ _ Hcompte).
  unfold tri_file. unfold bind at 1. unfold bind at 1, get at 1, modify at 1.
  cbn [in_degree sur_queue queue ordre].
  set (Q0 := code <$> filter (λ t, degre D (code t) = 0) (taches (self e))).
  assert (Hw : while_ (length (taches (self e)) + length (table (base e)))
                 (λ s, bool_decide (queue s ≠ [])) (tri_etape e) (mkKahn D Q0 [])
               ≠ Div).
  { apply (while_sur mesure).
    - unfold mesure. cbn [queue in_degree]. unfold Q0. rewrite length_fmap.
      assert (Hp : (size (positifs D)
                    ≤ length (filter (λ t, (0 < degre D (code t))%Z) (taches (self e))))%nat).
      { rewrite <- (length_fmap code). apply map_size_liste. intros k [v Hv].
        apply positifs_lookup in Hv as [Hv Hpos].
        assert (Hin : k ∈ code <$> taches (self e)) by (apply Hcles; by eexists).
        apply list_elem_of_fmap in Hin as (t & -> & Ht).
        apply list_elem_of_fmap. exists t. split; [done|].
        apply list_elem_of_filter. split; [|done]. unfold degre. by rewrite Hv. }
      pose proof (filtres_exclusifs (λ t, degre D (code t) = 0)
                    (λ t, 0 < degre D (code t)) (taches (self e))) as Hex.
      cbv beta in Hex. assert (∀ x : Tache, degre D (code x) = 0 → ¬ 0 < degre D (code x))
        as Hx by (intros; lia).
      specialize (Hex Hx). lia.
    - intros s Hc. apply bool_decide_eq_true in Hc. split.
      + unfold mesure. destruct (queue s); [done|]. cbn [length]. lia.
      + by apply tri_etape_mesure. }
  unfold bind.
  destruct (while_ _ _ _ _) as [[] s'| |]; done.
Qed.

(** ** Every method returns or raises *)

Lemma sur_ret {St A} (a : A) : sur (ret (St := St) a).
Proof. by intros s. Qed.
Lemma sur_raise {St A} x : sur (raise (St := St) (A := A) x).
Proof. by intros s. Qed.
Lemma sur_get {St} : sur (get (St := St)).
Proof. by intros s. Qed.
Lemma sur_modify {St} (f : St → St) : sur (modify f).
Proof. by intros s. Qed.

Lemma sur_bind {St A B} (m : M St A) (f : A → M St B) :
  sur m → (∀ a, sur (f a)) → sur (bind m f).
Proof.
  intros Hm Hf s. specialize (Hm s). unfold bind.
  destruct (m s) as [a s'| |]; [apply Hf|done..].
Qed.

Lemma sur_for {St X} (l : list X) (corps : X → M St unit) :
  (∀ x, sur (corps x)) → sur (for_ l corps).
Proof.
  intros Hc. induction l as [|x l IH]; cbn [for_]; [apply sur_ret|].
  apply sur_bind; [apply Hc|]. intros _. apply IH.
Qed.

Lemma sur_lire {St V} (d : gmap string V) k : sur (lire (St := St) d k).
Proof. intros s. unfold lire. by destruct (d !! k). Qed.
Lemma sur_py_max {St} l : sur (py_max (St := St) l).
Proof. intros s. by destruct l. Qed.
Lemma sur_py_min {St} l : sur (py_min (St := St) l).
Proof. intros s. by destruct l. Qed.

Lemma sur_lire_tous {St} d l : sur (lire_tous (St := St) d l).
Proof.
  induction l as [|k l IH]; cbn [lire_tous]; [apply sur_ret|].
  apply sur_bind; [apply sur_lire|]. intros v.
  apply sur_bind; [apply IH|]. intros vs. apply sur_ret.
Qed.

Lemma sur_pour_chaque_tache (corps : nat → Tache → M Etat unit) :
  (∀ i t, sur (corps i t)) → sur (pour_chaque_tache corps).
Proof.
  intros Hc. unfold pour_chaque_tache. apply sur_bind; [apply sur_get|].
  intros e0. apply sur_for. intros i. apply sur_bind; [apply sur_get|].
  intros e. destruct (taches (self e) !! i); [apply Hc|apply sur_ret].
Qed.

Lemma sur_tot_etape c : sur (tot_etape c).
Proof.
  unfold tot_etape. apply sur_bind; [apply sur_get|]. intros e.
  apply sur_bind; [apply sur_lire|]. intros tache.
  apply sur_bind.
  { destruct (dependances (base e) tache); [apply sur_modify|].
    apply sur_bind; [apply sur_lire_tous|]. intros fins.
    apply sur_bind; [apply sur_py_max|]. intros m. apply sur_modify. }
  intros _. apply sur_bind; [apply sur_get|]. intros e'.
  apply sur_bind; [apply sur_lire|]. intros debut. apply sur_modify.
Qed.

Lemma sur_tard_finale t : sur (tard_finale t).
Proof.
  unfold tard_finale. apply sur_bind; [apply sur_get|]. intros e.
  destruct (successeurs (base e) t); [|apply sur_ret].
  apply sur_bind; [apply sur_lire|]. intros fin.
  apply sur_bind; [apply sur_modify|]. intros _.
  apply sur_bind; [apply sur_get|]. intros e'.
  apply sur_bind; [apply sur_lire|]. intros fin_tard. apply sur_modify.
Qed.

Lemma sur_tard_etape c : sur (tard_etape c).
Proof.
  unfold tard_etape. apply sur_bind; [apply sur_get|]. intros e.
  apply sur_bind; [apply sur_lire|]. intros tache.
  apply sur_bind.
  { destruct (successeurs (base e) tache); [apply sur_ret|].
    apply sur_bind; [apply sur_lire_tous|]. intros debuts.
    apply sur_bind; [apply sur_py_min|]. intros m. apply sur_modify. }
  intros _. apply sur_bind; [apply sur_get|]. intros e'.
  apply sur_bind; [apply sur_lire|]. intros fin_tard. apply sur_modify.
Qed.

Lemma sur_marges_etape i t : sur (marges_etape i t).
Proof.
  unfold marges_etape. apply sur_bind; [apply sur_get|]. intros e.
  apply sur_bind; [apply sur_lire|]. intros debut_tard.
  apply sur_bind; [apply sur_lire|]. intros debut_tot.
  apply sur_bind; [apply sur_modify|]. intros _.
  destruct (successeurs (base e) t).
  - apply sur_bind; [apply sur_get|]. intros e'.
    destruct (taches (self e') !! i); [apply sur_modify|apply sur_ret].
  - apply sur_bind; [apply sur_lire_tous|]. intros debuts.
    apply sur_bind; [apply sur_py_min|]. intros m.
    apply sur_bind; [apply sur_lire|]. intros fin_tot. apply sur_modify.
Qed.

Lemma sur_sauvegarder_etape i t : sur (sauvegarder_etape i t).
Proof.
  unfold sauvegarder_etape. apply sur_bind; [apply sur_get|]. intros e.
  apply sur_bind; [apply sur_lire|]. intros v1.
  apply sur_bind; [apply sur_modify|]. intros _.
  apply sur_bind; [apply sur_lire|]. intros v2.
  apply sur_bind; [apply sur_modify|]. intros _.
  apply sur_bind; [apply sur_lire|]. intros v3.
  apply sur_bind; [apply sur_modify|]. intros _.
  apply sur_bind; [apply sur_lire|]. intros v4.
  apply sur_bind; [apply sur_modify|]. intros _.
  unfold save. apply sur_bind; [apply sur_modify|]. intros _.
  apply sur_bind; [apply sur_get|]. intros e'.
  destruct (taches (self e') !! i); [apply sur_modify|apply sur_ret].
Qed.

Lemma sur_calculer_dates_tot : sur _calculer_dates_tot.
Proof.
  unfold _calculer_dates_tot. apply sur_bind; [apply sur_get|]. intros e0.
  apply sur_bind.
  { apply sur_for. intros t. apply sur_bind; [apply sur_modify|].
    intros _. apply sur_modify. }
  intros _. apply sur_bind; [apply sur_tri_topologique|]. intros ordre.
  apply sur_for, sur_tot_etape.
Qed.

Lemma sur_calculer_dates_tard : sur _calculer_dates_tard.
Proof.
  unfold _calculer_dates_tard. apply sur_bind; [apply sur_get|]. intros e0.
  apply sur_bind; [apply sur_py_max|]. intros date_fin_projet.
  apply sur_bind.
  { apply sur_for. intros t. apply sur_bind; [apply sur_modify|].
    intros _. apply sur_modify. }
  intros _. apply sur_bind; [apply sur_for, sur_tard_finale|].
  intros _. apply sur_bind; [apply sur_tri_topologique|]. intros ordre.
  apply sur_for, sur_tard_etape.
Qed.

(** ** Before the results are saved *)

(** [calculer], on a collection that is not empty, is the [try] around
    [avant_sauvegarde], [_sauvegarder_resultats] and [return True]. *)
Lemma calculer_avant_sauvegarde e :
  taches (self e) ≠ [] →
  calculer e = essayer (avant_sauvegarde ;;; _sauvegarder_resultats ;;; ret true) e.
Proof.
  intros Hne. unfold calculer. rewrite bind_get.
  destruct (taches (self e)) as [|t0 l]; [done|].
  unfold essayer, avant_sauvegarde, bind.
  destruct (_has_circular_dependency e) as [[] s1|x s1|]; [done| |done..].
  cbn [ret].
  destruct (_calculer_dates_tot s1) as [[] s2|x s2|]; [|done..].
  destruct (_calculer_dates_tard s2) as [[] s3|x s3|]; [|done..].
  destruct (_calculer_marges s3) as [[] s4|x s4|]; done.
Qed.

Lemma avant_sauvegarde_fige e :
  triplet (fige e) avant_sauvegarde
    (λ _ s, (fige e s ∧ couvre_tot (code <$> taches (self e)) s) ∧
            couvre_tard (code <$> taches (self e)) s)
    (fige e).
Proof.
  set (cs := code <$> taches (self e)) in *.
  set (J1 := λ s, fige e s ∧ couvre_tot cs s).
  set (J2 := λ s, J1 s ∧ couvre_tard cs s).
  pose proof (clos_fige e) as H0.
  pose proof (clos_et _ _ H0 (clos_couvre_tot cs)) as H1.
  pose proof (clos_et _ _ H1 (clos_couvre_tard cs)) as H2.
  unfold avant_sauvegarde.
  apply (triplet_bind _ _ (λ _, fige e));
    [apply triplet_pur, pur_has_circular_dependency|].
  intros circulaire. apply (triplet_bind _ _ (λ _, fige e)).
  { destruct circulaire; [by apply triplet_raise|by apply triplet_ret]. }
  intros ?. apply (triplet_bind _ _ (λ _, J1)).
  { apply tot_couvre; [done|]. apply fige_codes. }
  intros ?. apply (triplet_bind _ _ (λ _, J2)).
  { apply (triplet_conseq _ J1 _ _ (λ _, J2) _ J1);
      [|done|done|by intros s [? ?]].
    apply (tard_couvre J1 H1 cs). intros s [Hs _]. by apply fige_codes. }
  intros ?.
  apply (triplet_conseq _ J2 _ _ (λ _, J2) _ J2);
    [|done|done|by intros s [[? ?] ?]].
  by apply inv_calculer_marges.
Qed.

Lemma sur_calculer_marges : sur _calculer_marges.
Proof. apply sur_pour_chaque_tache, sur_marges_etape. Qed.

Lemma sur_sauvegarder_resultats : sur _sauvegarder_resultats.
Proof. apply sur_pour_chaque_tache, sur_sauvegarder_etape. Qed.

(** On a calculator just built, [avant_sauvegarde] returns or raises. *)
Lemma avant_sauvegarde_termine b ts :
  avant_sauvegarde (mkEtat (__init__ ts) b) ≠ Div.
Proof.
  set (e0 := mkEtat (__init__ ts) b).
  destruct (has_circular_spec b ts e0 (coherent_init b ts)) as (r & Hcirc & _).
  unfold avant_sauvegarde. rewrite (bind_Val _ _ _ _ _ Hcirc).
  apply sur_bind; [destruct r; [apply sur_raise|apply sur_ret]|]. intros _.
  apply sur_bind; [apply sur_calculer_dates_tot|]. intros _.
  apply sur_bind; [apply sur_calculer_dates_tard|]. intros _.
  apply sur_calculer_marges.
Qed.

(** [calculer] returns a boolean, whatever the collection and the
    database. *)
Lemma calculer_total b ts : ∃ r e', lancer b ts = Val r e'.
Proof.
  destruct ts as [|t0 l]; [by eexists _, _|].
  unfold lancer. rewrite calculer_avant_sauvegarde by done.
  pose proof (avant_sauvegarde_termine b (t0 :: l)) as Hav.
  unfold essayer, bind.
  destruct (avant_sauvegarde _) as [[] s1|x s1|]; [|by eexists _, _|done].
  pose proof (sur_sauvegarder_resultats s1) as Hs.
  destruct (_sauvegarder_resultats s1) as [[] s2|x s2|];
    [by eexists _, _|by eexists _, _|done].
Qed.

(** X6 — The statements of [calculer] that come before
    [_sauvegarder_resultats] write nothing.  On a calculator just built they
    return or raise, and in both cases the database is as before the call
    and every task object keeps its key, its code, its duration and its four
    dates: at most margins have been assigned.  When they return, every
    entry of the four dictionaries that [_sauvegarder_resultats] reads is
    there, so that from then on only [tache.save()] can make [calculer]
    fail. *)
Theorem X6_rien_ecrit_avant_sauvegarde b ts :
  (∃ s, avant_sauvegarde (mkEtat (__init__ ts) b) = Val tt s ∧
        base s = b ∧ Forall2 memes_dates ts (taches (self s)) ∧
        ∀ t, t ∈ taches (self s) →
          is_Some (dates_debut_tot (self s) !! code t) ∧
          is_Some (dates_fin_tot (self s) !! code t) ∧
          is_Some (dates_debut_tard (self s) !! code t) ∧
          is_Some (dates_fin_tard (self s) !! code t)) ∨
  (∃ x s, avant_sauvegarde (mkEtat (__init__ ts) b) = Exc x s ∧
          base s = b ∧ Forall2 memes_dates ts (taches (self s))).
Proof.
  set (e0 := mkEtat (__init__ ts) b).
  pose proof (avant_sauvegarde_fige e0 e0 (fige_refl e0)) as H.
  pose proof (avant_sauvegarde_termine b ts) as Hdiv. fold e0 in Hdiv.
  destruct (avant_sauvegarde e0) as [[] s|x s|]; [left|right|done].
  - destruct H as [[Hf Htot] Htard]. exists s.
    pose proof Hf as (Hb & _ & Hts). split_and!; [done..|].
    intros t Ht.
    assert (Hc : code t ∈ code <$> taches (self e0)).
    { rewrite <- (fige_codes e0 s Hf). by apply list_elem_of_fmap_2. }
    destruct (Htot _ Hc), (Htard _ Hc). done.
  - destruct H as (Hb & _ & Hts). by exists x, s.
Qed.

(** On a well-formed acyclic collection the statements before
    [_sauvegarder_resultats] return, and the dictionaries of the forward
    pass satisfy its equations. *)
Lemma avant_sauvegarde_reussit b ts :
  bien_forme b ts → acyclique b ts → ts ≠ [] →
  ∃ e1, avant_sauvegarde (mkEtat (__init__ ts) b) = Val tt e1 ∧
        ∀ t, t ∈ ts →
          tot_ok b (dates_debut_tot (self e1)) (dates_fin_tot (self e1)) t.
Proof.
  intros Hbf Hac Hne.
  pose (e0 := mkEtat (__init__ ts) b).
  pose proof (coherent_init b ts) as Hcoh0. fold e0 in Hcoh0.
  destruct (has_circular_spec b ts e0 Hcoh0) as (r & Hcirc & Hr).
  assert (r = false) as ->.
  { destruct r; [|done]. exfalso.
    destruct (arc_cyclique b ts e0 Hbf Hcoh0) as (t & Ht); [by apply Hr|].
    by apply (Hac t). }
  destruct (calculer_dates_tot_spec b ts Hbf e0 Hcoh0 Hac)
    as (e1 & Htot & Hcoh1 & _ & _ & Htot_ok).
  destruct (calculer_dates_tard_spec b ts Hbf e1 Hcoh1 Hac Hne)
    as (e2 & Htard & Hcoh2 & Hes2 & Hef2 & Htard_ok).
  { intros t Ht. destruct (Htot_ok t Ht) as (v & _ & Hv & _). by eexists. }
  assert (Htot_ok2 : ∀ t, t ∈ ts →
            tot_ok b (dates_debut_tot (self e2)) (dates_fin_tot (self e2)) t).
  { intros t Ht. rewrite Hes2, Hef2. by apply Htot_ok. }
  pose proof Hcoh2 as (Hts2 & _ & Hb2).
  destruct (calculer_marges_spec b ts e2 Hb2 Hts2) as (ts3 & Hmarges & Hlen3 & H3).
  { intros t Ht. destruct (Htot_ok2 t Ht) as (v & Hv1 & Hv2 & _).
    destruct (Htard_ok t Ht) as (w & _ & Hw & _). split_and!; by eexists. }
  { apply Hbf. }
  exists (sur_self (sur_taches (λ _, ts3)) e2). split; [|exact Htot_ok2].
  unfold avant_sauvegarde. fold e0. rewrite (bind_Val _ _ _ _ _ Hcirc).
  rewrite bind_ret.
  by rewrite (bind_Val _ _ _ _ _ Htot), (bind_Val _ _ _ _ _ Htard).
Qed.

(** X12 — [calculer] is total: whatever the collection the calculator is
    built from and whatever the database, the call returns a boolean.  No
    exception escapes it, the recursion of the cycle detector stays within
    [len(taches) + 1] calls, and the loop of the topological sort ends. *)
Theorem X12_calculer_total b ts : ∃ r e', lancer b ts = Val r e'.
Proof. exact (calculer_total b ts). Qed.

(** * The claims *)

(** C1 — Forward pass, as the claim states it, fails: the only task of the
    collection depends on a row outside the collection; the collection is
    acyclic, the run returns [True], and the task of duration 3 gets an
    earliest start and an earliest finish of 0. *)
Lemma C1_contre_exemple :
  acyclique externe [tache 1 "A" 3] ∧
  ∃ e' t, lancer externe [tache 1 "A" 3] = Val true e' ∧
          t ∈ taches (self e') ∧ dependances externe t ≠ [] ∧
          duree t = 3 ∧ date_debut_tot t = Some 0 ∧ date_fin_tot t = Some 0 ∧
          ¬ passe_avant_ok externe (taches (self e')) t.
Proof.
  split.
  - apply acyclique_par_detection; [appartient|par_calcul].
  - exists (etat_final (lancer externe [tache 1 "A" 3]) (mkEtat (__init__ []) externe)),
      (mkTache 1 "A" 3 (Some 0) (Some 0) (Some (-3)) (Some 0) (Some (-3)) (Some (-3))).
    split_and!; [par_calcul|appartient|vm_compute; discriminate|done..|].
    intros (es & H1 & H2 & _). cbn in H1, H2. injection H1 as <-. discriminate H2.
Qed.

(** C1 — Forward pass, amended.  After a successful run of [calculer] on
    a well-formed acyclic collection (distinct keys and codes, every
    dependency and every successor of a task inside the collection), every
    task has an earliest start of 0 when it has no dependency and otherwise
    equal to the greatest earliest finish of its direct dependencies, and an
    earliest finish equal to its earliest start plus its duration. *)
Theorem C1_passe_avant b ts e' :
  bien_forme b ts → acyclique b ts → lancer b ts = Val true e' →
  ∀ t, t ∈ taches (self e') → passe_avant_ok b (taches (self e')) t.
Proof.
  intros Hbf Hac Hrun t Ht.
  destruct (decide (ts = [])) as [->|Hne].
  { rewrite (lancer_vide b e' Hrun) in Ht. by inversion Ht. }
  destruct (planning b ts e' Hbf Hac Hne Hrun)
    as (es & ef & ls & lf & Hok & Hlen & Hres).
  by apply (planning_avant b ts Hbf es ef ls lf (taches (self e')) Hok Hlen Hres).
Qed.

Lemma C1_passe_avant_witness :
  bien_forme parallele (table parallele) ∧
  acyclique parallele (table parallele) ∧
  lancer parallele (table parallele) = Val true final_parallele ∧
  resultat_D ∈ taches (self final_parallele) ∧
  passe_avant_ok parallele (taches (self final_parallele)) resultat_D.
Proof.
  assert (H1 : bien_forme parallele (table parallele))
    by (apply bien_forme_b_correct; par_calcul).
  assert (H2 : acyclique parallele (table parallele))
    by (apply acyclique_par_detection; [apply H1|par_calcul]).
  assert (H3 : lancer parallele (table parallele) = Val true final_parallele)
    by par_calcul.
  assert (H4 : resultat_D ∈ taches (self final_parallele)) by appartient.
  split_and!; [exact H1|exact H2|exact H3|exact H4|].
  exact (C1_passe_avant parallele (table parallele) _ H1 H2 H3 _ H4).
Defined.

(** C2 — Backward pass, as the claim states it, fails: [A] depends on a
    row outside the collection and [B] depends on [A]; the collection is
    acyclic, the run returns [True], and [A] keeps a latest finish and a
    latest start of 0 although its duration is 3 and its only successor has
    a latest start of -2. *)
Lemma C2_contre_exemple :
  acyclique externe_chaine [tache 1 "A" 3; tache 2 "B" 2] ∧
  ∃ e' t s,
    lancer externe_chaine [tache 1 "A" 3; tache 2 "B" 2] = Val true e' ∧
    t ∈ taches (self e') ∧
    successeurs_dans externe_chaine (taches (self e')) t = [s] ∧
    duree t = 3 ∧ date_fin_tard t = Some 0 ∧ date_debut_tard t = Some 0 ∧
    date_debut_tard s = Some (-2) ∧
    ¬ passe_arriere_ok externe_chaine (taches (self e')) t.
Proof.
  split.
  - apply acyclique_par_detection; [appartient|par_calcul].
  - exists (etat_final (lancer externe_chaine [tache 1 "A" 3; tache 2 "B" 2])
              (mkEtat (__init__ []) externe_chaine)),
      (mkTache 1 "A" 3 (Some 0) (Some 0) (Some 0) (Some 0) (Some 0) (Some 0)),
      (mkTache 2 "B" 2 (Some 0) (Some 0) (Some (-2)) (Some 0) (Some (-2)) (Some (-2))).
    split_and!; [par_calcul|appartient|par_calcul|done..|].
    intros (lf & H1 & H2 & _). cbn in H1, H2. injection H1 as <-. discriminate H2.
Qed.

(** C2 — Backward pass, amended.  After a successful run of [calculer] on
    a well-formed acyclic collection (distinct keys and codes, every
    dependency and every successor of a task inside the collection), every
    task without successor has a latest finish equal to its own earliest
    finish, every other task has a latest finish equal to the least latest
    start of its direct successors, and in both cases the latest start is the
    latest finish minus the duration. *)
Theorem C2_passe_arriere b ts e' :
  bien_forme b ts → acyclique b ts → lancer b ts = Val true e' →
  ∀ t, t ∈ taches (self e') → passe_arriere_ok b (taches (self e')) t.
Proof.
  intros Hbf Hac Hrun t Ht.
  destruct (decide (ts = [])) as [->|Hne].
  { rewrite (lancer_vide b e' Hrun) in Ht. by inversion Ht. }
  destruct (planning b ts e' Hbf Hac Hne Hrun)
    as (es & ef & ls & lf & Hok & Hlen & Hres).
  by apply (planning_arriere b ts Hbf es ef ls lf (taches (self e')) Hok Hlen Hres).
Qed.

Lemma C2_passe_arriere_witness :
  bien_forme parallele (table parallele) ∧
  acyclique parallele (table parallele) ∧
  lancer parallele (table parallele) = Val true final_parallele ∧
  resultat_B ∈ taches (self final_parallele) ∧
  passe_arriere_ok parallele (taches (self final_parallele)) resultat_B.
Proof.
  assert (H1 : bien_forme parallele (table parallele))
    by (apply bien_forme_b_correct; par_calcul).
  assert (H2 : acyclique parallele (table parallele))
    by (apply acyclique_par_detection; [apply H1|par_calcul]).
  assert (H3 : lancer parallele (table parallele) = Val true final_parallele)
    by par_calcul.
  assert (H4 : resultat_B ∈ taches (self final_parallele)) by appartient.
  split_and!; [exact H1|exact H2|exact H3|exact H4|].
  exact (C2_passe_arriere parallele (table parallele) _ H1 H2 H3 _ H4).
Defined.

(** C3 — Cycles, as the claim states it, fails: on the two-task cycle the
    run does not end with an exception, it returns [False]. *)
Lemma C3_contre_exemple :
  cyclique cycle2 (table cycle2) ∧
  lancer cycle2 (table cycle2)
  = Val false (mkEtat (__init__ (table cycle2)) cycle2) ∧
  ¬ ∃ x e, lancer cycle2 (table cycle2) = Exc x e.
Proof.
  split_and!.
  - exists (tache 1 "A" 5). apply (tc_l _ _ (tache 2 "B" 3)); [|apply tc_once];
      split_and!; appartient.
  - par_calcul.
  - intros (x & e & H). vm_compute in H. discriminate H.
Qed.

(** C3 — Cycles, amended.  If the dependency graph of a collection with
    distinct codes has a cycle, [calculer] returns [False] (its own [except]
    clause catches the [ValueError] it raises) and no derived field is
    computed or written: the calculator and the database are as before the
    call. *)
Theorem C3_cycle_refuse b ts :
  NoDup (code <$> ts) → cyclique b ts →
  lancer b ts = Val false (mkEtat (__init__ ts) b).
Proof.
  intros Hnd Hcyc.
  pose proof (coherent_init b ts) as Hcoh.
  destruct (has_circular_spec b ts _ Hcoh) as (r & Hcirc & Hr).
  assert (r = true) as ->.
  { apply Hr. by apply (cyclique_arc b ts). }
  assert (Hne : ts ≠ []).
  { intros ->. destruct Hcyc as (t & Ht).
    assert (∃ y, depend b [] t y) as (y & Hy & _) by (inversion Ht; eauto).
    by inversion Hy. }
  unfold lancer, calculer. rewrite bind_get. cbn [self taches __init__].
  destruct ts as [|t0 ts']; [done|]. unfold essayer.
  by rewrite (bind_Val _ _ _ _ _ Hcirc).
Qed.

Lemma C3_cycle_refuse_witness :
  NoDup (code <$> table cycle2) ∧ cyclique cycle2 (table cycle2) ∧
  lancer cycle2 (table cycle2)
  = Val false (mkEtat (__init__ (table cycle2)) cycle2).
Proof.
  assert (H1 : NoDup (code <$> table cycle2)) by appartient.
  assert (H2 : cyclique cycle2 (table cycle2)).
  { exists (tache 1 "A" 5). apply (tc_l _ _ (tache 2 "B" 3)); [|apply tc_once];
      split_and!; appartient. }
  split_and!; [exact H1|exact H2|].
  exact (C3_cycle_refuse cycle2 (table cycle2) H1 H2).
Defined.

(** C4 — Total slack, as the claim states it, fails: on the acyclic
    collection whose only task depends on a row outside the collection the
    run succeeds and stores a total slack of -3; nothing is raised. *)
Lemma C4_contre_exemple :
  acyclique externe [tache 1 "A" 3] ∧
  ∃ e' t, lancer externe [tache 1 "A" 3] = Val true e' ∧
          t ∈ taches (self e') ∧ marge_totale t = Some (-3).
Proof.
  split.
  - apply acyclique_par_detection; [appartient|par_calcul].
  - exists (etat_final (lancer externe [tache 1 "A" 3]) (mkEtat (__init__ []) externe)),
      (mkTache 1 "A" 3 (Some 0) (Some 0) (Some (-3)) (Some 0) (Some (-3)) (Some (-3))).
    split_and!; [par_calcul|appartient|done].
Qed.

(** C4 — Total slack, amended.  For every task of every successfully
    scheduled well-formed acyclic collection, the total slack equals the
    latest start minus the earliest start and is not negative; the code has
    no check of the sign of the value it stores. *)
Theorem C4_marge_totale b ts e' :
  bien_forme b ts → acyclique b ts → lancer b ts = Val true e' →
  ∀ t, t ∈ taches (self e') → marge_totale_ok t.
Proof.
  intros Hbf Hac Hrun t Ht.
  destruct (decide (ts = [])) as [->|Hne].
  { rewrite (lancer_vide b e' Hrun) in Ht. by inversion Ht. }
  destruct (planning b ts e' Hbf Hac Hne Hrun)
    as (es & ef & ls & lf & Hok & Hlen & Hres).
  by apply (planning_marge_totale b ts Hbf Hac es ef ls lf (taches (self e'))
              Hok Hlen Hres).
Qed.

Lemma C4_marge_totale_witness :
  bien_forme parallele (table parallele) ∧
  acyclique parallele (table parallele) ∧
  lancer parallele (table parallele) = Val true final_parallele ∧
  resultat_B ∈ taches (self final_parallele) ∧
  marge_totale_ok resultat_B.
Proof.
  assert (H1 : bien_forme parallele (table parallele))
    by (apply bien_forme_b_correct; par_calcul).
  assert (H2 : acyclique parallele (table parallele))
    by (apply acyclique_par_detection; [apply H1|par_calcul]).
  assert (H3 : lancer parallele (table parallele) = Val true final_parallele)
    by par_calcul.
  assert (H4 : resultat_B ∈ taches (self final_parallele)) by appartient.
  split_and!; [exact H1|exact H2|exact H3|exact H4|].
  exact (C4_marge_totale parallele (table parallele) _ H1 H2 H3 _ H4).
Defined.




(** C6 — Critical path, as the claim states it, fails: on the non-empty
    acyclic collection whose only task depends on a row outside the
    collection the run returns [True], no task is critical (the total slack
    is -3) and [get_chemin_critique] returns the empty list. *)
Lemma C6_contre_exemple :
  acyclique externe [tache 1 "A" 3] ∧ [tache 1 "A" 3] ≠ [] ∧
  ∃ e', lancer externe [tache 1 "A" 3] = Val true e' ∧
        (∀ t, t ∈ taches (self e') → est_critique t = false) ∧
        get_chemin_critique e' = Val [] e'.
Proof.
  split_and!; [apply acyclique_par_detection; [appartient|par_calcul]|done|].
  set (e' := etat_final (lancer externe [tache 1 "A" 3]) (mkEtat (__init__ []) externe)).
  exists e'. split_and!; [par_calcul| |par_calcul].
  assert (Hts : taches (self e')
    = [mkTache 1 "A" 3 (Some 0) (Some 0) (Some (-3)) (Some 0) (Some (-3)) (Some (-3))])
    by par_calcul.
  intros t Ht. rewrite Hts in Ht. by apply list_elem_of_singleton in Ht as ->.
Qed.

(** C6 — Critical path, amended.  After a successful run on a non-empty
    well-formed acyclic collection (distinct keys and codes, every dependency
    and every successor of a task inside the collection), a task is flagged
    critical if and only if its total slack is 0, some task is critical, and
    [get_chemin_critique] returns exactly the critical tasks, sorted by
    earliest start. *)
Theorem C6_chemin_critique b ts e' :
  bien_forme b ts → acyclique b ts → ts ≠ [] → lancer b ts = Val true e' →
  (∀ t, est_critique t = true ↔ marge_totale t = Some 0) ∧
  (∃ t, t ∈ taches (self e') ∧ est_critique t = true) ∧
  ∃ l, get_chemin_critique e' = Val l e' ∧
       l ≡ₚ filter (λ t, est_critique t = true) (taches (self e')) ∧
       StronglySorted debut_avant l.
Proof.
  intros Hbf Hac Hne Hrun.
  destruct (planning b ts e' Hbf Hac Hne Hrun)
    as (es & ef & ls & lf & Hok & Hlen & Hres).
  split_and!.
  - apply est_critique_vrai.
  - destruct (planning_critique b ts Hbf Hac es ef ls lf (taches (self e'))
                Hok Hres Hne) as (t & Ht & Hm).
    exists t. split; [done|]. by apply est_critique_vrai.
  - apply chemin_critique_spec. intros t Ht.
    by apply (planning_dates b ts es ef ls lf (taches (self e')) Hlen Hres).
Qed.

Lemma C6_chemin_critique_witness :
  bien_forme parallele (table parallele) ∧
  acyclique parallele (table parallele) ∧
  table parallele ≠ [] ∧
  lancer parallele (table parallele) = Val true final_parallele ∧
  get_chemin_critique final_parallele
  = Val [resultat_A; resultat_D] final_parallele ∧
  ((∀ t, est_critique t = true ↔ marge_totale t = Some 0) ∧
   (∃ t, t ∈ taches (self final_parallele) ∧ est_critique t = true) ∧
   ∃ l, get_chemin_critique final_parallele = Val l final_parallele ∧
        l ≡ₚ filter (λ t, est_critique t = true) (taches (self final_parallele)) ∧
        StronglySorted debut_avant l).
Proof.
  assert (H1 : bien_forme parallele (table parallele))
    by (apply bien_forme_b_correct; par_calcul).
  assert (H2 : acyclique parallele (table parallele))
    by (apply acyclique_par_detection; [apply H1|par_calcul]).
  assert (H3 : table parallele ≠ []) by discriminate.
  assert (H4 : lancer parallele (table parallele) = Val true final_parallele)
    by par_calcul.
  do 5 (split; [first [assumption|par_calcul]|]).
  exact (C6_chemin_critique parallele (table parallele) _ H1 H2 H3 H4).
Defined.

(** C7 — Unresolved dependency, as the claim states it, fails: the only
    task of the collection depends on a row whose code resolves to no task of
    the collection, yet the run returns [True] and writes derived fields. *)
Lemma C7_contre_exemple :
  (∃ t d, t ∈ [tache 1 "A" 3] ∧ d ∈ dependances externe t ∧
          code d ∉ code <$> [tache 1 "A" 3]) ∧
  ∃ e' t', lancer externe [tache 1 "A" 3] = Val true e' ∧
           t' ∈ taches (self e') ∧ date_debut_tot t' = Some 0 ∧
           date_fin_tot t' = Some 0.
Proof.
  split.
  - exists (tache 1 "A" 3), (tache 2 "X" 1). split_and!; appartient.
  - exists (etat_final (lancer externe [tache 1 "A" 3]) (mkEtat (__init__ []) externe)),
      (mkTache 1 "A" 3 (Some 0) (Some 0) (Some (-3)) (Some 0) (Some (-3)) (Some (-3))).
    split_and!; [par_calcul|appartient|done|done].
Qed.

(** C7 — Unresolved dependency, amended.  If a task carries a dependency
    code that does not resolve to a task in the supplied collection, no
    typed error identifying the code reaches the caller: the cycle detector
    returns without raising, and the run returns a boolean, [True] (as on
    the collection above, where derived fields are written) or [False]. *)
Theorem C7_dependance_non_resolue b ts t d :
  t ∈ ts → d ∈ dependances b t → code d ∉ code <$> ts →
  (∃ r, _has_circular_dependency (mkEtat (__init__ ts) b)
        = Val r (mkEtat (__init__ ts) b)) ∧
  ∃ r e', lancer b ts = Val r e'.
Proof.
  intros _ _ _. split; [|apply calculer_total].
  destruct (has_circular_spec b ts _ (coherent_init b ts)) as (r & Hr & _).
  by exists r.
Qed.

Lemma C7_dependance_non_resolue_witness :
  tache 1 "A" 3 ∈ [tache 1 "A" 3] ∧
  tache 2 "X" 1 ∈ dependances externe (tache 1 "A" 3) ∧
  (code (tache 2 "X" 1) ∉ code <$> [tache 1 "A" 3]) ∧
  ((∃ r, _has_circular_dependency (mkEtat (__init__ [tache 1 "A" 3]) externe)
         = Val r (mkEtat (__init__ [tache 1 "A" 3]) externe)) ∧
   ∃ r e', lancer externe [tache 1 "A" 3] = Val r e').
Proof.
  assert (H1 : tache 1 "A" 3 ∈ [tache 1 "A" 3]) by appartient.
  assert (H2 : tache 2 "X" 1 ∈ dependances externe (tache 1 "A" 3)) by appartient.
  assert (H3 : code (tache 2 "X" 1) ∉ code <$> [tache 1 "A" 3]) by appartient.
  do 3 (split; [assumption|]).
  exact (C7_dependance_non_resolue externe [tache 1 "A" 3] _ _ H1 H2 H3).
Defined.

(** C8 — Validation of durations, as the claim states it, fails: handed a
    task of duration -3, the engine raises nothing and returns [True]. *)
Lemma C8_contre_exemple :
  duree tache_negative ≤ 0 ∧
  ∃ e' t', lancer base_negative [tache_negative] = Val true e' ∧
           t' ∈ taches (self e') ∧ date_fin_tot t' = Some (-3).
Proof.
  split; [done|].
  exists (etat_final (lancer base_negative [tache_negative])
            (mkEtat (__init__ []) base_negative)),
    (mkTache 1 "A" (-3) (Some 0) (Some (-3)) (Some 0) (Some (-3)) (Some 0) (Some 0)).
  split_and!; [par_calcul|appartient|done].
Qed.

(** C8 — Validation of durations, amended.  The scheduling engine does not
    validate durations: on a well-formed acyclic collection holding a task of
    negative duration, the cycle check and the three methods that compute
    raise nothing and give this task an earliest finish that comes before
    its earliest start; [calculer] goes on to save the results, and only a
    failure of the saving can still make it return [False].  The check of the
    duration is in [Tache.clean] and in [TacheForm.clean_duree], which raise
    a [ValidationError] for this duration. *)
Theorem C8_duree_non_validee b ts t :
  bien_forme b ts → acyclique b ts → t ∈ ts → duree t < 0 →
  (∃ e1 es ef,
     avant_sauvegarde (mkEtat (__init__ ts) b) = Val tt e1 ∧
     lancer b ts = essayer (_sauvegarder_resultats ;;; ret true) e1 ∧
     dates_debut_tot (self e1) !! code t = Some es ∧
     dates_fin_tot (self e1) !! code t = Some ef ∧ ef < es) ∧
  (∃ t', clean t = Exc (ValidationError "La duree doit etre superieure a 0") t') ∧
  clean_duree (Some (duree t))
  = inl (ValidationError "La duree doit etre superieure a 0").
Proof.
  intros Hbf Hac Ht Hd. split_and!.
  - assert (Hne : ts ≠ []) by (intros ->; by inversion Ht).
    destruct (avant_sauvegarde_reussit b ts Hbf Hac Hne) as (e1 & Hav & Hok).
    destruct (Hok t Ht) as (es & Hes & Hef & _).
    exists e1, es, (es + duree t). split_and!; [done| |done|done|lia].
    unfold lancer. rewrite calculer_avant_sauvegarde.
    + unfold essayer. by rewrite (bind_Val _ _ _ _ _ Hav).
    + cbn [self taches __init__]. done.
  - unfold clean. rewrite bind_get.
    destruct (decide (code t ≠ "")) as [Hc|Hc].
    + unfold bind, modify.
      destruct (decide (duree t ≠ 0 ∧ duree t ≤ 0)) as [_|Hn]; [by eexists|].
      destruct Hn. lia.
    + unfold bind, ret.
      destruct (decide (duree t ≠ 0 ∧ duree t ≤ 0)) as [_|Hn]; [by eexists|].
      destruct Hn. lia.
  - unfold clean_duree.
    destruct (decide (duree t ≠ 0 ∧ duree t ≤ 0)) as [_|Hn]; [done|].
    destruct Hn. lia.
Qed.

Lemma C8_duree_non_validee_witness :
  bien_forme base_negative [tache_negative] ∧
  acyclique base_negative [tache_negative] ∧
  tache_negative ∈ [tache_negative] ∧
  duree tache_negative < 0 ∧
  ((∃ e1 es ef,
      avant_sauvegarde (mkEtat (__init__ [tache_negative]) base_negative)
      = Val tt e1 ∧
      lancer base_negative [tache_negative]
      = essayer (_sauvegarder_resultats ;;; ret true) e1 ∧
      dates_debut_tot (self e1) !! code tache_negative = Some es ∧
      dates_fin_tot (self e1) !! code tache_negative = Some ef ∧ ef < es) ∧
   (∃ t', clean tache_negative
          = Exc (ValidationError "La duree doit etre superieure a 0") t') ∧
   clean_duree (Some (duree tache_negative))
   = inl (ValidationError "La duree doit etre superieure a 0")).
Proof.
  assert (H1 : bien_forme base_negative [tache_negative])
    by (apply bien_forme_b_correct; par_calcul).
  assert (H2 : acyclique base_negative [tache_negative])
    by (apply acyclique_par_detection; [apply H1|par_calcul]).
  assert (H3 : tache_negative ∈ [tache_negative]) by appartient.
  assert (H4 : duree tache_negative < 0) by reflexivity.
  do 4 (split; [assumption|]).
  exact (C8_duree_non_validee base_negative [tache_negative] _ H1 H2 H3 H4).
Defined.

(** C9 — Secondary cycle check, as the claim states it, fails: on the
    collection whose only task depends on a row outside the collection the
    sort emits no code at all, fewer than the one task there is, and the run
    goes on and returns [True]. *)
Lemma C9_contre_exemple :
  _tri_topologique (mkEtat (__init__ [tache 1 "A" 3]) externe)
  = Val [] (mkEtat (__init__ [tache 1 "A" 3]) externe) ∧
  (length ([] : list string) < length [tache 1 "A" 3])%nat ∧
  ∃ e', lancer externe [tache 1 "A" 3] = Val true e'.
Proof.
  split_and!; [par_calcul|simpl; lia|].
  exists (etat_final (lancer externe [tache 1 "A" 3]) (mkEtat (__init__ []) externe)).
  par_calcul.
Qed.

(** C9 — Topological sort, amended.  On a well-formed acyclic collection
    the sort emits every task exactly once, each after its dependencies.  The
    implementation compares no count: [_tri_topologique] returns the order it
    has built and [calculer] uses it as it is. *)
Theorem C9_tri_complet b ts e :
  bien_forme b ts → acyclique b ts → coherent b ts e →
  ∃ o, _tri_topologique e = Val o e ∧ o ≡ₚ code <$> ts ∧ NoDup o ∧
       topo b ts o.
Proof.
  intros Hbf Hac Hcoh.
  destruct (tri_topologique_spec b ts e Hbf Hcoh)
    as (o & Hrun & Hnd & Hcodes & Hfile & Htopo).
  exists o. split_and!; try done.
  apply NoDup_Permutation; [done|apply Hbf|].
  intros c. split; [by apply Hcodes|].
  intros Hc. apply list_elem_of_fmap in Hc as (t & -> & Ht).
  by apply (tri_complet b ts o Hbf Hac Hfile).
Qed.

Lemma C9_tri_complet_witness :
  bien_forme parallele (table parallele) ∧
  acyclique parallele (table parallele) ∧
  coherent parallele (table parallele)
    (mkEtat (__init__ (table parallele)) parallele) ∧
  _tri_topologique (mkEtat (__init__ (table parallele)) parallele)
  = Val ["A"; "B"; "D"] (mkEtat (__init__ (table parallele)) parallele) ∧
  ∃ o, _tri_topologique (mkEtat (__init__ (table parallele)) parallele)
       = Val o (mkEtat (__init__ (table parallele)) parallele) ∧
       o ≡ₚ code <$> table parallele ∧ NoDup o ∧
       topo parallele (table parallele) o.
Proof.
  assert (H1 : bien_forme parallele (table parallele))
    by (apply bien_forme_b_correct; par_calcul).
  assert (H2 : acyclique parallele (table parallele))
    by (apply acyclique_par_detection; [apply H1|par_calcul]).
  assert (H3 : coherent parallele (table parallele)
                 (mkEtat (__init__ (table parallele)) parallele))
    by (split_and!; reflexivity).
  do 4 (split; [first [assumption|par_calcul]|]).
  exact (C9_tri_complet parallele (table parallele) _ H1 H2 H3).
Defined.

(** C10 — Empty collection.  Invoked with an empty task collection,
    [calculer] returns [True] at once: no exception, and the calculator and
    the database are left as they were, no derived field being computed or
    written.  Had the backward pass been reached, its [max] over the earliest
    finishes of a fresh calculator would have raised [ValueError]. *)
Theorem C10_collection_vide e :
  taches (self e) = [] →
  calculer e = Val true e ∧
  (dates_fin_tot (self e) = ∅ →
   _calculer_dates_tard e
   = Exc (ValueError "max() arg is an empty sequence") e).
Proof.
  intros H. split.
  - unfold calculer. rewrite bind_get. by rewrite H.
  - intros Hvide. unfold _calculer_dates_tard. rewrite bind_get, Hvide.
    by rewrite map_to_list_empty.
Qed.

Lemma C10_collection_vide_witness :
  taches (self (mkEtat (__init__ []) externe)) = [] ∧
  calculer (mkEtat (__init__ []) externe)
  = Val true (mkEtat (__init__ []) externe) ∧
  (dates_fin_tot (self (mkEtat (__init__ []) externe)) = ∅ →
   _calculer_dates_tard (mkEtat (__init__ []) externe)
   = Exc (ValueError "max() arg is an empty sequence")
         (mkEtat (__init__ []) externe)).
Proof.
  assert (H1 : taches (self (mkEtat (__init__ []) externe)) = []) by reflexivity.
  split; [exact H1|].
  exact (C10_collection_vide (mkEtat (__init__ []) externe) H1).
Defined.
